(** * The assignment decision engine of RL_project

    A shallow embedding of [app/simulation/envs/ChildEnv.py] (candidate
    selection, observation encoding, action decoding, reward shaping, action
    masking) and of [app/simulation/policies/ChildPolicy.py] (the heuristic
    scoring policy), with the properties of the specification proved about it.

    Conventions of the embedding:
    - Python [float] is IEEE 754 binary64: Rocq's primitive [float], whose
      operations are specified by [SpecFloat] through [FloatAxioms];
    - Python [int] is [Z];
    - a method that can raise returns a [result]; the only exceptions the two
      files can raise on well-typed state are [KeyError] (subscript of the
      server's [avg_service_time] dict), [IndexError] (subscript of the
      observation) and [OverflowError] (an int too large for a float or for an
      int32 array);
    - [self.customer_waiting] is a Python dict, iterated in insertion order: an
      association list; the dicts that are only looked up are [gmap]s. *)

From Stdlib Require Import ZArith Floats Lia Permutation Sorted.
From stdpp Require Import base option list gmap strings.

Local Open Scope Z_scope.

(** ** Exceptions *)

Inductive exn : Type :=
| KeyError (key : Z)
| IndexError
| OverflowError.

Inductive result (A : Type) : Type :=
| Ok (a : A)
| Raise (e : exn).

Arguments Ok {A} a.
Arguments Raise {A} e.

#[global] Instance result_ret : MRet result := fun _ a => Ok a.
#[global] Instance result_bind : MBind result := fun _ _ f r =>
  match r with
  | Ok a => f a
  | Raise e => Raise e
  end.

(** ** Python values an action can be *)

Inductive PyValue : Type :=
| PyInt (n : Z)
| PyBool (b : bool)
| PyNpInteger (n : Z)
| PyFloat (f : float)
| PyStr (s : string)
| PyNone.

(** [isinstance(v, (int, np.integer))], with the integer the value then
    denotes ([bool] is a subclass of [int]: [True] is 1). *)
Definition as_integral (v : PyValue) : option Z :=
  match v with
  | PyInt n => Some n
  | PyBool b => Some (if b then 1 else 0)
  | PyNpInteger n => Some n
  | PyFloat _ | PyStr _ | PyNone => None
  end.

(** ** Python's [min], [max], [float(int)] and dict operations *)

(** [min(a, b)] keeps [a] unless [b < a]; [max(a, b)] keeps [a] unless
    [b > a] (CPython's [min_max]). *)
Definition py_min (a b : float) : float := if PrimFloat.ltb b a then b else a.
Definition py_max (a b : float) : float := if PrimFloat.ltb a b then b else a.

(** Conversion of an int operand of float arithmetic: correctly rounded,
    [OverflowError] when the int is too large. *)
Definition float_of_int (n : Z) : result float :=
  match binary_normalize prec emax n 0 false with
  | S754_infinity _ => Raise OverflowError
  | f => Ok (SF2Prim f)
  end.

(** [d[k]] on a dict. *)
Definition dict_getitem {V} (d : gmap Z V) (k : Z) : result V :=
  match d !! k with
  | Some v => Ok v
  | None => Raise (KeyError k)
  end.

(** [d.get(k)] on an insertion-ordered dict. *)
Fixpoint dict_get {V} (d : list (Z * V)) (k : Z) : option V :=
  match d with
  | [] => None
  | (k', v) :: d' => if Z.eqb k' k then Some v else dict_get d' k
  end.

(** [d.values()]. *)
Definition dict_values {V} (d : list (Z * V)) : list V := snd <$> d.

(** ** Domain entities (read-only to the engine) *)

Module Customer.
Record t : Type := { id : Z; arrival_time : float; task : Z }.
End Customer.

Module Appointment.
Record t : Type :=
  { time : float; customer_id : Z; task : Z; service_time : float }.
End Appointment.

Module Server.
Record t : Type := { id : Z; avg_service_time : gmap Z float }.
End Server.

(** ** ChildEnv *)

Definition MAX_VISIBLE_CUSTOMERS : Z := 20.
Definition INVALID_CUSTOMER_ID : Z := -1.

(** The fields of the environment the engine reads, and the one it owns
    ([_visible_customer_ids]). *)
Record ChildEnv : Type := {
  customer_waiting : list (Z * Customer.t);
  appointments : gmap Z Appointment.t;
  current_working_server : Server.t;
  system_time : float;
  _visible_customer_ids : list Z
}.

Definition set_visible (self : ChildEnv) (ids : list Z) : ChildEnv :=
  {| customer_waiting := customer_waiting self;
     appointments := appointments self;
     current_working_server := current_working_server self;
     system_time := system_time self;
     _visible_customer_ids := ids |}.

(** *** Candidate selection *)

(** The loop of [_get_candidate_customers]: customers are visited in order;
    the first missing task key raises. ([> 0] compares the float with the
    int 0.) *)
Fixpoint compatible_customers (server : Server.t) (cs : list Customer.t)
  : result (list Customer.t) :=
  match cs with
  | [] => Ok []
  | customer :: cs' =>
      t ← dict_getitem (Server.avg_service_time server) (Customer.task customer);
      candidates ← compatible_customers server cs';
      Ok (if PrimFloat.ltb 0 t then customer :: candidates else candidates)
  end.

(** [(a.arrival_time, a.id) < (b.arrival_time, b.id)] on Python tuples: the
    first components decide unless they are [==]. (CPython also takes two
    identical objects for equal, which differs from [==] on NaN only.) *)
Definition key_lt (a b : Customer.t) : bool :=
  if PrimFloat.eqb (Customer.arrival_time a) (Customer.arrival_time b)
  then Customer.id a <? Customer.id b
  else PrimFloat.ltb (Customer.arrival_time a) (Customer.arrival_time b).

(** [list.sort] is stable and compares with [<] only; a stable insertion
    sort computes the same list whenever [<] is a strict weak order on the
    keys, that is, when no arrival time is NaN. *)
Fixpoint insert_sorted (c : Customer.t) (l : list Customer.t) : list Customer.t :=
  match l with
  | [] => [c]
  | d :: l' => if key_lt d c then d :: insert_sorted c l' else c :: d :: l'
  end.

Fixpoint sort_by_key (l : list Customer.t) : list Customer.t :=
  match l with
  | [] => []
  | c :: l' => insert_sorted c (sort_by_key l')
  end.

Definition _get_candidate_customers (self : ChildEnv) : result (list Customer.t) :=
  candidates ← compatible_customers (current_working_server self)
                 (dict_values (customer_waiting self));
  Ok (sort_by_key candidates).

(** *** Action and observation spaces *)

(** [gym.spaces.Discrete(n)]: the actions [0 .. n - 1]. *)
Record Discrete : Type := { Discrete_n : Z }.

Definition Discrete_contains (space : Discrete) (a : Z) : bool :=
  (0 <=? a) && (a <? Discrete_n space).

(** [gym.spaces.Box(low, high, shape=(n,), dtype=np.int32)]: the int32
    arrays of length [n] whose entries lie between [low] and [high]. *)
Record Box : Type := { Box_low : Z; Box_high : Z; Box_shape : Z }.

Definition Box_contains (space : Box) (x : list Z) : bool :=
  (Z.of_nat (length x) =? Box_shape space) &&
  forallb (fun v => (Box_low space <=? v) && (v <=? Box_high space)) x.

(** One action per visible customer slot and one HOLD action. *)
Definition _get_action_space : Discrete :=
  {| Discrete_n := MAX_VISIBLE_CUSTOMERS + 1 |}.

(** The observation holds customer ids for the visible slots. *)
Definition _get_observation_space : Box :=
  {| Box_low := INVALID_CUSTOMER_ID; Box_high := 10000; Box_shape := MAX_VISIBLE_CUSTOMERS |}.

(** *** Observation encoding *)

(** [np.array(obs, dtype=np.int32)]: an id outside the int32 range raises
    (NumPy 2; older versions wrap). In range, the value is stored as it is. *)
Definition int32_ok (n : Z) : bool := (-2147483648 <=? n) && (n <=? 2147483647).

Fixpoint np_array_int32 (l : list Z) : result (list Z) :=
  match l with
  | [] => Ok []
  | n :: l' =>
      if int32_ok n then (a ← np_array_int32 l'; Ok (n :: a))
      else Raise OverflowError
  end.

(** The padded id list of [_get_obs], before the conversion to an array. *)
Definition pad_visible (visible : list Z) : list Z :=
  visible ++ replicate (Z.to_nat (MAX_VISIBLE_CUSTOMERS - Z.of_nat (length visible)))
                       INVALID_CUSTOMER_ID.

(** [_get_obs] returns the observation and the environment with its
    visible-slot table rebuilt. ([self._get_state()] of the base class is
    called and its result dropped. When the conversion to an array raises,
    the table has been rebuilt already; nothing below depends on the state
    left by a call that raised.) *)
Definition _get_obs (self : ChildEnv) : result (list Z * ChildEnv) :=
  candidates ← _get_candidate_customers self;
  let visible := Customer.id <$> take (Z.to_nat MAX_VISIBLE_CUSTOMERS) candidates in
  let self' := set_visible self visible in
  obs ← np_array_int32 (pad_visible visible);
  Ok (obs, self').

(** *** Action decoding *)

Definition _get_hold_action_number : Z := MAX_VISIBLE_CUSTOMERS.

Definition _get_customer_from_action (self : ChildEnv) (action : PyValue)
  : result (option Customer.t) :=
  match as_integral action with
  | None => Ok None
  | Some a =>
      if (a <? 0) || (MAX_VISIBLE_CUSTOMERS <=? a) then Ok None
      else if Z.of_nat (length (_visible_customer_ids self)) <=? a then Ok None
      else
        match _visible_customer_ids self !! Z.to_nat a with
        | None => Raise IndexError
        | Some customer_id =>
            match dict_get (customer_waiting self) customer_id with
            | None => Ok None
            | Some customer =>
                t ← dict_getitem (Server.avg_service_time (current_working_server self))
                                 (Customer.task customer);
                if PrimFloat.leb t 0 then Ok None else Ok (Some customer)
            end
        end
  end.

(** *** Reward shaping *)

Definition _get_invalid_action_reward : float := (-10.0)%float.

Definition _get_valid_reward (self : ChildEnv) (customer : Customer.t) : float :=
  let waiting_time := (system_time self - Customer.arrival_time customer)%float in
  let reward := 2.0%float in
  let reward := (reward + py_min (waiting_time / 15.0) 6.0)%float in
  match appointments self !! Customer.id customer with
  | Some appointment =>
      let delay := PrimFloat.abs (system_time self - Appointment.time appointment) in
      (reward + py_max 0.0 (4.0 - delay / 5.0))%float
  | None => reward
  end.

(** *** Action masking *)

(** Every index written is below the length 21 of the mask: [mask[idx] =
    True] never raises. *)
Definition action_masks (self : ChildEnv) : list bool :=
  let mask := replicate (Z.to_nat (MAX_VISIBLE_CUSTOMERS + 1)) false in
  let valid_slots :=
    Z.min (Z.of_nat (length (_visible_customer_ids self))) MAX_VISIBLE_CUSTOMERS in
  let mask := foldl (fun m idx => <[idx := true]> m) mask (seq 0 (Z.to_nat valid_slots)) in
  <[Z.to_nat _get_hold_action_number := true]> mask.

(** ** ChildPolicy *)

(** The [info] dict: both keys are read with a default. *)
Record Info : Type := {
  info_action_mask : option (list bool);
  info_system_time : option float
}.

(** The literal [1e-6]: the binary64 value nearest to it. *)
Definition tie_break_weight : float := 0x1.0c6f7a0b5ed8dp-20%float.

(** The score of one resolvable customer (the body of the loop of
    [_predict], from [waiting_time] to the tie-breaker). *)
Definition score (appointments : gmap Z Appointment.t) (sim_time : float)
    (customer_id : Z) (customer : Customer.t) : result float :=
  let waiting_time := (sim_time - Customer.arrival_time customer)%float in
  let score := waiting_time in
  let score :=
    match appointments !! customer_id with
    | Some appointment =>
        let appointment_delta := PrimFloat.abs (sim_time - Appointment.time appointment) in
        let score := (score + py_max 0.0 (120.0 - 4.0 * appointment_delta))%float in
        if PrimFloat.ltb sim_time (Appointment.time appointment - 30.0)
        then (score - (Appointment.time appointment - sim_time - 30.0) * 2.0)%float
        else score
    | None => score
    end in
  idf ← float_of_int (Customer.id customer);
  Ok (score - idf * tie_break_weight)%float.

(** The [for action in service_actions] loop, threading [best_action] and
    [best_score]. *)
Fixpoint predict_loop (env : ChildEnv) (obs : list Z) (sim_time : float)
    (service_actions : list Z) (best_action : Z) (best_score : float) : result Z :=
  match service_actions with
  | [] => Ok best_action
  | action :: rest =>
      match obs !! Z.to_nat action with
      | None => Raise IndexError
      | Some customer_id =>
          if customer_id <? 0 then
            predict_loop env obs sim_time rest best_action best_score
          else
            match dict_get (customer_waiting env) customer_id with
            | None => predict_loop env obs sim_time rest best_action best_score
            | Some customer =>
                s ← score (appointments env) sim_time customer_id customer;
                if PrimFloat.ltb best_score s
                then predict_loop env obs sim_time rest action s
                else predict_loop env obs sim_time rest best_action best_score
            end
      end
  end.

(** [[i for i, is_valid in enumerate(action_mask) if is_valid]], from index
    [i]. *)
Fixpoint valid_actions_from (i : Z) (action_mask : list bool) : list Z :=
  match action_mask with
  | [] => []
  | is_valid :: rest =>
      if is_valid then i :: valid_actions_from (i + 1) rest
      else valid_actions_from (i + 1) rest
  end.

Definition _predict (env : ChildEnv) (obs : list Z) (info : Info) : result Z :=
  let action_mask := default [] (info_action_mask info) in
  match action_mask with
  | [] => Ok 0
  | _ =>
      let hold_action := Z.of_nat (length action_mask) - 1 in
      let valid_actions := valid_actions_from 0 action_mask in
      let service_actions := filter (fun a => a ≠ hold_action) valid_actions in
      match service_actions with
      | [] => Ok hold_action
      | _ =>
          let sim_time := default 0.0%float (info_system_time info) in
          predict_loop env obs sim_time service_actions hold_action neg_infinity
      end
  end.

(** * Vocabulary of the specification *)

(** Python's [sum] over a list of booleans. *)
Definition py_sum (mask : list bool) : Z :=
  foldl (fun acc (b : bool) => acc + (if b then 1 else 0)) 0 mask.

(** The server serves the customer's task: the task is a key of
    [avg_service_time] and its value is strictly positive. *)
Definition serves (server : Server.t) (c : Customer.t) : bool :=
  match Server.avg_service_time server !! Customer.task c with
  | Some t => PrimFloat.ltb 0 t
  | None => false
  end.

(** Every waiting customer's task is a key of the selected server's
    [avg_service_time]. *)
Definition tasks_known (self : ChildEnv) : Prop :=
  Forall (fun c => is_Some (Server.avg_service_time (current_working_server self)
                              !! Customer.task c))
         (dict_values (customer_waiting self)).

(** Ascending arrival time, ties broken by ascending id. *)
Definition key_le (c d : Customer.t) : Prop :=
  PrimFloat.ltb (Customer.arrival_time c) (Customer.arrival_time d) = true \/
  (PrimFloat.eqb (Customer.arrival_time c) (Customer.arrival_time d) = true /\
   Customer.id c <= Customer.id d).

Definition arrival_is_number (c : Customer.t) : Prop :=
  PrimFloat.is_nan (Customer.arrival_time c) = false.

(** Customers of one waiting set are told apart by their ids (the keys of
    the dict are the ids). *)
Definition ids_identify (cs : list Customer.t) : Prop :=
  forall c d, c ∈ cs -> d ∈ cs -> Customer.id c = Customer.id d -> c = d.

(** The valid-action reward as the specification words it: base, bounded
    wait bonus, and the punctuality bonus of an appointment at [appointment]. *)
Definition valid_reward_spec (t arrival : float) (appointment : option float) : float :=
  let base_and_wait := (2.0 + py_min ((t - arrival) / 15.0) 6.0)%float in
  match appointment with
  | Some a => (base_and_wait + py_max 0.0 (4.0 - PrimFloat.abs (t - a) / 5.0))%float
  | None => base_and_wait
  end.

(** The valid-action reward of the customer with id [customer_id] at wait
    time [w], everything else (time, appointment) as in [self]: the body of
    [_get_valid_reward] after its first line. *)
Definition reward_at_wait (self : ChildEnv) (customer_id : Z) (w : float) : float :=
  let reward := (2.0 + py_min (w / 15.0) 6.0)%float in
  match appointments self !! customer_id with
  | Some appointment =>
      (reward + py_max 0.0 (4.0 - PrimFloat.abs (system_time self - Appointment.time appointment)
                                  / 5.0))%float
  | None => reward
  end.

(** The score as the specification words it; [idf] is the customer's id as
    a float. *)
Definition score_spec (t arrival : float) (appointment : option float) (idf : float) : float :=
  let waited := (t - arrival)%float in
  let with_appointment :=
    match appointment with
    | Some a =>
        let near := (waited + py_max 0.0 (120.0 - 4.0 * PrimFloat.abs (t - a)))%float in
        if PrimFloat.ltb t (a - 30.0) then (near - 2.0 * (a - t - 30.0))%float else near
    | None => waited
    end in
  (with_appointment - idf * tie_break_weight)%float.

(** Slot [action] resolves to a waiting customer, whose score is [s]. *)
Definition scored (env : ChildEnv) (obs : list Z) (t : float) (action : Z) (s : float) : Prop :=
  exists customer_id customer,
    obs !! Z.to_nat action = Some customer_id /\ 0 <= customer_id /\
    dict_get (customer_waiting env) customer_id = Some customer /\
    score (appointments env) t customer_id customer = Ok s.

(** The slot can be read and, if it resolves, its score is a number. *)
Definition scorable (env : ChildEnv) (obs : list Z) (t : float) (action : Z) : Prop :=
  is_Some (obs !! Z.to_nat action) /\
  forall customer_id customer,
    obs !! Z.to_nat action = Some customer_id -> 0 <= customer_id ->
    dict_get (customer_waiting env) customer_id = Some customer ->
    exists s, score (appointments env) t customer_id customer = Ok s /\
              PrimFloat.ltb neg_infinity s = true.

(** The legal non-HOLD actions of a mask. *)
Definition legal_service_actions (mask : list bool) : list Z :=
  filter (fun a => a ≠ Z.of_nat (length mask) - 1) (valid_actions_from 0 mask).

(** The example of the specification: A arrived at 0 without appointment, B
    arrived at 10 with an appointment at 50; the time is 50. *)
Definition example_A : Customer.t :=
  {| Customer.id := 1; Customer.arrival_time := 0; Customer.task := 0 |}.
Definition example_B : Customer.t :=
  {| Customer.id := 2; Customer.arrival_time := 10; Customer.task := 0 |}.
Definition example_env : ChildEnv :=
  {| customer_waiting := [(1, example_A); (2, example_B)];
     appointments :=
       {[ 2 := {| Appointment.time := 50; Appointment.customer_id := 2;
                  Appointment.task := 0; Appointment.service_time := 5 |} ]};
     current_working_server :=
       {| Server.id := 0; Server.avg_service_time := {[ 0 := 5%float ]} |};
     system_time := 50;
     _visible_customer_ids := [] |}.

(** The same state once observed: the visible-slot table and the observation
    that [_get_obs] computes from it. *)
Definition example_observed_env : ChildEnv := set_visible example_env [1; 2].
Definition example_obs : list Z := pad_visible [1; 2].

(** A state whose second waiting customer has a task (9) that is not a key
    of the selected server's [avg_service_time]. *)
Definition known_task_customer : Customer.t :=
  {| Customer.id := 3; Customer.arrival_time := 5; Customer.task := 7 |}.
Definition unknown_task_customer : Customer.t :=
  {| Customer.id := 4; Customer.arrival_time := 0; Customer.task := 9 |}.
Definition env_missing_key : ChildEnv :=
  {| customer_waiting := [(3, known_task_customer); (4, unknown_task_customer)];
     appointments := ∅;
     current_working_server :=
       {| Server.id := 0; Server.avg_service_time := {[ 7 := 2.5%float ]} |};
     system_time := 30;
     _visible_customer_ids := [4; 3] |}.

(** The waiting dict is keyed by customer id: each key is the id of the
    customer stored under it and, as in any dict, occurs once. *)
Definition waiting_by_id (self : ChildEnv) : Prop :=
  NoDup (fst <$> customer_waiting self) /\
  Forall (fun kc => fst kc = Customer.id (snd kc)) (customer_waiting self).

(** The [info] dict of the example: the mask of the environment and the
    time 50. *)
Definition example_info : Info :=
  {| info_action_mask := Some (action_masks example_observed_env);
     info_system_time := Some 50%float |}.

(** A state with nobody waiting. *)
Definition idle_env : ChildEnv :=
  {| customer_waiting := [];
     appointments := ∅;
     current_working_server :=
       {| Server.id := 0; Server.avg_service_time := {[ 0 := 5%float ]} |};
     system_time := 0;
     _visible_customer_ids := [] |}.

(** A state with 21 compatible customers, ids 1 to 21, all arrived at time
    0: one more than the observation can show. *)
Definition crowd_customer (i : nat) : Customer.t :=
  {| Customer.id := Z.of_nat i; Customer.arrival_time := 0; Customer.task := 0 |}.

Definition crowded_env : ChildEnv :=
  {| customer_waiting := (fun i => (Z.of_nat i, crowd_customer i)) <$> seq 1 21;
     appointments := ∅;
     current_working_server :=
       {| Server.id := 0; Server.avg_service_time := {[ 0 := 5%float ]} |};
     system_time := 60;
     _visible_customer_ids := [] |}.

(** * Binary64 arithmetic

    What the proofs below need of IEEE 754 arithmetic, derived from the
    specification of the primitive operations ([FloatAxioms] over [SpecFloat]):
    the order of floats is the order of their integer values, and [+], [-] and
    division by a positive constant round monotonically. *)

Module B64.

(** ** Binary64 values as integers

    Every finite binary64 number is an integer multiple of [2 ^ E0], the
    smallest subnormal. [SFval] maps a float to that multiple and the two
    infinities to [BIG] and [- BIG], the multiples [2 ^ 1024] would have, so
    that the order of floats is the order of [Z]; the rounding of [SpecFloat]
    is restated on these integers. *)

Definition E0 : Z := -1074.
Definition BIG : Z := 2 ^ 2098.

Definition SFval (x : spec_float) : Z :=
  match x with
  | S754_zero _ | S754_nan => 0
  | S754_infinity s => cond_Zopp s BIG
  | S754_finite s m e => cond_Zopp s (Z.pos m * 2 ^ (e - E0))
  end.

Definition SFis_nan (x : spec_float) : bool :=
  match x with S754_nan => true | _ => false end.

Definition SFis_fin (x : spec_float) : bool :=
  match x with
  | S754_zero _ | S754_finite _ _ _ => true
  | _ => false
  end.

Definition mag (m : positive) (e : Z) : Z := Z.pos m * 2 ^ (e - E0).

(** Where the remainder [R] of a division by [D] lies in [[0, D)]. *)
Definition loc_of (R D : Z) : location :=
  if R =? 0 then loc_Exact else loc_Inexact (2 * R ?= D).

(** The quotient [N / D] rounded to the nearest integer, ties to even. *)
Definition rne (N D : Z) : Z := round_nearest_even (N / D) (loc_of (N mod D) D).

(** [N / D] units rounded to 53 significant bits, before the overflow
    test and with it. *)
Definition round_raw (N D : Z) : Z :=
  let sh := Z.max (Zdigits2 (N / D) - 53) 0 in
  rne N (D * 2 ^ sh) * 2 ^ sh.

Definition round_int (N D : Z) : Z := Z.min (round_raw N D) BIG.

(** Sign-symmetric rounding of an integer number of units. *)
Definition round_Z (J : Z) : Z := Z.sgn J * round_int (Z.abs J) 1.

(** A shift record stands for the fraction [N / D]: its mantissa is the
    quotient, its two bits locate the remainder. *)
Definition repr (mrs : shr_record) (N D : Z) : Prop :=
  shr_m mrs = N / D /\ loc_of_shr_record mrs = loc_of (N mod D) D.

Definition val (x : float) : Z := SFval (Prim2SF x).
Definition is_fin (x : float) : bool := SFis_fin (Prim2SF x).

(** Addition and division by a positive constant [my * 2 ^ ey] on values. *)
Definition add_sem (a b : Z) : Z :=
  if Z.abs a =? BIG then a else if Z.abs b =? BIG then b else round_Z (a + b).

Definition div_sem (my : positive) (ey : Z) (a : Z) : Z :=
  if Z.abs a =? BIG then a
  else Z.sgn a * round_int (Z.abs a * 2 ^ (- ey)) (Z.pos my).

(** ** Digits, validity and the order of values *)

Lemma digits2_pos_bounds m :
  2 ^ (Z.pos (digits2_pos m) - 1) <= Z.pos m < 2 ^ Z.pos (digits2_pos m).
Proof.
  induction m as [m IH | m IH |]; cbn [digits2_pos].
  - rewrite Pos2Z.inj_succ.
    replace (Z.succ (Z.pos (digits2_pos m)) - 1) with (Z.succ (Z.pos (digits2_pos m) - 1)) by lia.
    rewrite !Z.pow_succ_r by lia. lia.
  - rewrite Pos2Z.inj_succ.
    replace (Z.succ (Z.pos (digits2_pos m)) - 1) with (Z.succ (Z.pos (digits2_pos m) - 1)) by lia.
    rewrite !Z.pow_succ_r by lia. lia.
  - cbn. lia.
Qed.

Lemma bounded_inv m e :
  bounded prec emax m e = true ->
  E0 <= e <= 971 /\ Z.pos m < 2 ^ 53 /\ (E0 < e -> 2 ^ 52 <= Z.pos m).
Proof.
  unfold bounded, canonical_mantissa, fexp, emin, emax, prec, E0.
  intros H. apply andb_true_iff in H as [H1 H2].
  apply Z.eqb_eq in H1. apply Z.leb_le in H2.
  pose proof (digits2_pos_bounds m) as [Hlo Hhi].
  set (d := Z.pos (digits2_pos m)) in *.
  assert (Hd : 0 < d) by (unfold d; lia).
  split; [lia|]. split.
  - eapply Z.lt_le_trans; [exact Hhi|]. apply Z.pow_le_mono_r; lia.
  - intros He. assert (d = 53) by lia. replace (52) with (d - 1) by lia. exact Hlo.
Qed.

Lemma mag_pos m e : E0 <= e -> 0 < mag m e.
Proof.
  intros He. unfold mag. apply Z.mul_pos_pos; [lia|]. apply Z.pow_pos_nonneg; lia.
Qed.

Lemma mag_lt_BIG m e : bounded prec emax m e = true -> 0 < mag m e < BIG.
Proof.
  intros H. apply bounded_inv in H as (He & Hm & _).
  split; [apply mag_pos; lia|].
  unfold mag, BIG.
  assert (0 < 2 ^ (e - E0)) by (apply Z.pow_pos_nonneg; unfold E0 in *; lia).
  assert (2 ^ (e - E0) <= 2 ^ 2045) by (apply Z.pow_le_mono_r; unfold E0 in *; lia).
  replace 2098 with (53 + 2045) by lia. rewrite Z.pow_add_r by lia.
  nia.
Qed.

Lemma mag_exp_lt m1 e1 m2 e2 :
  bounded prec emax m1 e1 = true -> bounded prec emax m2 e2 = true ->
  e1 < e2 -> mag m1 e1 < mag m2 e2.
Proof.
  intros H1 H2 Hlt.
  apply bounded_inv in H1 as (He1 & Hm1 & _).
  apply bounded_inv in H2 as (He2 & _ & Hm2).
  specialize (Hm2 ltac:(lia)).
  unfold mag.
  replace (e2 - E0) with ((e1 - E0) + (e2 - e1)) by lia.
  rewrite Z.pow_add_r by lia.
  assert (0 < 2 ^ (e1 - E0)) by (apply Z.pow_pos_nonneg; lia).
  assert (2 ^ 1 <= 2 ^ (e2 - e1)) by (apply Z.pow_le_mono_r; lia).
  change (2 ^ 1) with 2 in *. change (2 ^ 53) with (2 * 2 ^ 52) in Hm1.
  set (P := 2 ^ (e1 - E0)) in *. set (Q := 2 ^ (e2 - e1)) in *. set (T := 2 ^ 52) in *.
  assert (0 < T) by (unfold T; lia).
  assert (Z.pos m1 * P < (2 * T) * P) by (apply Z.mul_lt_mono_pos_r; lia).
  assert (2 * T <= Q * Z.pos m2) by nia.
  assert ((2 * T) * P <= (Q * Z.pos m2) * P) by (apply Z.mul_le_mono_nonneg_r; lia).
  lia.
Qed.

Lemma mag_same_exp m1 m2 e :
  E0 <= e -> (mag m1 e ?= mag m2 e) = Pos.compare_cont Eq m1 m2.
Proof.
  intros He. unfold mag.
  assert (0 < 2 ^ (e - E0)) by (apply Z.pow_pos_nonneg; lia).
  change (Pos.compare_cont Eq m1 m2) with (m1 ?= m2)%positive.
  destruct (Pos.compare_spec m1 m2) as [-> | Hlt | Hgt].
  - apply Z.compare_refl.
  - apply Z.compare_lt_iff. apply Z.mul_lt_mono_pos_r; lia.
  - apply Z.compare_gt_iff. apply Z.mul_lt_mono_pos_r; lia.
Qed.

Lemma mag_compare m1 e1 m2 e2 :
  bounded prec emax m1 e1 = true -> bounded prec emax m2 e2 = true ->
  (mag m1 e1 ?= mag m2 e2) =
  match e1 ?= e2 with
  | Lt => Lt
  | Gt => Gt
  | Eq => Pos.compare_cont Eq m1 m2
  end.
Proof.
  intros H1 H2. destruct (Z.compare_spec e1 e2) as [-> | Hlt | Hgt].
  - apply mag_same_exp. apply bounded_inv in H1. lia.
  - apply Z.compare_lt_iff. now apply mag_exp_lt.
  - apply Z.compare_gt_iff. now apply mag_exp_lt.
Qed.

Lemma SFcompare_val x y :
  valid_binary x = true -> valid_binary y = true ->
  SFis_nan x = false -> SFis_nan y = false ->
  SFcompare x y = Some (SFval x ?= SFval y).
Proof.
  intros Vx Vy Nx Ny.
  assert (HB : 0 < BIG) by (unfold BIG; lia).
  destruct x as [sx | sx | | sx mx ex], y as [sy | sy | | sy my ey];
    try discriminate; cbn [SFcompare SFval valid_binary] in *;
    try (pose proof (mag_lt_BIG _ _ Vx) as Bx; fold (mag mx ex));
    try (pose proof (mag_lt_BIG _ _ Vy) as By; fold (mag my ey));
    try reflexivity.
  8: {
    f_equal. destruct sx, sy; cbn [cond_Zopp].
    - rewrite Z.compare_opp. rewrite (mag_compare my ey mx ex) by assumption.
      rewrite (Z.compare_antisym ey ex).
      destruct (ey ?= ex); cbn; try reflexivity.
      rewrite (Pos.compare_cont_antisym mx my Eq). reflexivity.
    - symmetry. apply Z.compare_lt_iff. lia.
    - symmetry. apply Z.compare_gt_iff. lia.
    - symmetry. now apply mag_compare. }
  all: repeat match goal with s : bool |- _ => destruct s end; cbn [cond_Zopp];
    f_equal; symmetry;
    first [apply Z.compare_lt_iff; lia | apply Z.compare_gt_iff; lia | apply Z.compare_eq_iff; lia].
Qed.

(** ** Rounding to nearest even on integers *)

Lemma rne_bounds N D : N / D <= rne N D <= N / D + 1.
Proof.
  unfold rne, round_nearest_even, loc_of.
  destruct (N mod D =? 0); [lia|].
  destruct (2 * (N mod D) ?= D); try destruct (Z.even (N / D)); lia.
Qed.

Lemma rne_exact N D : N mod D = 0 -> rne N D = N / D.
Proof. intros H. unfold rne, loc_of. rewrite H. reflexivity. Qed.

Lemma rne_le_mul N D c : 0 < D -> N <= c * D -> rne N D <= c.
Proof.
  intros HD HN.
  destruct (Z.eq_dec N (c * D)) as [-> | Hne].
  - rewrite rne_exact by apply Z.mod_mul, Z.neq_sym, Z.lt_neq, HD.
    rewrite Z.div_mul; lia.
  - assert (N / D < c) by (apply Z.div_lt_upper_bound; lia).
    pose proof (rne_bounds N D). lia.
Qed.

Lemma rne_ge_mul N D c : 0 < D -> c * D <= N -> c <= rne N D.
Proof.
  intros HD HN.
  assert (c <= N / D) by (apply Z.div_le_lower_bound; lia).
  pose proof (rne_bounds N D). lia.
Qed.

Lemma rne_mono N1 N2 D : 0 < D -> N1 <= N2 -> rne N1 D <= rne N2 D.
Proof.
  intros HD HN.
  assert (Hq : N1 / D <= N2 / D) by (apply Z.div_le_mono; lia).
  destruct (Z.eq_dec (N1 / D) (N2 / D)) as [Heq | Hne].
  - assert (Hr : N1 mod D <= N2 mod D).
    { rewrite !Z.mod_eq by lia. rewrite Heq. lia. }
    pose proof (Z.mod_pos_bound N1 D HD). pose proof (Z.mod_pos_bound N2 D HD).
    unfold rne, round_nearest_even, loc_of. rewrite <- Heq.
    destruct (Z.eqb_spec (N1 mod D) 0), (Z.eqb_spec (N2 mod D) 0).
    + lia.
    + destruct (2 * (N2 mod D) ?= D); try destruct (Z.even (N1 / D)); lia.
    + lia.
    + destruct (Z.compare_spec (2 * (N1 mod D)) D), (Z.compare_spec (2 * (N2 mod D)) D);
        try destruct (Z.even (N1 / D)); lia.
  - pose proof (rne_bounds N1 D). pose proof (rne_bounds N2 D). lia.
Qed.

Lemma Zcompare_scale a b c : 0 < c -> (a * c ?= b * c) = (a ?= b).
Proof.
  intros Hc. destruct (Z.compare_spec a b) as [-> | H | H].
  - apply Z.compare_refl.
  - apply Z.compare_lt_iff. apply Z.mul_lt_mono_pos_r; assumption.
  - apply Z.compare_gt_iff. apply Z.mul_lt_mono_pos_r; assumption.
Qed.

Lemma loc_of_scale R D c : 0 < c -> loc_of (R * c) (D * c) = loc_of R D.
Proof.
  intros Hc. unfold loc_of.
  destruct (Z.eqb_spec R 0) as [-> | HR].
  - reflexivity.
  - destruct (Z.eqb_spec (R * c) 0) as [H0 | _]; [nia|].
    f_equal. rewrite Z.mul_assoc. apply Zcompare_scale. assumption.
Qed.

Lemma rne_scale N D c : 0 < D -> 0 < c -> rne (N * c) (D * c) = rne N D.
Proof.
  intros HD Hc. unfold rne.
  rewrite Z.div_mul_cancel_r by lia.
  rewrite Z.mul_mod_distr_r by lia.
  rewrite loc_of_scale by assumption. reflexivity.
Qed.

Lemma Zdigits2_nonneg n : 0 <= Zdigits2 n.
Proof. destruct n; cbn; lia. Qed.

Lemma Zdigits2_bounds n : 0 < n -> 2 ^ (Zdigits2 n - 1) <= n < 2 ^ Zdigits2 n.
Proof. destruct n; try lia. intros _. apply digits2_pos_bounds. Qed.

Lemma Zdigits2_unique n k : 2 ^ (k - 1) <= n < 2 ^ k -> 0 < n -> Zdigits2 n = k.
Proof.
  intros [Hlo Hhi] Hn.
  pose proof (Zdigits2_bounds n Hn) as [Dlo Dhi].
  pose proof (Zdigits2_nonneg n).
  assert (0 < k).
  { destruct (Z.lt_ge_cases 0 k); [assumption|].
    assert (2 ^ k <= 2 ^ 0) by (destruct (Z.eq_dec k 0) as [->|]; [lia|]; rewrite Z.pow_neg_r by lia; lia).
    change (2 ^ 0) with 1 in *. lia. }
  destruct (Z.lt_trichotomy (Zdigits2 n) k) as [Hlt | [Heq | Hgt]]; [|assumption|].
  - assert (2 ^ Zdigits2 n <= 2 ^ (k - 1)) by (apply Z.pow_le_mono_r; lia). lia.
  - assert (2 ^ k <= 2 ^ (Zdigits2 n - 1)) by (apply Z.pow_le_mono_r; lia). lia.
Qed.

Lemma Zdigits2_mono a b : 0 <= a <= b -> Zdigits2 a <= Zdigits2 b.
Proof.
  intros [Ha Hab].
  destruct (Z.eq_dec a 0) as [-> | Hne]; [apply Zdigits2_nonneg|].
  pose proof (Zdigits2_bounds a ltac:(lia)) as [Alo _].
  pose proof (Zdigits2_bounds b ltac:(lia)) as [_ Bhi].
  destruct (Z.le_gt_cases (Zdigits2 a) (Zdigits2 b)); [assumption|].
  assert (2 ^ Zdigits2 b <= 2 ^ (Zdigits2 a - 1)).
  { apply Z.pow_le_mono_r; [lia|]. lia. }
  lia.
Qed.

Lemma Zdigits2_lt_pow n : 0 <= n -> n < 2 ^ Zdigits2 n.
Proof.
  intros Hn. destruct (Z.eq_dec n 0) as [-> | Hne]; [cbn; lia|].
  apply Zdigits2_bounds. lia.
Qed.

Lemma round_raw_mono N1 N2 D :
  0 < D -> 0 <= N1 <= N2 -> round_raw N1 D <= round_raw N2 D.
Proof.
  intros HD [H1 H12]. unfold round_raw.
  assert (Hq1 : 0 <= N1 / D) by (apply Z.div_pos; lia).
  assert (Hq : N1 / D <= N2 / D) by (apply Z.div_le_mono; lia).
  pose proof (Zdigits2_mono (N1 / D) (N2 / D) ltac:(lia)) as Hk.
  set (k1 := Zdigits2 (N1 / D)) in *. set (k2 := Zdigits2 (N2 / D)) in *.
  set (sh1 := Z.max (k1 - 53) 0). set (sh2 := Z.max (k2 - 53) 0).
  assert (Hsh : 0 <= sh1 <= sh2) by lia.
  assert (P1 : 0 < 2 ^ sh1) by (apply Z.pow_pos_nonneg; lia).
  assert (P2 : 0 < 2 ^ sh2) by (apply Z.pow_pos_nonneg; lia).
  destruct (Z.eq_dec sh1 sh2) as [Heq | Hne].
  - rewrite <- Heq. apply Z.mul_le_mono_nonneg_r; [lia|].
    apply rne_mono; [nia | lia].
  - assert (Hk2 : sh2 = k2 - 53) by lia.
    (* upper bound on the smaller value *)
    assert (U : rne N1 (D * 2 ^ sh1) <= 2 ^ 53).
    { apply rne_le_mul; [nia|].
      pose proof (Zdigits2_lt_pow (N1 / D) Hq1) as Hlt. fold k1 in Hlt.
      assert (N1 < 2 ^ k1 * D).
      { pose proof (Z.mul_succ_div_gt N1 D HD). nia. }
      assert (2 ^ k1 <= 2 ^ (53 + sh1)) by (apply Z.pow_le_mono_r; lia).
      rewrite Z.pow_add_r in * by lia. nia. }
    (* lower bound on the larger value *)
    assert (L : 2 ^ 52 <= rne N2 (D * 2 ^ sh2)).
    { apply rne_ge_mul; [nia|].
      assert (0 < N2 / D).
      { destruct (Z.eq_dec (N2 / D) 0) as [E|]; [|lia]. unfold k2 in Hk2. rewrite E in Hk2. cbn in Hk2. lia. }
      pose proof (Zdigits2_bounds (N2 / D) ltac:(lia)) as [Hlo _]. fold k2 in Hlo.
      replace (k2 - 1) with (52 + sh2) in Hlo by lia.
      rewrite Z.pow_add_r in Hlo by lia.
      assert (2 ^ 52 * 2 ^ sh2 * D <= N2).
      { pose proof (Z.mul_div_le N2 D HD). nia. }
      lia. }
    assert (2 ^ 53 * 2 ^ sh1 <= 2 ^ 52 * 2 ^ sh2).
    { rewrite <- !Z.pow_add_r by lia. apply Z.pow_le_mono_r; lia. }
    assert (rne N1 (D * 2 ^ sh1) * 2 ^ sh1 <= 2 ^ 53 * 2 ^ sh1) by (apply Z.mul_le_mono_nonneg_r; lia).
    assert (2 ^ 52 * 2 ^ sh2 <= rne N2 (D * 2 ^ sh2) * 2 ^ sh2) by (apply Z.mul_le_mono_nonneg_r; lia).
    lia.
Qed.

Lemma round_int_raw N D : round_int N D = Z.min (round_raw N D) BIG.
Proof. reflexivity. Qed.

Lemma round_int_mono N1 N2 D :
  0 < D -> 0 <= N1 <= N2 -> round_int N1 D <= round_int N2 D.
Proof.
  intros HD HN. rewrite !round_int_raw.
  pose proof (round_raw_mono N1 N2 D HD HN). lia.
Qed.

Lemma round_raw_nonneg N D : 0 < D -> 0 <= N -> 0 <= round_raw N D.
Proof.
  intros HD HN. unfold round_raw.
  set (sh := Z.max _ 0).
  assert (0 < 2 ^ sh) by (apply Z.pow_pos_nonneg; lia).
  assert (0 <= N / (D * 2 ^ sh)) by (apply Z.div_pos; nia).
  pose proof (rne_bounds N (D * 2 ^ sh)). nia.
Qed.

Lemma round_int_nonneg N D : 0 < D -> 0 <= N -> 0 <= round_int N D.
Proof.
  intros HD HN. rewrite round_int_raw. pose proof (round_raw_nonneg N D HD HN).
  unfold BIG. lia.
Qed.

(** ** The shift records of [SpecFloat] compute quotient and location *)

Lemma repr_of_loc N D : repr (shr_record_of_loc (N / D) (loc_of (N mod D) D)) N D.
Proof.
  unfold repr, loc_of.
  destruct (N mod D =? 0); [split; reflexivity|].
  destruct (2 * (N mod D) ?= D); split; reflexivity.
Qed.

Lemma shr_1_m mrs : 0 <= shr_m mrs -> shr_m (shr_1 mrs) = shr_m mrs / 2.
Proof.
  destruct mrs as [m r s]. cbn [shr_m]. intros Hm.
  destruct m as [| p | p]; [reflexivity | | lia].
  destruct p as [p | p |]; cbn [shr_1 shr_m].
  - rewrite Pos2Z.inj_xI. rewrite Z.mul_comm, Z.div_add_l by lia.
    change (1 / 2) with 0. lia.
  - rewrite Pos2Z.inj_xO. rewrite Z.mul_comm, Z.div_mul by lia. reflexivity.
  - reflexivity.
Qed.

Lemma shr_1_repr mrs N D :
  0 <= N -> 0 < D -> repr mrs N D -> repr (shr_1 mrs) N (D * 2).
Proof.
  intros HN HD [Hm Hl].
  assert (Hq : 0 <= N / D) by (apply Z.div_pos; lia).
  pose proof (Z.mod_pos_bound N D HD) as HR.
  assert (Hdiv : N / (D * 2) = N / D / 2) by (rewrite Z.div_div by lia; reflexivity).
  assert (Hmod : N mod (D * 2) = N mod D + D * ((N / D) mod 2)).
  { apply Z.rem_mul_r; lia. }
  split.
  - rewrite shr_1_m by lia. rewrite Hm. symmetry. exact Hdiv.
  - rewrite Hmod. pose proof (Z.mod_pos_bound (N / D) 2 ltac:(lia)) as Hb.
    destruct mrs as [m r s]. cbn [shr_m] in Hm. subst m.
    unfold loc_of in *. cbn [loc_of_shr_record] in Hl.
    assert (Hpar : (N / D) mod 2 = 0 \/ (N / D) mod 2 = 1) by lia.
    destruct (N / D) as [| p | p] eqn:EqND; [| | lia].
    + cbn [shr_1 loc_of_shr_record]. change (0 mod 2) with 0. rewrite Z.mul_0_r, Z.add_0_r.
      destruct (Z.eqb_spec (N mod D) 0) as [E | E].
      * destruct r, s; try discriminate. reflexivity.
      * assert ((2 * (N mod D) ?= D * 2) = Lt) as -> by (apply Z.compare_lt_iff; lia).
        destruct r, s; try discriminate; reflexivity.
    + destruct p as [p | p |].
      * (* odd *)
        assert ((Z.pos p~1) mod 2 = 1) as ->.
        { rewrite Pos2Z.inj_xI. rewrite Z.add_comm, Z.mul_comm, Z.mod_add by lia. reflexivity. }
        rewrite Z.mul_1_r. cbn [shr_1 loc_of_shr_record].
        destruct (Z.eqb_spec (N mod D + D) 0) as [E0' | _]; [lia|].
        destruct (Z.eqb_spec (N mod D) 0) as [E | E].
        -- assert ((2 * (N mod D + D) ?= D * 2) = Eq) as -> by (apply Z.compare_eq_iff; lia).
           destruct r, s; try discriminate. reflexivity.
        -- assert ((2 * (N mod D + D) ?= D * 2) = Gt) as -> by (apply Z.compare_gt_iff; lia).
           destruct r, s; try discriminate; reflexivity.
      * (* even *)
        assert ((Z.pos p~0) mod 2 = 0) as ->.
        { rewrite Pos2Z.inj_xO. rewrite Z.mul_comm, Z.mod_mul by lia. reflexivity. }
        rewrite Z.mul_0_r, Z.add_0_r. cbn [shr_1 loc_of_shr_record].
        destruct (Z.eqb_spec (N mod D) 0) as [E | E].
        -- destruct r, s; try discriminate. reflexivity.
        -- assert ((2 * (N mod D) ?= D * 2) = Lt) as -> by (apply Z.compare_lt_iff; lia).
           destruct r, s; try discriminate; reflexivity.
      * change (1 mod 2) with 1. rewrite Z.mul_1_r. cbn [shr_1 loc_of_shr_record].
        destruct (Z.eqb_spec (N mod D + D) 0) as [E0' | _]; [lia|].
        destruct (Z.eqb_spec (N mod D) 0) as [E | E].
        -- assert ((2 * (N mod D + D) ?= D * 2) = Eq) as -> by (apply Z.compare_eq_iff; lia).
           destruct r, s; try discriminate. reflexivity.
        -- assert ((2 * (N mod D + D) ?= D * 2) = Gt) as -> by (apply Z.compare_gt_iff; lia).
           destruct r, s; try discriminate; reflexivity.
Qed.

Lemma iter_pos_shr_1_repr p : forall mrs N D,
  0 <= N -> 0 < D -> repr mrs N D ->
  repr (SpecFloat.iter_pos shr_1 p mrs) N (D * 2 ^ Z.pos p).
Proof.
  induction p as [p IH | p IH |]; intros mrs N D HN HD H; cbn [SpecFloat.iter_pos].
  - change (Z.pos p~1) with (2 * Z.pos p + 1).
    replace (D * 2 ^ (2 * Z.pos p + 1)) with (D * 2 * 2 ^ Z.pos p * 2 ^ Z.pos p).
    2:{ rewrite Z.pow_add_r by lia. replace (2 * Z.pos p) with (Z.pos p + Z.pos p) by lia.
        rewrite Z.pow_add_r by lia. change (2 ^ 1) with 2. ring. }
    assert (0 < 2 ^ Z.pos p) by (apply Z.pow_pos_nonneg; lia).
    apply IH; [lia | nia |]. apply IH; [lia | lia |]. now apply shr_1_repr.
  - change (Z.pos p~0) with (2 * Z.pos p).
    replace (D * 2 ^ (2 * Z.pos p)) with (D * 2 ^ Z.pos p * 2 ^ Z.pos p).
    2:{ replace (2 * Z.pos p) with (Z.pos p + Z.pos p) by lia.
        rewrite Z.pow_add_r by lia. ring. }
    assert (0 < 2 ^ Z.pos p) by (apply Z.pow_pos_nonneg; lia).
    apply IH; [lia | nia |]. apply IH; [lia | lia |]. assumption.
  - change (2 ^ 1) with 2. now apply shr_1_repr.
Qed.

Lemma shr_repr mrs e n N D :
  0 <= N -> 0 < D -> 0 <= n -> repr mrs N D ->
  exists mrs', shr mrs e n = (mrs', e + n) /\ repr mrs' N (D * 2 ^ n).
Proof.
  intros HN HD Hn H. destruct n as [| p | p]; [| | lia].
  - exists mrs. cbn [shr]. rewrite Z.add_0_r, Z.mul_1_r. split; [reflexivity | assumption].
  - exists (SpecFloat.iter_pos shr_1 p mrs). split; [reflexivity|]. now apply iter_pos_shr_1_repr.
Qed.

Lemma shr_nonpos mrs e n : n <= 0 -> shr mrs e n = (mrs, e).
Proof. destruct n; [reflexivity | lia | reflexivity]. Qed.

Lemma rne_of_repr mrs N D :
  repr mrs N D -> round_nearest_even (shr_m mrs) (loc_of_shr_record mrs) = rne N D.
Proof. intros [-> ->]. reflexivity. Qed.

(** ** [binary_round_aux] is the integer rounding *)

Lemma fexp_eq x : fexp prec emax x = Z.max (x - 53) E0.
Proof. reflexivity. Qed.

Lemma Zdigits2_scale N D j :
  0 < D -> 0 <= j -> 0 < N / D -> Zdigits2 (N * 2 ^ j / D) = Zdigits2 (N / D) + j.
Proof.
  intros HD Hj Hq.
  pose proof (Zdigits2_bounds (N / D) Hq) as [Hlo Hhi].
  set (d := Zdigits2 (N / D)) in *.
  assert (Hd : 0 < d).
  { destruct (Z.lt_ge_cases 0 d); [assumption|].
    assert (2 ^ d <= 2 ^ 0) by (destruct (Z.eq_dec d 0) as [->|]; [lia|]; rewrite Z.pow_neg_r by lia; lia).
    change (2 ^ 0) with 1 in *. lia. }
  assert (Pj : 0 < 2 ^ j) by (apply Z.pow_pos_nonneg; lia).
  assert (L : 2 ^ (d - 1) * D <= N) by (pose proof (Z.mul_div_le N D HD); nia).
  assert (U : N < 2 ^ d * D) by (pose proof (Z.mul_succ_div_gt N D HD); nia).
  assert (L' : 2 ^ (d + j - 1) <= N * 2 ^ j / D).
  { apply Z.div_le_lower_bound; [lia|].
    replace (d + j - 1) with ((d - 1) + j) by lia. rewrite Z.pow_add_r by lia. nia. }
  assert (U' : N * 2 ^ j / D < 2 ^ (d + j)).
  { apply Z.div_lt_upper_bound; [lia|]. rewrite Z.pow_add_r by lia. nia. }
  apply Zdigits2_unique; [split; assumption|].
  assert (0 < 2 ^ (d + j - 1)) by (apply Z.pow_pos_nonneg; lia). lia.
Qed.

Lemma round_raw_scale N D j :
  0 <= N -> 0 < D -> 0 <= j -> (N / D = 0 -> j = 0) ->
  j <= Z.max (Zdigits2 (N / D) + j - 53) 0 ->
  round_raw (N * 2 ^ j) D =
  rne N (D * 2 ^ (Z.max (Zdigits2 (N / D) + j - 53) 0 - j))
  * 2 ^ Z.max (Zdigits2 (N / D) + j - 53) 0.
Proof.
  intros HN HD Hj H0 Hle. unfold round_raw.
  assert (Hdig : Zdigits2 (N * 2 ^ j / D) = Zdigits2 (N / D) + j).
  { destruct (Z.eq_dec (N / D) 0) as [E | E].
    - rewrite (H0 E). change (2 ^ 0) with 1. rewrite Z.mul_1_r. lia.
    - apply Zdigits2_scale; try assumption.
      assert (0 <= N / D) by (apply Z.div_pos; lia). lia. }
  rewrite Hdig. set (sh := Z.max _ 0) in *.
  f_equal.
  replace (D * 2 ^ sh) with (D * 2 ^ (sh - j) * 2 ^ j).
  2:{ rewrite <- Z.mul_assoc, <- Z.pow_add_r by lia. do 2 f_equal. lia. }
  apply rne_scale.
  - apply Z.mul_pos_pos; [assumption|]. apply Z.pow_pos_nonneg; lia.
  - apply Z.pow_pos_nonneg; lia.
Qed.

Theorem binary_round_aux_val s N D e :
  0 <= N -> 0 < D -> E0 <= e ->
  e <= fexp prec emax (Zdigits2 (N / D) + e) ->
  SFis_nan (binary_round_aux prec emax s (N / D) e (loc_of (N mod D) D)) = false /\
  SFval (binary_round_aux prec emax s (N / D) e (loc_of (N mod D) D))
  = cond_Zopp s (round_int (N * 2 ^ (e - E0)) D).
Proof.
  intros HN HD He Hfe.
  assert (Hq : 0 <= N / D) by (apply Z.div_pos; lia).
  pose proof (Zdigits2_nonneg (N / D)) as Hd0.
  rewrite fexp_eq in Hfe.
  assert (Hzero : N / D = 0 -> e - E0 = 0).
  { intros E. rewrite E in Hfe. cbn in Hfe. lia. }
  (* the rounded value, from the integer side *)
  rewrite round_int_raw.
  rewrite round_raw_scale; try assumption; try lia.
  set (d := Zdigits2 (N / D)) in *.
  replace (Z.max (d + (e - E0) - 53) 0) with (Z.max (d + e - 53) E0 - E0) by lia.
  set (e' := Z.max (d + e - 53) E0) in *.
  replace (e' - E0 - (e - E0)) with (e' - e) by lia.
  (* first shift *)
  unfold binary_round_aux, shr_fexp. fold d. rewrite fexp_eq. fold e'.
  destruct (shr_repr (shr_record_of_loc (N / D) (loc_of (N mod D) D)) e (e' - e) N D)
    as (mrs' & Hshr & Hrepr); try assumption; try lia.
  { apply repr_of_loc. }
  rewrite Hshr. replace (e + (e' - e)) with e' by lia.
  rewrite (rne_of_repr _ _ _ Hrepr).
  set (n := e' - e) in *.
  assert (Pn : 0 < 2 ^ n) by (apply Z.pow_pos_nonneg; lia).
  set (mant := rne N (D * 2 ^ n)).
  assert (Hm0 : 0 <= mant).
  { assert (0 <= N / (D * 2 ^ n)) by (apply Z.div_pos; nia).
    pose proof (rne_bounds N (D * 2 ^ n)). fold mant in H0. lia. }
  assert (Hm53 : mant <= 2 ^ 53).
  { apply rne_le_mul; [nia|].
    pose proof (Zdigits2_lt_pow (N / D) Hq) as Hlt. fold d in Hlt.
    assert (N < 2 ^ d * D) by (pose proof (Z.mul_succ_div_gt N D HD); nia).
    assert (2 ^ d <= 2 ^ (53 + n)) by (apply Z.pow_le_mono_r; lia).
    rewrite Z.pow_add_r in * by lia. nia. }
  assert (Hm52 : E0 < e' -> 2 ^ 52 <= mant).
  { intros Hgt. apply rne_ge_mul; [nia|].
    assert (0 < N / D).
    { destruct (Z.eq_dec (N / D) 0) as [E|]; [|lia]. specialize (Hzero E).
      assert (d = 0) by (unfold d; rewrite E; reflexivity).
      unfold e' in Hgt. lia. }
    pose proof (Zdigits2_bounds (N / D) ltac:(lia)) as [Hlo _]. fold d in Hlo.
    replace (d - 1) with (52 + n) in Hlo by (unfold n, e' in *; lia).
    rewrite Z.pow_add_r in Hlo by lia.
    pose proof (Z.mul_div_le N D HD). nia. }
  assert (Pe : 0 < 2 ^ (e' - E0)) by (apply Z.pow_pos_nonneg; lia).
  destruct (Z.eq_dec mant (2 ^ 53)) as [E53 | N53].
  - (* the mantissa overflowed to 2^53: one more shift *)
    rewrite E53. change (Zdigits2 (2 ^ 53)) with 54. rewrite fexp_eq.
    replace (Z.max (54 + e' - 53) E0 - e') with 1 by lia.
    cbn [shr shr_record_of_loc SpecFloat.iter_pos].
    change (shr_m (shr_1 {| shr_m := 2 ^ 53; shr_r := false; shr_s := false |})) with (2 ^ 52).
    change (2 ^ 52) with (Z.pos (2 ^ 52)%positive) at 1 2.
    cbv iota beta.
    destruct (Z.leb_spec (e' + 1) (emax - prec)) as [Hfin | Hinf].
    + cbn [SFis_nan SFval]. split; [reflexivity|]. f_equal.
      change (Z.pos (2 ^ 52)%positive) with (2 ^ 52).
      replace (e' + 1 - E0) with (1 + (e' - E0)) by lia.
      rewrite Z.pow_add_r by lia. change (2 ^ 1) with 2.
      change (2 ^ 53) with (2 * 2 ^ 52).
      assert (2 * 2 ^ 52 * 2 ^ (e' - E0) < BIG).
      { unfold BIG. change (2 * 2 ^ 52) with (2 ^ 53).
        rewrite <- Z.pow_add_r by lia. apply Z.pow_lt_mono_r; [lia | lia |].
        unfold emax, prec, E0 in *. lia. }
      lia.
    + cbn [SFis_nan SFval]. split; [reflexivity|]. f_equal.
      assert (BIG <= 2 ^ 53 * 2 ^ (e' - E0)).
      { unfold BIG. rewrite <- Z.pow_add_r by lia. apply Z.pow_le_mono_r; [lia|].
        unfold emax, prec, E0 in *. lia. }
      lia.
  - (* no further shift *)
    assert (Hdm : Zdigits2 mant <= 53).
    { destruct (Z.eq_dec mant 0) as [-> | Hne]; [cbn; lia|].
      pose proof (Zdigits2_bounds mant ltac:(lia)) as [Hlo _].
      destruct (Z.le_gt_cases (Zdigits2 mant) 53); [assumption|].
      assert (2 ^ 53 <= 2 ^ (Zdigits2 mant - 1)) by (apply Z.pow_le_mono_r; lia). lia. }
    rewrite fexp_eq. rewrite shr_nonpos by lia.
    replace (shr_m (shr_record_of_loc mant loc_Exact)) with mant by reflexivity.
    destruct mant as [| pm | pm] eqn:Emant; [| | lia].
    + cbn [SFis_nan SFval]. split; [reflexivity|]. destruct s; cbn [cond_Zopp]; unfold BIG; lia.
    + destruct (Z.leb_spec e' (emax - prec)) as [Hfin | Hinf].
      * cbn [SFis_nan SFval]. split; [reflexivity|]. f_equal.
        assert (Z.pos pm * 2 ^ (e' - E0) < BIG).
        { unfold BIG. replace 2098 with (53 + 2045) by lia. rewrite Z.pow_add_r by lia.
          assert (2 ^ (e' - E0) <= 2 ^ 2045).
          { apply Z.pow_le_mono_r; [lia|]. unfold emax, prec, E0 in *. lia. }
          nia. }
        lia.
      * cbn [SFis_nan SFval]. split; [reflexivity|]. f_equal.
        assert (BIG <= Z.pos pm * 2 ^ (e' - E0)).
        { unfold BIG. replace 2098 with (52 + 2046) by lia. rewrite Z.pow_add_r by lia.
          assert (2 ^ 2046 <= 2 ^ (e' - E0)).
          { apply Z.pow_le_mono_r; [lia|]. unfold emax, prec, E0 in *. lia. }
          assert (2 ^ 52 <= Z.pos pm) by (apply Hm52; unfold emax, prec, E0 in *; lia).
          assert (0 < 2 ^ 2046) by lia.
          nia. }
        lia.
Qed.

(** ** Sign-symmetric rounding *)

Lemma round_int_le_BIG N D : round_int N D <= BIG.
Proof. rewrite round_int_raw. lia. Qed.

Lemma round_int_0 D : 0 < D -> round_int 0 D = 0.
Proof.
  intros HD. rewrite round_int_raw. unfold round_raw.
  rewrite Z.div_0_l by lia. cbn [Zdigits2]. change (Z.max (0 - 53) 0) with 0.
  rewrite rne_exact by (apply Z.mod_0_l; lia).
  rewrite Z.div_0_l by lia. unfold BIG. lia.
Qed.

Lemma round_Z_neg J : J < 0 -> round_Z J = - round_int (- J) 1.
Proof.
  intros H. unfold round_Z. rewrite Z.sgn_neg by assumption.
  rewrite Z.abs_neq by lia. lia.
Qed.

Lemma round_Z_nonneg J : 0 <= J -> round_Z J = round_int J 1.
Proof.
  intros H. unfold round_Z. destruct (Z.eq_dec J 0) as [-> | Hne].
  - change (Z.sgn 0) with 0. change (Z.abs 0) with 0. rewrite round_int_0; lia.
  - rewrite Z.sgn_pos by lia. rewrite Z.abs_eq by lia. lia.
Qed.

Lemma round_Z_mono a b : a <= b -> round_Z a <= round_Z b.
Proof.
  intros Hab.
  destruct (Z.lt_ge_cases a 0) as [Ha | Ha], (Z.lt_ge_cases b 0) as [Hb | Hb];
    rewrite ?(round_Z_neg a), ?(round_Z_neg b), ?(round_Z_nonneg a), ?(round_Z_nonneg b) by assumption.
  - pose proof (round_int_mono (- b) (- a) 1 ltac:(lia) ltac:(lia)). lia.
  - pose proof (round_int_nonneg (- a) 1 ltac:(lia) ltac:(lia)).
    pose proof (round_int_nonneg b 1 ltac:(lia) ltac:(lia)). lia.
  - lia.
  - apply round_int_mono; lia.
Qed.

Lemma round_Z_bounds J : - BIG <= round_Z J <= BIG.
Proof.
  unfold round_Z.
  pose proof (round_int_nonneg (Z.abs J) 1 ltac:(lia) ltac:(lia)).
  pose proof (round_int_le_BIG (Z.abs J) 1).
  destruct (Z.lt_trichotomy J 0) as [Ha | [-> | Ha]].
  - rewrite Z.sgn_neg by assumption. lia.
  - cbn. unfold BIG. lia.
  - rewrite Z.sgn_pos by assumption. lia.
Qed.

Lemma round_Z_sign J : 0 <= J -> 0 <= round_Z J.
Proof.
  intros HJ. unfold round_Z.
  pose proof (round_int_nonneg (Z.abs J) 1 ltac:(lia) ltac:(lia)).
  destruct (Z.eq_dec J 0) as [-> | Hne]; [cbn; lia|].
  rewrite Z.sgn_pos by lia. lia.
Qed.

(** Representable values are fixed points of the rounding. *)
Lemma round_int_mag m e :
  bounded prec emax m e = true -> round_int (mag m e) 1 = mag m e.
Proof.
  intros Hb. pose proof (mag_lt_BIG m e Hb) as HB.
  pose proof (bounded_inv m e Hb) as (He & _ & _).
  unfold bounded, canonical_mantissa in Hb. apply andb_true_iff in Hb as [Hc _].
  apply Z.eqb_eq in Hc. rewrite fexp_eq in Hc.
  rewrite round_int_raw. unfold mag in *.
  rewrite round_raw_scale; rewrite ?Z.div_1_r; cbn [Zdigits2]; try lia.
  replace (Z.max (Z.pos (digits2_pos m) + (e - E0) - 53) 0) with (e - E0) by lia.
  rewrite Z.sub_diag. change (1 * 2 ^ 0) with 1.
  rewrite rne_exact by apply Z.mod_1_r. rewrite Z.div_1_r. lia.
Qed.

Lemma cond_Zopp_sgn s x : 0 < x -> Z.sgn (cond_Zopp s x) = cond_Zopp s 1.
Proof. destruct s; cbn; intros; [apply Z.sgn_neg | apply Z.sgn_pos]; lia. Qed.

Lemma cond_Zopp_abs s x : 0 <= x -> Z.abs (cond_Zopp s x) = x.
Proof. destruct s; cbn; lia. Qed.

Lemma round_Z_cond_Zopp s x : 0 <= x -> round_Z (cond_Zopp s x) = cond_Zopp s (round_int x 1).
Proof.
  intros Hx. unfold round_Z. rewrite cond_Zopp_abs by assumption.
  destruct (Z.eq_dec x 0) as [-> | Hne].
  - destruct s; reflexivity.
  - rewrite cond_Zopp_sgn by lia. destruct s; cbn [cond_Zopp]; lia.
Qed.

Lemma round_Z_SFval x :
  valid_binary x = true -> SFis_nan x = false ->
  (forall s, x <> S754_infinity s) -> round_Z (SFval x) = SFval x.
Proof.
  intros V Nn Ni. destruct x as [s | s | | s m e]; try reflexivity.
  - exfalso. now apply (Ni s).
  - cbn [SFval valid_binary] in *. fold (mag m e).
    pose proof (mag_lt_BIG m e V).
    rewrite round_Z_cond_Zopp by lia. now rewrite round_int_mag.
Qed.

(** Exact inputs of the rounding. *)
(** ** Rounding of exact inputs: [binary_round], [binary_normalize] *)

Lemma binary_round_aux_exact s m e :
  0 <= m -> E0 <= e -> e <= fexp prec emax (Zdigits2 m + e) ->
  SFis_nan (binary_round_aux prec emax s m e loc_Exact) = false /\
  SFval (binary_round_aux prec emax s m e loc_Exact)
  = cond_Zopp s (round_int (m * 2 ^ (e - E0)) 1).
Proof.
  intros Hm He Hf.
  pose proof (binary_round_aux_val s m 1 e Hm ltac:(lia) He) as T.
  rewrite Z.div_1_r, Z.mod_1_r in T. exact (T Hf).
Qed.

Lemma pos_iter_xO m d : Z.pos (Pos.iter xO m d) = Z.pos m * 2 ^ Z.pos d.
Proof.
  induction d as [| d IH] using Pos.peano_ind.
  - cbn. lia.
  - rewrite Pos.iter_succ. rewrite Pos2Z.inj_xO, IH, Pos2Z.inj_succ.
    rewrite Z.pow_succ_r by lia. ring.
Qed.

Lemma digits2_pos_iter_xO m d :
  Z.pos (digits2_pos (Pos.iter xO m d)) = Z.pos (digits2_pos m) + Z.pos d.
Proof.
  induction d as [| d IH] using Pos.peano_ind.
  - cbn. lia.
  - rewrite Pos.iter_succ. cbn [digits2_pos]. rewrite !Pos2Z.inj_succ, IH. lia.
Qed.

Lemma shl_align_spec m e e' :
  let '(m', e'') := shl_align m e e' in
  e'' = Z.min e e' /\ Z.pos m' = Z.pos m * 2 ^ (e - e'') /\
  Z.pos (digits2_pos m') = Z.pos (digits2_pos m) + (e - e'').
Proof.
  unfold shl_align. destruct (e' - e) as [| d | d] eqn:Hd.
  - replace (Z.min e e') with e by lia. rewrite Z.sub_diag. cbn. lia.
  - replace (Z.min e e') with e by lia. rewrite Z.sub_diag. cbn. lia.
  - replace (Z.min e e') with e' by lia. replace (e - e') with (Z.pos d) by lia.
    split; [reflexivity|]. split; [apply pos_iter_xO | apply digits2_pos_iter_xO].
Qed.

Lemma binary_round_val s m e :
  E0 <= e ->
  SFis_nan (binary_round prec emax s m e) = false /\
  SFval (binary_round prec emax s m e) = cond_Zopp s (round_int (mag m e) 1).
Proof.
  intros He. unfold binary_round.
  pose proof (shl_align_spec m e (fexp prec emax (Z.pos (digits2_pos m) + e))) as S.
  destruct (shl_align m e _) as [mz ez]. destruct S as (Hez & Hmz & Hdz).
  rewrite fexp_eq in Hez.
  pose proof (binary_round_aux_exact s (Z.pos mz) ez ltac:(lia) ltac:(lia)) as T.
  cbn [Zdigits2] in T. rewrite fexp_eq in T. specialize (T ltac:(lia)).
  destruct T as [T1 T2]. split; [assumption|]. rewrite T2. do 2 f_equal.
  unfold mag. rewrite Hmz, <- Z.mul_assoc, <- Z.pow_add_r by lia. do 2 f_equal. lia.
Qed.

Lemma binary_normalize_val M e :
  E0 <= e ->
  SFis_nan (binary_normalize prec emax M e false) = false /\
  SFval (binary_normalize prec emax M e false) = round_Z (M * 2 ^ (e - E0)).
Proof.
  intros He.
  assert (P : 0 < 2 ^ (e - E0)) by (apply Z.pow_pos_nonneg; lia).
  destruct M as [| m | m]; cbn [binary_normalize].
  - split; reflexivity.
  - destruct (binary_round_val false m e He) as [T1 T2]. split; [assumption|].
    rewrite T2. change (Z.pos m * 2 ^ (e - E0)) with (cond_Zopp false (mag m e)).
    rewrite round_Z_cond_Zopp; [reflexivity | unfold mag; lia].
  - destruct (binary_round_val true m e He) as [T1 T2]. split; [assumption|].
    rewrite T2. replace (Z.neg m * 2 ^ (e - E0)) with (cond_Zopp true (mag m e)).
    2:{ unfold mag. cbn [cond_Zopp]. lia. }
    rewrite round_Z_cond_Zopp; [reflexivity | unfold mag; lia].
Qed.

(** ** Addition, subtraction, negation, absolute value, division *)

Lemma SFval_bounds x : valid_binary x = true -> - BIG <= SFval x <= BIG.
Proof.
  assert (0 < BIG) by (unfold BIG; lia).
  destruct x as [s | s | | s m e]; cbn [SFval valid_binary]; intros V; try lia.
  - destruct s; cbn [cond_Zopp]; lia.
  - pose proof (mag_lt_BIG m e V). fold (mag m e). destruct s; cbn [cond_Zopp]; lia.
Qed.

Lemma SFval_fin_bounds x :
  valid_binary x = true -> SFis_fin x = true -> - BIG < SFval x < BIG.
Proof.
  assert (0 < BIG) by (unfold BIG; lia).
  destruct x as [s | s | | s m e]; cbn [SFval valid_binary]; intros V F; try discriminate; try lia.
  pose proof (mag_lt_BIG m e V). fold (mag m e). destruct s; cbn [cond_Zopp]; lia.
Qed.

Lemma shl_align_fst m e e' :
  e' <= e -> Z.pos (fst (shl_align m e e')) = Z.pos m * 2 ^ (e - e').
Proof.
  intros H. pose proof (shl_align_spec m e e') as S.
  destruct (shl_align m e e') as [m' e'']. destruct S as (He & Hm & _).
  cbn [fst]. rewrite Hm, He. do 2 f_equal. lia.
Qed.

Lemma mag_split m e e' : E0 <= e' <= e -> Z.pos m * 2 ^ (e - e') * 2 ^ (e' - E0) = mag m e.
Proof.
  intros H. unfold mag. rewrite <- Z.mul_assoc, <- Z.pow_add_r by lia. do 2 f_equal. lia.
Qed.

Lemma cond_Zopp_mul s x y : cond_Zopp s x * y = cond_Zopp s (x * y).
Proof. destruct s; cbn; lia. Qed.

Lemma SFadd_finite_val sx mx ex sy my ey :
  bounded prec emax mx ex = true -> bounded prec emax my ey = true ->
  SFis_nan (SFadd prec emax (S754_finite sx mx ex) (S754_finite sy my ey)) = false /\
  SFval (SFadd prec emax (S754_finite sx mx ex) (S754_finite sy my ey))
  = round_Z (cond_Zopp sx (mag mx ex) + cond_Zopp sy (mag my ey)).
Proof.
  intros Bx By.
  pose proof (bounded_inv _ _ Bx) as (Hex & _). pose proof (bounded_inv _ _ By) as (Hey & _).
  cbn [SFadd]. cbv zeta.
  destruct (binary_normalize_val
              (cond_Zopp sx (Z.pos (fst (shl_align mx ex (Z.min ex ey))))
               + cond_Zopp sy (Z.pos (fst (shl_align my ey (Z.min ex ey)))))
              (Z.min ex ey) ltac:(lia)) as [T1 T2].
  split; [exact T1|]. rewrite T2. f_equal.
  rewrite !shl_align_fst by lia.
  rewrite Z.mul_add_distr_r, !cond_Zopp_mul, !mag_split by lia. reflexivity.
Qed.

Lemma SFadd_val x y :
  valid_binary x = true -> valid_binary y = true ->
  SFis_fin x = true -> SFis_fin y = true ->
  SFis_nan (SFadd prec emax x y) = false /\
  SFval (SFadd prec emax x y) = round_Z (SFval x + SFval y).
Proof.
  intros Vx Vy Fx Fy.
  destruct x as [sx | sx | | sx mx ex], y as [sy | sy | | sy my ey]; try discriminate.
  - split; [destruct sx, sy; reflexivity|]. destruct sx, sy; reflexivity.
  - cbn [SFadd]. split; [reflexivity|].
    change (SFval (S754_zero sx)) with 0. rewrite Z.add_0_l. symmetry.
    apply round_Z_SFval; [assumption | reflexivity | discriminate].
  - cbn [SFadd]. split; [reflexivity|].
    change (SFval (S754_zero sy)) with 0. rewrite Z.add_0_r. symmetry.
    apply round_Z_SFval; [assumption | reflexivity | discriminate].
  - now apply SFadd_finite_val.
Qed.

Lemma SFsub_add_opp x y : SFsub prec emax x y = SFadd prec emax x (SFopp y).
Proof.
  destruct x as [sx | sx | | sx mx ex], y as [sy | sy | | sy my ey];
    try reflexivity; destruct sx, sy; reflexivity.
Qed.

Lemma SFval_opp x : SFval (SFopp x) = - SFval x.
Proof. destruct x as [s | s | | s m e]; cbn; try reflexivity; destruct s; cbn; lia. Qed.

Lemma SFval_abs x : SFval (SFabs x) = Z.abs (SFval x).
Proof.
  assert (0 < BIG) by (unfold BIG; lia).
  destruct x as [s | s | | s m e]; cbn [SFabs SFval cond_Zopp]; try reflexivity.
  - destruct s; cbn [cond_Zopp]; lia.
  - assert (0 <= 2 ^ (e - E0)) by (apply Z.pow_nonneg; lia).
    destruct s; cbn [cond_Zopp]; lia.
Qed.

(** Division by a positive constant of magnitude below 2^53. *)
Lemma Zdiv_eucl_eq a b : Z.div_eucl a b = (a / b, a mod b).
Proof. unfold Z.div, Z.modulo. destruct (Z.div_eucl a b). reflexivity. Qed.

Lemma new_location_loc_of D r : 0 < D -> new_location D r = loc_of r D.
Proof.
  intros HD. unfold new_location, loc_of.
  destruct (Z.even D) eqn:Ev.
  - reflexivity.
  - unfold new_location_odd. destruct (r =? 0); [reflexivity|]. f_equal.
    assert (Hodd : Z.odd D = true) by (rewrite <- Z.negb_even, Ev; reflexivity).
    apply Z.odd_spec in Hodd as [j Hj].
    destruct (Z.compare_spec (2 * r + 1) D), (Z.compare_spec (2 * r) D); try reflexivity; lia.
Qed.

Lemma SFdiv_finite_val sx mx ex my ey :
  bounded prec emax mx ex = true -> bounded prec emax my ey = true -> ey <= 0 ->
  SFis_nan (SFdiv prec emax (S754_finite sx mx ex) (S754_finite false my ey)) = false /\
  SFval (SFdiv prec emax (S754_finite sx mx ex) (S754_finite false my ey))
  = cond_Zopp sx (round_int (mag mx ex * 2 ^ (- ey)) (Z.pos my)).
Proof.
  intros Bx By Hey0.
  pose proof (bounded_inv _ _ Bx) as (Hex & _).
  pose proof (digits2_pos_bounds mx) as [Lx Ux].
  pose proof (digits2_pos_bounds my) as [Ly Uy].
  cbn [SFdiv]. unfold SFdiv_core_binary. cbn [Zdigits2]. rewrite fexp_eq.
  set (d1 := Z.pos (digits2_pos mx)) in *. set (d2 := Z.pos (digits2_pos my)) in *.
  set (e' := Z.min (Z.max (d1 + ex - (d2 + ey) - 53) E0) (ex - ey)).
  set (s := ex - ey - e').
  assert (Hs : 0 <= s) by (unfold s, e'; lia).
  assert (He' : E0 <= e') by (unfold e'; lia).
  set (m' := match s with Z.pos _ => Z.shiftl (Z.pos mx) s | 0 => Z.pos mx | Z.neg _ => 0 end).
  assert (Hm' : m' = Z.pos mx * 2 ^ s).
  { unfold m'. destruct s as [| p | p]; [cbn; lia | | lia].
    apply Z.shiftl_mul_pow2. lia. }
  rewrite Zdiv_eucl_eq. rewrite new_location_loc_of by lia.
  rewrite Bool.xorb_false_r.
  assert (Ps : 0 < 2 ^ s) by (apply Z.pow_pos_nonneg; lia).
  destruct (binary_round_aux_val sx m' (Z.pos my) e') as [T1 T2]; try lia.
  { rewrite fexp_eq.
    destruct (Z.le_gt_cases e' E0) as [Hle | Hgt]; [lia|].
    assert (Hk : 53 <= d1 + s - d2) by (unfold s, e' in *; lia).
    assert (Hq : Z.pos my * 2 ^ (d1 + s - d2 - 1) <= m').
    { rewrite Hm'.
      replace (d1 + s - d2 - 1) with ((d1 - 1) + s - d2) by lia.
      assert (0 < d2) by (unfold d2; lia).
      assert (Z.pos my * 2 ^ (d1 - 1 + s - d2) <= 2 ^ d2 * 2 ^ (d1 - 1 + s - d2)).
      { apply Z.mul_le_mono_nonneg_r; [apply Z.pow_nonneg; lia | lia]. }
      rewrite <- Z.pow_add_r in H0 by lia.
      replace (d2 + (d1 - 1 + s - d2)) with ((d1 - 1) + s) in H0 by lia.
      rewrite Z.pow_add_r in H0 by (unfold d1; lia). nia. }
    assert (Hq' : 2 ^ (d1 + s - d2 - 1) <= m' / Z.pos my).
    { apply Z.div_le_lower_bound; lia. }
    assert (0 <= m' / Z.pos my) by (apply Z.div_pos; lia).
    pose proof (Zdigits2_lt_pow (m' / Z.pos my) ltac:(lia)) as Hlt.
    assert (d1 + s - d2 - 1 < Zdigits2 (m' / Z.pos my)).
    { destruct (Z.lt_ge_cases (d1 + s - d2 - 1) (Zdigits2 (m' / Z.pos my))); [assumption|].
      pose proof (Zdigits2_nonneg (m' / Z.pos my)).
      assert (2 ^ Zdigits2 (m' / Z.pos my) <= 2 ^ (d1 + s - d2 - 1)) by (apply Z.pow_le_mono_r; lia).
      lia. }
    unfold s, e' in *. lia. }
  split; [exact T1|]. rewrite T2. do 2 f_equal.
  rewrite Hm'. unfold mag. rewrite <- !Z.mul_assoc, <- !Z.pow_add_r by lia.
  do 2 f_equal. unfold s. lia.
Qed.

(** ** Primitive floats: comparisons are comparisons of values *)

Lemma BIG_pos : 0 < BIG.
Proof. unfold BIG. lia. Qed.

Lemma SFcompare_refl x : SFis_nan x = false -> SFcompare x x = Some Eq.
Proof.
  destruct x as [s | s | | s m e]; try discriminate; intros _; cbn [SFcompare].
  - reflexivity.
  - destruct s; reflexivity.
  - rewrite Z.compare_refl. change (Pos.compare_cont Eq m m) with (m ?= m)%positive.
    rewrite Pos.compare_refl. destruct s; reflexivity.
Qed.

Lemma is_nan_SF x : PrimFloat.is_nan x = SFis_nan (Prim2SF x).
Proof.
  unfold PrimFloat.is_nan. rewrite FloatAxioms.eqb_spec. unfold SFeqb.
  destruct (SFis_nan (Prim2SF x)) eqn:E.
  - destruct (Prim2SF x); try discriminate. reflexivity.
  - rewrite SFcompare_refl by assumption. reflexivity.
Qed.

Lemma compare_val x y :
  PrimFloat.is_nan x = false -> PrimFloat.is_nan y = false ->
  SFcompare (Prim2SF x) (Prim2SF y) = Some (val x ?= val y).
Proof.
  rewrite !is_nan_SF. intros Nx Ny.
  apply SFcompare_val; auto using Prim2SF_valid.
Qed.

Lemma SFcompare_nan_l x y : SFis_nan x = true -> SFcompare x y = None.
Proof. destruct x; try discriminate. reflexivity. Qed.

Lemma SFcompare_nan_r x y : SFis_nan y = true -> SFcompare x y = None.
Proof. destruct y; try discriminate. destruct x; reflexivity. Qed.

Lemma SFcompare_Some x y c :
  SFcompare x y = Some c -> SFis_nan x = false /\ SFis_nan y = false.
Proof.
  intros H. split.
  - destruct (SFis_nan x) eqn:E; [|reflexivity]. rewrite SFcompare_nan_l in H by assumption. discriminate.
  - destruct (SFis_nan y) eqn:E; [|reflexivity]. rewrite SFcompare_nan_r in H by assumption. discriminate.
Qed.

Lemma leb_val x y :
  PrimFloat.is_nan x = false -> PrimFloat.is_nan y = false ->
  PrimFloat.leb x y = (val x <=? val y).
Proof.
  intros Nx Ny. rewrite FloatAxioms.leb_spec. unfold SFleb. rewrite compare_val by assumption.
  unfold Z.leb. destruct (val x ?= val y); reflexivity.
Qed.

Lemma ltb_val x y :
  PrimFloat.is_nan x = false -> PrimFloat.is_nan y = false ->
  PrimFloat.ltb x y = (val x <? val y).
Proof.
  intros Nx Ny. rewrite FloatAxioms.ltb_spec. unfold SFltb. rewrite compare_val by assumption.
  unfold Z.ltb. destruct (val x ?= val y); reflexivity.
Qed.

Lemma eqb_val x y :
  PrimFloat.is_nan x = false -> PrimFloat.is_nan y = false ->
  PrimFloat.eqb x y = (val x =? val y).
Proof.
  intros Nx Ny. rewrite FloatAxioms.eqb_spec. unfold SFeqb. rewrite compare_val by assumption.
  destruct (Z.compare_spec (val x) (val y)); symmetry;
    [apply Z.eqb_eq | apply Z.eqb_neq | apply Z.eqb_neq]; lia.
Qed.

Lemma leb_true_not_nan x y :
  PrimFloat.leb x y = true -> PrimFloat.is_nan x = false /\ PrimFloat.is_nan y = false.
Proof.
  rewrite FloatAxioms.leb_spec, !is_nan_SF. unfold SFleb.
  destruct (SFcompare (Prim2SF x) (Prim2SF y)) eqn:E; [|discriminate].
  intros _. eapply SFcompare_Some; eassumption.
Qed.

Lemma ltb_true_not_nan x y :
  PrimFloat.ltb x y = true -> PrimFloat.is_nan x = false /\ PrimFloat.is_nan y = false.
Proof.
  rewrite FloatAxioms.ltb_spec, !is_nan_SF. unfold SFltb.
  destruct (SFcompare (Prim2SF x) (Prim2SF y)) eqn:E; [|discriminate].
  intros _. eapply SFcompare_Some; eassumption.
Qed.

Lemma eqb_true_not_nan x y :
  PrimFloat.eqb x y = true -> PrimFloat.is_nan x = false /\ PrimFloat.is_nan y = false.
Proof.
  rewrite FloatAxioms.eqb_spec, !is_nan_SF. unfold SFeqb.
  destruct (SFcompare (Prim2SF x) (Prim2SF y)) eqn:E; [|discriminate].
  intros _. eapply SFcompare_Some; eassumption.
Qed.

Lemma val_bounds x : - BIG <= val x <= BIG.
Proof. apply SFval_bounds, Prim2SF_valid. Qed.

Lemma val_fin_bounds x : is_fin x = true -> - BIG < val x < BIG.
Proof. apply SFval_fin_bounds, Prim2SF_valid. Qed.

Lemma fin_not_nan x : is_fin x = true -> PrimFloat.is_nan x = false.
Proof. rewrite is_nan_SF. unfold is_fin. destruct (Prim2SF x); try discriminate; reflexivity. Qed.

Lemma fin_abs_val x :
  PrimFloat.is_nan x = false -> is_fin x = negb (Z.abs (val x) =? BIG).
Proof.
  rewrite is_nan_SF. unfold is_fin, val. pose proof BIG_pos.
  pose proof (Prim2SF_valid x) as V.
  destruct (Prim2SF x) as [s | s | | s m e]; try discriminate; intros _; cbn [SFis_fin SFval].
  - symmetry. apply negb_true_iff, Z.eqb_neq. cbn. lia.
  - symmetry. apply negb_false_iff, Z.eqb_eq. destruct s; cbn [cond_Zopp]; lia.
  - symmetry. apply negb_true_iff, Z.eqb_neq. cbn [valid_binary] in V.
    pose proof (mag_lt_BIG m e V). fold (mag m e). destruct s; cbn [cond_Zopp]; lia.
Qed.

Lemma val_opp x : val (- x) = - val x.
Proof. unfold val. rewrite opp_spec. apply SFval_opp. Qed.

Lemma is_nan_opp x : PrimFloat.is_nan (- x) = PrimFloat.is_nan x.
Proof. rewrite !is_nan_SF, opp_spec. destruct (Prim2SF x); reflexivity. Qed.

Lemma val_abs x : val (abs x) = Z.abs (val x).
Proof. unfold val. rewrite abs_spec. apply SFval_abs. Qed.

Lemma is_nan_abs x : PrimFloat.is_nan (abs x) = PrimFloat.is_nan x.
Proof. rewrite !is_nan_SF, abs_spec. destruct (Prim2SF x); reflexivity. Qed.

Lemma is_finite_fin x : PrimFloat.is_finite x = is_fin x.
Proof.
  unfold PrimFloat.is_finite, PrimFloat.is_infinity.
  destruct (PrimFloat.is_nan x) eqn:N.
  - cbn. rewrite is_nan_SF in N. unfold is_fin. destruct (Prim2SF x); try discriminate. reflexivity.
  - cbn [orb]. rewrite eqb_val; [| now rewrite is_nan_abs | reflexivity].
    rewrite val_abs. rewrite fin_abs_val by assumption. reflexivity.
Qed.

Lemma sub_add_opp x y : (x - y)%float = (x + - y)%float.
Proof.
  apply Prim2SF_inj. rewrite sub_spec, add_spec, opp_spec. apply SFsub_add_opp.
Qed.

(** ** Primitive floats: monotonicity of [+], [-] and of [/] by a constant *)

Lemma add_sem_bounds a b :
  - BIG <= a <= BIG -> - BIG <= b <= BIG -> - BIG <= add_sem a b <= BIG.
Proof.
  intros Ha Hb. unfold add_sem.
  destruct (Z.abs a =? BIG); [assumption|].
  destruct (Z.abs b =? BIG); [assumption|]. apply round_Z_bounds.
Qed.

Lemma add_sem_mono a1 a2 b1 b2 :
  - BIG <= a1 -> a1 <= a2 -> a2 <= BIG -> - BIG <= b1 -> b1 <= b2 -> b2 <= BIG ->
  add_sem a1 b1 <= add_sem a2 b2.
Proof.
  intros A1 A12 A2 B1 B12 B2. pose proof BIG_pos.
  pose proof (round_Z_bounds (a1 + b1)). pose proof (round_Z_bounds (a2 + b2)).
  pose proof (round_Z_mono (a1 + b1) (a2 + b2) ltac:(lia)).
  unfold add_sem.
  destruct (Z.eqb_spec (Z.abs a1) BIG), (Z.eqb_spec (Z.abs a2) BIG),
           (Z.eqb_spec (Z.abs b1) BIG), (Z.eqb_spec (Z.abs b2) BIG); lia.
Qed.

Lemma add_sem_inf_l a b : Z.abs a = BIG -> add_sem a b = a.
Proof. intros H. unfold add_sem. now rewrite (proj2 (Z.eqb_eq _ _) H). Qed.

Lemma add_sem_inf_r a b : Z.abs a <> BIG -> Z.abs b = BIG -> add_sem a b = b.
Proof.
  intros Ha Hb. unfold add_sem.
  now rewrite (proj2 (Z.eqb_neq _ _) Ha), (proj2 (Z.eqb_eq _ _) Hb).
Qed.

Lemma add_sem_fin a b : Z.abs a <> BIG -> Z.abs b <> BIG -> add_sem a b = round_Z (a + b).
Proof.
  intros Ha Hb. unfold add_sem.
  now rewrite (proj2 (Z.eqb_neq _ _) Ha), (proj2 (Z.eqb_neq _ _) Hb).
Qed.

Lemma SFval_inf_abs s : Z.abs (SFval (S754_infinity s)) = BIG.
Proof. pose proof BIG_pos. destruct s; cbn [SFval cond_Zopp]; lia. Qed.

Lemma SFval_fin_abs x :
  valid_binary x = true -> SFis_fin x = true -> Z.abs (SFval x) <> BIG.
Proof. intros V F. pose proof (SFval_fin_bounds x V F). lia. Qed.

Lemma SFadd_val_sem x y :
  valid_binary x = true -> valid_binary y = true ->
  SFis_nan (SFadd prec emax x y) = false ->
  SFis_nan x = false /\ SFis_nan y = false /\
  SFval (SFadd prec emax x y) = add_sem (SFval x) (SFval y).
Proof.
  intros Vx Vy.
  destruct x as [sx | sx | | sx mx ex] eqn:Ex, y as [sy | sy | | sy my ey] eqn:Ey;
    try (cbn [SFadd SFis_nan]; discriminate); intros Hn.
  all: try (rewrite add_sem_fin by (apply SFval_fin_abs; auto);
            repeat split; apply SFadd_val; auto; fail).
  all: try (split; [reflexivity|]; split; [reflexivity|]).
  - rewrite add_sem_inf_r by (first [apply SFval_inf_abs | apply SFval_fin_abs; auto]). reflexivity.
  - rewrite add_sem_inf_l by apply SFval_inf_abs. reflexivity.
  - rewrite add_sem_inf_l by apply SFval_inf_abs.
    destruct sx, sy; try reflexivity; discriminate.
  - rewrite add_sem_inf_l by apply SFval_inf_abs. reflexivity.
  - rewrite add_sem_inf_r by (first [apply SFval_inf_abs | apply SFval_fin_abs; auto]). reflexivity.
Qed.

Lemma add_val_sem x y :
  PrimFloat.is_nan (x + y) = false ->
  PrimFloat.is_nan x = false /\ PrimFloat.is_nan y = false /\
  val (x + y) = add_sem (val x) (val y).
Proof.
  rewrite !is_nan_SF. unfold val. rewrite add_spec.
  apply SFadd_val_sem; apply Prim2SF_valid.
Qed.

Lemma add_not_nan x y :
  PrimFloat.is_nan x = false -> PrimFloat.is_nan y = false ->
  is_fin x = true \/ is_fin y = true -> PrimFloat.is_nan (x + y) = false.
Proof.
  rewrite !is_nan_SF. unfold is_fin. rewrite add_spec. unfold SF64add.
  pose proof (Prim2SF_valid x) as Vx. pose proof (Prim2SF_valid y) as Vy.
  destruct (Prim2SF x) as [sx | sx | | sx mx ex], (Prim2SF y) as [sy | sy | | sy my ey];
    try discriminate; intros _ _ [F | F]; try discriminate F;
    try reflexivity; try (apply SFadd_val; auto; fail);
    destruct sx, sy; reflexivity.
Qed.

Lemma add_mono x1 x2 y1 y2 :
  PrimFloat.leb x1 x2 = true -> PrimFloat.leb y1 y2 = true ->
  PrimFloat.is_nan (x1 + y1) = false -> PrimFloat.is_nan (x2 + y2) = false ->
  PrimFloat.leb (x1 + y1) (x2 + y2) = true.
Proof.
  intros Hx Hy N1 N2.
  destruct (leb_true_not_nan _ _ Hx) as [Nx1 Nx2].
  destruct (leb_true_not_nan _ _ Hy) as [Ny1 Ny2].
  rewrite leb_val in Hx, Hy by assumption. apply Z.leb_le in Hx, Hy.
  rewrite leb_val by assumption. apply Z.leb_le.
  destruct (add_val_sem _ _ N1) as (_ & _ & ->).
  destruct (add_val_sem _ _ N2) as (_ & _ & ->).
  pose proof (val_bounds x1). pose proof (val_bounds x2).
  pose proof (val_bounds y1). pose proof (val_bounds y2).
  apply add_sem_mono; lia.
Qed.

Lemma leb_refl x : PrimFloat.is_nan x = false -> PrimFloat.leb x x = true.
Proof. intros N. rewrite leb_val by assumption. apply Z.leb_refl. Qed.

Lemma leb_trans x y z :
  PrimFloat.leb x y = true -> PrimFloat.leb y z = true -> PrimFloat.leb x z = true.
Proof.
  intros H1 H2.
  destruct (leb_true_not_nan _ _ H1) as [Nx Ny]. destruct (leb_true_not_nan _ _ H2) as [_ Nz].
  rewrite leb_val in * by assumption. apply Z.leb_le in H1, H2. apply Z.leb_le. lia.
Qed.

Lemma opp_antimono x y : PrimFloat.leb x y = true -> PrimFloat.leb (- y) (- x) = true.
Proof.
  intros H. destruct (leb_true_not_nan _ _ H) as [Nx Ny].
  rewrite leb_val in H by assumption. apply Z.leb_le in H.
  rewrite leb_val by (rewrite is_nan_opp; assumption). rewrite !val_opp. apply Z.leb_le. lia.
Qed.

Lemma fin_opp x : is_fin (- x) = is_fin x.
Proof. unfold is_fin. rewrite opp_spec. destruct (Prim2SF x); reflexivity. Qed.

Lemma fin_between l x u :
  is_fin l = true -> is_fin u = true ->
  PrimFloat.leb l x = true -> PrimFloat.leb x u = true -> is_fin x = true.
Proof.
  intros Fl Fu H1 H2.
  destruct (leb_true_not_nan _ _ H1) as [Nl Nx]. destruct (leb_true_not_nan _ _ H2) as [_ Nu].
  rewrite leb_val in * by assumption. apply Z.leb_le in H1, H2.
  pose proof (val_fin_bounds l Fl). pose proof (val_fin_bounds u Fu).
  rewrite fin_abs_val by assumption. apply negb_true_iff, Z.eqb_neq. lia.
Qed.

Lemma abs_nonneg x :
  PrimFloat.is_nan x = false -> PrimFloat.leb 0 (abs x) = true.
Proof.
  intros N. rewrite leb_val; [| reflexivity | now rewrite is_nan_abs].
  rewrite val_abs. apply Z.leb_le. change (val 0) with 0. lia.
Qed.

(** Division by a positive constant below 2^53. *)
Lemma div_sem_bounds my ey a : - BIG <= a <= BIG -> - BIG <= div_sem my ey a <= BIG.
Proof.
  intros Ha. unfold div_sem. destruct (Z.abs a =? BIG); [assumption|].
  pose proof (round_int_le_BIG (Z.abs a * 2 ^ (- ey)) (Z.pos my)).
  assert (0 <= 2 ^ (- ey)) by (apply Z.pow_nonneg; lia).
  pose proof (round_int_nonneg (Z.abs a * 2 ^ (- ey)) (Z.pos my) ltac:(lia) ltac:(lia)).
  destruct (Z.lt_trichotomy a 0) as [Hn | [-> | Hp]].
  - rewrite Z.sgn_neg by assumption. lia.
  - cbn [Z.sgn]. pose proof BIG_pos. lia.
  - rewrite Z.sgn_pos by assumption. lia.
Qed.

Lemma div_sem_mono my ey a b :
  ey <= 0 -> - BIG <= a -> a <= b -> b <= BIG -> div_sem my ey a <= div_sem my ey b.
Proof.
  intros Hey Ha Hab Hb. pose proof BIG_pos.
  pose proof (div_sem_bounds my ey a ltac:(lia)). pose proof (div_sem_bounds my ey b ltac:(lia)).
  unfold div_sem in *.
  destruct (Z.eqb_spec (Z.abs a) BIG), (Z.eqb_spec (Z.abs b) BIG); try lia.
  assert (P : 0 < 2 ^ (- ey)) by (apply Z.pow_pos_nonneg; lia).
  pose proof (round_int_nonneg (Z.abs a * 2 ^ (- ey)) (Z.pos my) ltac:(lia) ltac:(nia)).
  pose proof (round_int_nonneg (Z.abs b * 2 ^ (- ey)) (Z.pos my) ltac:(lia) ltac:(nia)).
  destruct (Z.lt_trichotomy a 0) as [Han | [-> | Hap]], (Z.lt_trichotomy b 0) as [Hbn | [-> | Hbp]];
    try lia;
    rewrite ?(Z.sgn_neg a), ?(Z.sgn_neg b), ?(Z.sgn_pos a), ?(Z.sgn_pos b) by assumption;
    cbn [Z.sgn]; try lia.
  - pose proof (round_int_mono (Z.abs b * 2 ^ (- ey)) (Z.abs a * 2 ^ (- ey)) (Z.pos my)
                  ltac:(lia) ltac:(nia)). lia.
  - pose proof (round_int_mono (Z.abs a * 2 ^ (- ey)) (Z.abs b * 2 ^ (- ey)) (Z.pos my)
                  ltac:(lia) ltac:(nia)). lia.
Qed.

Lemma SFdiv_val_sem x my ey :
  valid_binary x = true -> bounded prec emax my ey = true -> ey <= 0 ->
  SFis_nan x = false ->
  SFis_nan (SFdiv prec emax x (S754_finite false my ey)) = false /\
  SFval (SFdiv prec emax x (S754_finite false my ey)) = div_sem my ey (SFval x).
Proof.
  intros Vx By Hey Nx. pose proof BIG_pos. unfold div_sem.
  destruct x as [sx | sx | | sx mx ex]; try discriminate.
  - split; [reflexivity|]. cbn [SFdiv SFval].
    destruct (Z.eqb_spec (Z.abs 0) BIG); [lia|]. reflexivity.
  - split; [reflexivity|]. cbn [SFdiv]. rewrite Bool.xorb_false_r.
    rewrite (proj2 (Z.eqb_eq _ _) (SFval_inf_abs sx)). reflexivity.
  - destruct (SFdiv_finite_val sx mx ex my ey Vx By Hey) as [T1 T2].
    split; [exact T1|]. rewrite T2.
    pose proof (SFval_fin_abs _ Vx eq_refl) as Hne.
    rewrite (proj2 (Z.eqb_neq _ _) Hne). cbn [SFval]. fold (mag mx ex).
    pose proof (mag_lt_BIG mx ex Vx).
    rewrite cond_Zopp_sgn, cond_Zopp_abs by lia.
    destruct sx; cbn [cond_Zopp]; lia.
Qed.

Lemma div_mono x1 x2 y my ey :
  Prim2SF y = S754_finite false my ey -> ey <= 0 ->
  PrimFloat.leb x1 x2 = true -> PrimFloat.leb (x1 / y) (x2 / y) = true.
Proof.
  intros Hy Hey H. destruct (leb_true_not_nan _ _ H) as [N1 N2].
  pose proof (Prim2SF_valid y) as Vy. rewrite Hy in Vy. cbn [valid_binary] in Vy.
  assert (D : forall x, PrimFloat.is_nan x = false ->
              PrimFloat.is_nan (x / y) = false /\ val (x / y) = div_sem my ey (val x)).
  { intros x Nx. rewrite is_nan_SF in *. unfold val. rewrite div_spec, Hy.
    apply SFdiv_val_sem; auto using Prim2SF_valid. }
  destruct (D x1 N1) as [M1 V1]. destruct (D x2 N2) as [M2 V2].
  rewrite leb_val in * by assumption. apply Z.leb_le in H. apply Z.leb_le.
  rewrite V1, V2. pose proof (val_bounds x1). pose proof (val_bounds x2).
  apply div_sem_mono; lia.
Qed.

Lemma divisor_constants :
  Prim2SF 15 = S754_finite false 8444249301319680 (-49) /\
  Prim2SF 5 = S754_finite false 5629499534213120 (-50).
Proof. split; vm_compute; reflexivity. Qed.

Lemma not_nan_leb_ltb t :
  PrimFloat.is_nan t = false -> PrimFloat.leb t 0 = negb (PrimFloat.ltb 0 t).
Proof.
  intros N. rewrite leb_val, ltb_val by (assumption || reflexivity).
  change (val 0) with 0. destruct (Z.leb_spec (val t) 0), (Z.ltb_spec 0 (val t)); try reflexivity; lia.
Qed.

Lemma ltb_leb x y : PrimFloat.ltb x y = true -> PrimFloat.leb x y = true.
Proof.
  intros H. destruct (ltb_true_not_nan _ _ H) as [Nx Ny].
  rewrite ltb_val in H by assumption. rewrite leb_val by assumption.
  apply Z.ltb_lt in H. apply Z.leb_le. lia.
Qed.

Lemma ltb_false_leb x y :
  PrimFloat.is_nan x = false -> PrimFloat.is_nan y = false ->
  PrimFloat.ltb x y = false -> PrimFloat.leb y x = true.
Proof.
  intros Nx Ny H. rewrite ltb_val in H by assumption. rewrite leb_val by assumption.
  apply Z.ltb_ge in H. apply Z.leb_le. lia.
Qed.

Lemma div_not_nan_inv x y : PrimFloat.is_nan (x / y) = false -> PrimFloat.is_nan x = false.
Proof.
  rewrite !is_nan_SF, div_spec. destruct (Prim2SF x); try reflexivity. discriminate.
Qed.

Lemma SFmul_comm x y : SFmul prec emax x y = SFmul prec emax y x.
Proof.
  destruct x as [sx | sx | | sx mx ex], y as [sy | sy | | sy my ey];
    cbn [SFmul]; rewrite ?(Bool.xorb_comm sx sy); try reflexivity.
  rewrite (Pos.mul_comm mx my), (Z.add_comm ex ey). reflexivity.
Qed.

Lemma float_mul_comm x y : (x * y)%float = (y * x)%float.
Proof. apply Prim2SF_inj. rewrite !mul_spec. apply SFmul_comm. Qed.

End B64.

Import B64.

(** * Properties of the engine *)

(** ** Action mask *)

Lemma action_masks_shape self :
  action_masks self
  = replicate (Nat.min (length (_visible_customer_ids self)) 20) true
    ++ replicate (20 - Nat.min (length (_visible_customer_ids self)) 20) false ++ [true].
Proof.
  unfold action_masks, MAX_VISIBLE_CUSTOMERS.
  replace (Z.to_nat (Z.min (Z.of_nat (length (_visible_customer_ids self))) 20))
    with (Nat.min (length (_visible_customer_ids self)) 20) by lia.
  assert (Hn : (Nat.min (length (_visible_customer_ids self)) 20 <= 20)%nat) by lia.
  revert Hn. generalize (Nat.min (length (_visible_customer_ids self)) 20) as n.
  intros n Hn.
  do 21 (destruct n as [| n]; [reflexivity |]). lia.
Qed.

Lemma py_sum_from acc mask :
  foldl (fun acc (b : bool) => acc + (if b then 1 else 0)) acc mask = acc + py_sum mask.
Proof.
  unfold py_sum. revert acc. induction mask as [| b mask IH]; intros acc; cbn [foldl].
  - lia.
  - rewrite IH, (IH (0 + _)). lia.
Qed.

Lemma py_sum_app l k : py_sum (l ++ k) = py_sum l + py_sum k.
Proof. unfold py_sum at 1. rewrite foldl_app. fold (py_sum l). apply py_sum_from. Qed.

Lemma py_sum_replicate n b : py_sum (replicate n b) = if b then Z.of_nat n else 0.
Proof.
  induction n as [| n IH]; [destruct b; reflexivity|].
  change (replicate (S n) b) with ([b] ++ replicate n b).
  rewrite py_sum_app, IH. destruct b; cbn; lia.
Qed.

(** C5. For every state of the visible-slot table, with [n] its populated
    count (its length, which never exceeds the capacity 20 once [_get_obs]
    has run; the code caps it at 20), the action mask has length
    capacity + 1 = 21, is [True] at the indices below [n], [False] at the
    other service-slot indices, [True] at the HOLD index 20, and
    [sum(mask) - 1 = n]. *)
Theorem action_masks_invariant self :
  let n := Nat.min (length (_visible_customer_ids self)) (Z.to_nat MAX_VISIBLE_CUSTOMERS) in
  length (action_masks self) = Z.to_nat (MAX_VISIBLE_CUSTOMERS + 1) /\
  (forall i, (i < n)%nat -> action_masks self !! i = Some true) /\
  (forall i, (n <= i < Z.to_nat MAX_VISIBLE_CUSTOMERS)%nat ->
             action_masks self !! i = Some false) /\
  action_masks self !! Z.to_nat _get_hold_action_number = Some true /\
  py_sum (action_masks self) - 1 = Z.of_nat n /\
  ((length (_visible_customer_ids self) <= Z.to_nat MAX_VISIBLE_CUSTOMERS)%nat ->
   n = length (_visible_customer_ids self)).
Proof.
  change (Z.to_nat MAX_VISIBLE_CUSTOMERS) with 20%nat.
  change (Z.to_nat (MAX_VISIBLE_CUSTOMERS + 1)) with 21%nat.
  change (Z.to_nat _get_hold_action_number) with 20%nat.
  rewrite (action_masks_shape self).
  set (n := Nat.min (length (_visible_customer_ids self)) 20).
  assert (Hn : (n <= 20)%nat) by (unfold n; lia).
  cbv zeta. repeat split.
  - rewrite !length_app, !length_replicate. cbn. lia.
  - intros i Hi. rewrite lookup_app_l by (rewrite length_replicate; lia).
    apply lookup_replicate_2. lia.
  - intros i Hi. rewrite lookup_app_r by (rewrite length_replicate; lia).
    rewrite length_replicate.
    rewrite lookup_app_l by (rewrite length_replicate; lia).
    apply lookup_replicate_2. lia.
  - rewrite lookup_app_r by (rewrite length_replicate; lia).
    rewrite lookup_app_r by (rewrite !length_replicate; lia).
    rewrite !length_replicate. replace (20 - n - (20 - n))%nat with 0%nat by lia. reflexivity.
  - rewrite !py_sum_app, !py_sum_replicate. cbn. lia.
  - unfold n. lia.
Qed.

(** ** Observation encoder *)

Lemma bind_Ok {A B} (a : A) (f : A -> result B) : (Ok a ≫= f) = f a.
Proof. reflexivity. Qed.

Lemma np_array_int32_ok l :
  Forall (fun n => int32_ok n = true) l -> np_array_int32 l = Ok l.
Proof.
  induction 1 as [| n l Hn _ IH]; cbn [np_array_int32]; [reflexivity|].
  rewrite Hn, IH. reflexivity.
Qed.

Lemma length_pad_visible visible :
  (length visible <= 20)%nat -> length (pad_visible visible) = 20%nat.
Proof.
  intros H. unfold pad_visible, MAX_VISIBLE_CUSTOMERS.
  rewrite length_app, length_replicate. lia.
Qed.

(** C6. For a candidate list of any length (with ids in the int32 range of
    the observation), [_get_obs] returns an observation of length exactly 20
    whose first [min(length, 20)] entries are the candidates' ids in order
    and whose other entries are -1, and stores those ids, truncated to the
    capacity, as the visible-slot table; nothing else of the state changes. *)
Theorem _get_obs_encoding self candidates :
  _get_candidate_customers self = Ok candidates ->
  Forall (fun c => int32_ok (Customer.id c) = true)
         (take (Z.to_nat MAX_VISIBLE_CUSTOMERS) candidates) ->
  exists obs self',
    _get_obs self = Ok (obs, self') /\
    length obs = Z.to_nat MAX_VISIBLE_CUSTOMERS /\
    (forall i c, (i < Z.to_nat MAX_VISIBLE_CUSTOMERS)%nat ->
                 candidates !! i = Some c -> obs !! i = Some (Customer.id c)) /\
    (forall i, (length candidates <= i < Z.to_nat MAX_VISIBLE_CUSTOMERS)%nat ->
               obs !! i = Some INVALID_CUSTOMER_ID) /\
    _visible_customer_ids self'
    = Customer.id <$> take (Z.to_nat MAX_VISIBLE_CUSTOMERS) candidates /\
    (length (_visible_customer_ids self') <= Z.to_nat MAX_VISIBLE_CUSTOMERS)%nat /\
    customer_waiting self' = customer_waiting self /\
    appointments self' = appointments self /\
    current_working_server self' = current_working_server self /\
    system_time self' = system_time self.
Proof.
  change (Z.to_nat MAX_VISIBLE_CUSTOMERS) with 20%nat.
  intros Hc Hids. unfold _get_obs. rewrite Hc, bind_Ok.
  change (Z.to_nat MAX_VISIBLE_CUSTOMERS) with 20%nat.
  set (visible := Customer.id <$> take 20 candidates).
  assert (Hlen : (length visible <= 20)%nat).
  { unfold visible. rewrite length_fmap, length_take. lia. }
  assert (Hlen' : length visible = Nat.min 20 (length candidates)).
  { unfold visible. rewrite length_fmap, length_take. reflexivity. }
  rewrite np_array_int32_ok.
  2:{ unfold pad_visible. apply Forall_app. split.
      - unfold visible. apply Forall_fmap. exact Hids.
      - apply Forall_replicate. reflexivity. }
  rewrite bind_Ok.
  exists (pad_visible visible), (set_visible self visible).
  split; [reflexivity|]. split; [now apply length_pad_visible|].
  split; [|split; [|repeat split; assumption]].
  - intros i c Hi Hci. unfold pad_visible. apply lookup_app_l_Some.
    unfold visible. rewrite list_lookup_fmap, lookup_take_lt by lia. now rewrite Hci.
  - intros i Hi. unfold pad_visible, MAX_VISIBLE_CUSTOMERS.
    rewrite lookup_app_r by lia. apply lookup_replicate_2. lia.
Qed.

(** ** Candidate selector and action decoder: the cases of the code *)

Lemma compatible_customers_ok server cs :
  Forall (fun c => is_Some (Server.avg_service_time server !! Customer.task c)) cs ->
  compatible_customers server cs = Ok (List.filter (serves server) cs).
Proof.
  induction 1 as [| c cs [t Ht] _ IH]; [reflexivity|].
  cbn [compatible_customers List.filter]. unfold dict_getitem, serves.
  rewrite Ht, bind_Ok, IH, bind_Ok. reflexivity.
Qed.

Lemma insert_sorted_perm c l : Permutation (insert_sorted c l) (c :: l).
Proof.
  induction l as [| d l IH]; cbn [insert_sorted]; [reflexivity|].
  destruct (key_lt d c); [|reflexivity].
  rewrite IH. apply perm_swap.
Qed.

Lemma sort_by_key_perm l : Permutation (sort_by_key l) l.
Proof.
  induction l as [| c l IH]; cbn [sort_by_key]; [reflexivity|].
  rewrite insert_sorted_perm. now constructor.
Qed.

Lemma dict_get_values {V} (d : list (Z * V)) k v :
  dict_get d k = Some v -> v ∈ dict_values d.
Proof.
  induction d as [| [k' v'] d IH]; cbn [dict_get]; [discriminate|].
  unfold dict_values. cbn [fmap list_fmap]. destruct (Z.eqb k' k).
  - intros [= ->]. apply elem_of_cons. now left.
  - intros H. apply elem_of_cons. right. now apply IH.
Qed.

(** Decoding never indexes outside the visible-slot table. *)
Lemma decode_cases self action :
  (as_integral action = None -> _get_customer_from_action self action = Ok None) /\
  (forall a, as_integral action = Some a ->
     a < 0 \/ MAX_VISIBLE_CUSTOMERS <= a \/ Z.of_nat (length (_visible_customer_ids self)) <= a ->
     _get_customer_from_action self action = Ok None) /\
  (forall a customer_id, as_integral action = Some a -> 0 <= a < MAX_VISIBLE_CUSTOMERS ->
     _visible_customer_ids self !! Z.to_nat a = Some customer_id ->
     match dict_get (customer_waiting self) customer_id with
     | None => _get_customer_from_action self action = Ok None
     | Some customer =>
         match Server.avg_service_time (current_working_server self)
               !! Customer.task customer with
         | None => _get_customer_from_action self action
                   = Raise (KeyError (Customer.task customer))
         | Some t =>
             _get_customer_from_action self action
             = Ok (if PrimFloat.leb t 0 then None else Some customer)
         end
     end).
Proof.
  unfold _get_customer_from_action, MAX_VISIBLE_CUSTOMERS. split; [|split].
  - intros ->. reflexivity.
  - intros a -> H.
    destruct (Z.ltb_spec a 0); [reflexivity|]. destruct (Z.leb_spec 20 a); [reflexivity|].
    cbn [orb]. destruct (Z.leb_spec (Z.of_nat (length (_visible_customer_ids self))) a);
      [reflexivity | lia].
  - intros a cid -> Ha Hv.
    destruct (Z.ltb_spec a 0); [lia|]. destruct (Z.leb_spec 20 a); [lia|]. cbn [orb].
    pose proof (lookup_lt_Some _ _ _ Hv) as Hlt.
    destruct (Z.leb_spec (Z.of_nat (length (_visible_customer_ids self))) a); [lia|].
    rewrite Hv. destruct (dict_get (customer_waiting self) cid) as [c|]; [|reflexivity].
    unfold dict_getitem.
    destruct (Server.avg_service_time (current_working_server self) !! Customer.task c) as [t|];
      [|reflexivity].
    rewrite bind_Ok. destruct (PrimFloat.leb t 0); reflexivity.
Qed.

(** ** The candidate order *)

Lemma key_le_val c d :
  arrival_is_number c -> arrival_is_number d ->
  key_le c d <->
  val (Customer.arrival_time c) < val (Customer.arrival_time d) \/
  (val (Customer.arrival_time c) = val (Customer.arrival_time d) /\
   Customer.id c <= Customer.id d).
Proof.
  unfold arrival_is_number, key_le. intros Nc Nd.
  rewrite ltb_val, eqb_val by assumption.
  rewrite Z.ltb_lt, Z.eqb_eq. reflexivity.
Qed.

Lemma key_lt_val c d :
  arrival_is_number c -> arrival_is_number d ->
  key_lt c d = true <->
  val (Customer.arrival_time c) < val (Customer.arrival_time d) \/
  (val (Customer.arrival_time c) = val (Customer.arrival_time d) /\
   Customer.id c < Customer.id d).
Proof.
  unfold arrival_is_number, key_lt. intros Nc Nd.
  rewrite ltb_val, eqb_val by assumption.
  destruct (Z.eqb_spec (val (Customer.arrival_time c)) (val (Customer.arrival_time d)));
    rewrite Z.ltb_lt; lia.
Qed.

Lemma key_le_trans a b c :
  arrival_is_number a -> arrival_is_number b -> arrival_is_number c ->
  key_le a b -> key_le b c -> key_le a c.
Proof.
  intros Na Nb Nc. rewrite !key_le_val by assumption. lia.
Qed.

Lemma key_lt_true_le c d :
  arrival_is_number c -> arrival_is_number d -> key_lt c d = true -> key_le c d.
Proof.
  intros Nc Nd H. apply key_lt_val in H; try assumption. apply key_le_val; try assumption. lia.
Qed.

Lemma key_lt_false_le c d :
  arrival_is_number c -> arrival_is_number d -> key_lt d c = false -> key_le c d.
Proof.
  intros Nc Nd H. apply key_le_val; try assumption.
  destruct (Z.lt_trichotomy (val (Customer.arrival_time c)) (val (Customer.arrival_time d)))
    as [Hlt | [Heq | Hgt]]; [now left | | ].
  - right. split; [assumption|].
    destruct (Z.le_gt_cases (Customer.id c) (Customer.id d)); [assumption|].
    assert (key_lt d c = true) by (apply key_lt_val; try assumption; lia). congruence.
  - assert (key_lt d c = true) by (apply key_lt_val; try assumption; lia). congruence.
Qed.

Lemma insert_sorted_sorted c l :
  arrival_is_number c -> Forall arrival_is_number l ->
  StronglySorted key_le l -> StronglySorted key_le (insert_sorted c l).
Proof.
  intros Nc Nl Hs. induction Hs as [| d l Hs IH Hd]; cbn [insert_sorted].
  - repeat constructor.
  - apply Forall_cons in Nl as [Nd Nl].
    destruct (key_lt d c) eqn:Hlt.
    + apply SSorted_cons; [now apply IH|].
      apply Forall_forall. intros x Hx.
      rewrite (insert_sorted_perm c l) in Hx.
      apply elem_of_cons in Hx as [-> | Hx].
      * now apply key_lt_true_le.
      * rewrite Forall_forall in Hd. now apply Hd.
    + assert (Hcd : key_le c d) by now apply key_lt_false_le.
      apply SSorted_cons; [now apply SSorted_cons|].
      apply Forall_cons. split; [assumption|].
      rewrite Forall_forall in Hd, Nl. apply Forall_forall. intros x Hx.
      apply (key_le_trans c d x); auto.
Qed.

Lemma sort_by_key_sorted l :
  Forall arrival_is_number l -> StronglySorted key_le (sort_by_key l).
Proof.
  induction 1 as [| c l Nc Nl IH]; cbn [sort_by_key]; [constructor|].
  apply insert_sorted_sorted; try assumption.
  rewrite sort_by_key_perm. assumption.
Qed.

(** ** Reward shaper *)

Lemma py_min_mono a b c :
  PrimFloat.is_nan c = false -> PrimFloat.leb a b = true ->
  PrimFloat.leb (py_min a c) (py_min b c) = true.
Proof.
  intros Nc H. destruct (leb_true_not_nan _ _ H) as [Na Nb]. unfold py_min.
  rewrite !(ltb_val c) by assumption. rewrite leb_val in H by assumption. apply Z.leb_le in H.
  destruct (Z.ltb_spec (val c) (val a)), (Z.ltb_spec (val c) (val b));
    rewrite leb_val by assumption; apply Z.leb_le; lia.
Qed.

Lemma py_min_bounds l a c :
  PrimFloat.leb l a = true -> PrimFloat.leb l c = true ->
  PrimFloat.leb l (py_min a c) = true /\ PrimFloat.leb (py_min a c) c = true.
Proof.
  intros Ha Hc. destruct (leb_true_not_nan _ _ Ha) as [Nl Na].
  destruct (leb_true_not_nan _ _ Hc) as [_ Nc]. unfold py_min.
  rewrite (ltb_val c a) by assumption.
  destruct (Z.ltb_spec (val c) (val a)).
  - split; [assumption | now apply leb_refl].
  - split; [assumption|]. rewrite leb_val by assumption. apply Z.leb_le. lia.
Qed.

Lemma py_max_bounds l z u :
  PrimFloat.is_nan l = false -> PrimFloat.leb l u = true ->
  (PrimFloat.is_nan z = false -> PrimFloat.leb z u = true) ->
  PrimFloat.leb l (py_max l z) = true /\ PrimFloat.leb (py_max l z) u = true.
Proof.
  intros Nl Hlu Hz. unfold py_max. destruct (PrimFloat.ltb l z) eqn:E.
  - destruct (ltb_true_not_nan _ _ E) as [_ Nz]. split; [now apply ltb_leb | now apply Hz].
  - split; [now apply leb_refl | assumption].
Qed.

(** The punctuality bonus lies between 0 and 4. *)
Lemma punctuality_bounds t ap :
  PrimFloat.leb 0 (py_max 0 (4 - abs (t - ap) / 5)) = true /\
  PrimFloat.leb (py_max 0 (4 - abs (t - ap) / 5)) 4 = true.
Proof.
  apply py_max_bounds; [reflexivity | reflexivity |].
  intros Nz. rewrite sub_add_opp in *.
  destruct (add_val_sem _ _ Nz) as (_ & Nq & _). rewrite is_nan_opp in Nq.
  pose proof (div_not_nan_inv _ _ Nq) as Nd. rewrite is_nan_abs in Nd.
  pose proof (abs_nonneg (t - ap) Nd) as H0.
  pose proof (div_mono 0 (abs (t - ap)) 5 _ _ (proj2 divisor_constants) ltac:(lia) H0) as Hq.
  apply opp_antimono in Hq.
  change (PrimFloat.leb (4 + - (abs (t - ap) / 5)) (4 + - (0 / 5)) = true).
  apply add_mono; [reflexivity | assumption | assumption | reflexivity].
Qed.

Lemma wait_bonus_mono w1 w2 :
  PrimFloat.leb w1 w2 = true ->
  PrimFloat.leb (py_min (w1 / 15) 6) (py_min (w2 / 15) 6) = true.
Proof.
  intros H. apply py_min_mono; [reflexivity|].
  exact (div_mono w1 w2 15 _ _ (proj1 divisor_constants) ltac:(lia) H).
Qed.

Lemma wait_bonus_bounds w :
  PrimFloat.leb 0 w = true ->
  PrimFloat.leb 0 (py_min (w / 15) 6) = true /\ PrimFloat.leb (py_min (w / 15) 6) 6 = true.
Proof.
  intros H. apply py_min_bounds; [|reflexivity].
  exact (div_mono 0 w 15 _ _ (proj1 divisor_constants) ltac:(lia) H).
Qed.

Lemma is_fin_const_between l x u :
  is_fin l = true -> is_fin u = true ->
  PrimFloat.leb l x = true /\ PrimFloat.leb x u = true -> is_fin x = true.
Proof. intros Fl Fu [H1 H2]. apply (fin_between l x u); assumption. Qed.

Lemma base_reward_mono m1 m2 :
  PrimFloat.leb m1 m2 = true -> PrimFloat.leb (2 + m1) (2 + m2) = true.
Proof.
  intros H. destruct (leb_true_not_nan _ _ H) as [N1 N2].
  apply add_mono; [reflexivity | assumption | |]; apply add_not_nan; auto.
Qed.

Lemma sub_nonneg a t :
  is_fin a = true -> PrimFloat.leb a t = true -> PrimFloat.leb 0 (t - a) = true.
Proof.
  intros Fa H. destruct (leb_true_not_nan _ _ H) as [Na Nt].
  rewrite sub_add_opp.
  assert (Fo : is_fin (- a) = true) by now rewrite fin_opp.
  assert (No : PrimFloat.is_nan (- a) = false) by now rewrite is_nan_opp.
  assert (Ns : PrimFloat.is_nan (t + - a) = false) by (apply add_not_nan; auto).
  assert (Nz : PrimFloat.is_nan (a + - a) = false) by (apply add_not_nan; auto).
  pose proof (add_mono a t (- a) (- a) H (leb_refl _ No) Nz Ns) as Hm.
  eapply leb_trans; [|exact Hm].
  rewrite leb_val by (reflexivity || assumption). apply Z.leb_le. change (val 0) with 0.
  destruct (add_val_sem _ _ Nz) as (_ & _ & ->).
  pose proof (val_fin_bounds a Fa). rewrite val_opp.
  rewrite add_sem_fin by lia. replace (val a + - val a) with 0 by lia.
  apply round_Z_sign. lia.
Qed.

(** C2. The valid-action reward is [2.0 + min((t - arrival) / 15.0, 6.0)],
    plus [max(0.0, 4.0 - |t - appointment.time| / 5.0)] when the customer has
    an appointment and nothing otherwise; with arrival 0 at time 30 it is
    exactly 4.0 without appointment and exactly 8.0 with an appointment at 30. *)
Theorem valid_reward_formula :
  (forall self customer,
     _get_valid_reward self customer
     = valid_reward_spec (system_time self) (Customer.arrival_time customer)
         (Appointment.time <$> appointments self !! Customer.id customer)) /\
  (forall self customer,
     system_time self = 30%float -> Customer.arrival_time customer = 0%float ->
     appointments self !! Customer.id customer = None ->
     _get_valid_reward self customer = 4%float) /\
  (forall self customer appointment,
     system_time self = 30%float -> Customer.arrival_time customer = 0%float ->
     appointments self !! Customer.id customer = Some appointment ->
     Appointment.time appointment = 30%float ->
     _get_valid_reward self customer = 8%float).
Proof.
  split; [|split].
  - intros self c. unfold _get_valid_reward, valid_reward_spec.
    destruct (appointments self !! Customer.id c); reflexivity.
  - intros self c Ht Ha Hn. unfold _get_valid_reward. rewrite Ht, Ha, Hn. reflexivity.
  - intros self c ap Ht Ha Hs Hap. unfold _get_valid_reward. rewrite Ht, Ha, Hs, Hap.
    reflexivity.
Qed.

(** C9. The reward of a customer is its reward at the wait time
    [system_time - arrival_time]; with the appointment term and everything
    else fixed, for wait times [w1 <= w2] with [w2 / 15.0] at or below the cap
    6.0, the reward at [w1] is less than or equal to the reward at [w2]. (The
    proof does not use the cap.) *)
Theorem valid_reward_monotone :
  (forall self customer,
     _get_valid_reward self customer
     = reward_at_wait self (Customer.id customer)
         (system_time self - Customer.arrival_time customer)) /\
  (forall self customer_id w1 w2,
     PrimFloat.leb w1 w2 = true ->
     PrimFloat.leb (w2 / 15.0) 6.0 = true ->
     PrimFloat.leb (reward_at_wait self customer_id w1)
                   (reward_at_wait self customer_id w2) = true).
Proof.
  split; [reflexivity|].
  intros self cid w1 w2 Hw _. unfold reward_at_wait.
  pose proof (base_reward_mono _ _ (wait_bonus_mono _ _ Hw)) as Hb.
  destruct (appointments self !! cid) as [ap|]; [|exact Hb].
  destruct (leb_true_not_nan _ _ Hb) as [N1 N2].
  pose proof (punctuality_bounds (system_time self) (Appointment.time ap)) as HA.
  assert (FA : is_fin (py_max 0 (4 - abs (system_time self - Appointment.time ap) / 5)) = true).
  { apply (is_fin_const_between 0 _ 4); [reflexivity | reflexivity | exact HA]. }
  apply add_mono; [exact Hb | apply leb_refl, fin_not_nan, FA | |];
    apply add_not_nan; auto using fin_not_nan.
Qed.

Lemma valid_reward_bounds self customer :
  PrimFloat.is_finite (Customer.arrival_time customer) = true ->
  PrimFloat.leb (Customer.arrival_time customer) (system_time self) = true ->
  PrimFloat.leb 2.0 (_get_valid_reward self customer) = true /\
  PrimFloat.leb (_get_valid_reward self customer) 12.0 = true.
Proof.
  rewrite is_finite_fin. intros Fa Hle. unfold _get_valid_reward.
  pose proof (sub_nonneg _ _ Fa Hle) as Hw.
  pose proof (wait_bonus_bounds _ Hw) as [Hm0 Hm6].
  set (m := py_min ((system_time self - Customer.arrival_time customer) / 15) 6) in *.
  destruct (leb_true_not_nan _ _ Hm0) as [_ Nm].
  assert (Nb : PrimFloat.is_nan (2 + m) = false) by (apply add_not_nan; auto).
  assert (Hb2 : PrimFloat.leb 2 (2 + m) = true).
  { change (PrimFloat.leb (2 + 0) (2 + m) = true).
    apply add_mono; [reflexivity | assumption | reflexivity | assumption]. }
  assert (Hb8 : PrimFloat.leb (2 + m) 8 = true).
  { change (PrimFloat.leb (2 + m) (2 + 6) = true).
    apply add_mono; [reflexivity | assumption | assumption | reflexivity]. }
  destruct (appointments self !! Customer.id customer) as [ap|].
  - pose proof (punctuality_bounds (system_time self) (Appointment.time ap)) as [HA0 HA4].
    set (A := py_max 0 (4 - abs (system_time self - Appointment.time ap) / 5)) in *.
    destruct (leb_true_not_nan _ _ HA0) as [_ NA].
    assert (FA : is_fin A = true) by (apply (fin_between 0 A 4); auto).
    assert (Ns : PrimFloat.is_nan (2 + m + A) = false) by (apply add_not_nan; auto).
    split.
    + change (PrimFloat.leb (2 + 0) (2 + m + A) = true).
      apply add_mono; [assumption | assumption | reflexivity | assumption].
    + change (PrimFloat.leb (2 + m + A) (8 + 4) = true).
      apply add_mono; [assumption | assumption | assumption | reflexivity].
  - split; [assumption|]. eapply leb_trans; [exact Hb8 | reflexivity].
Qed.

(** C10. For a customer whose (finite) arrival time is at or before the
    current simulation time, the valid-action reward lies in [2.0, 12.0];
    when the current time precedes the arrival time it can be below 2.0. *)
Theorem valid_reward_range :
  (forall self customer,
     PrimFloat.is_finite (Customer.arrival_time customer) = true ->
     PrimFloat.leb (Customer.arrival_time customer) (system_time self) = true ->
     PrimFloat.leb 2.0 (_get_valid_reward self customer) = true /\
     PrimFloat.leb (_get_valid_reward self customer) 12.0 = true) /\
  (exists self customer,
     PrimFloat.ltb (system_time self) (Customer.arrival_time customer) = true /\
     PrimFloat.ltb (_get_valid_reward self customer) 2.0 = true).
Proof.
  split; [exact valid_reward_bounds|].
  exists {| customer_waiting := []; appointments := ∅;
            current_working_server := {| Server.id := 0; Server.avg_service_time := ∅ |};
            system_time := 0; _visible_customer_ids := [] |},
         {| Customer.id := 1; Customer.arrival_time := 30; Customer.task := 0 |}.
  split; reflexivity.
Qed.

(** ** Heuristic policy *)

Lemma elem_valid_actions_from mask : forall k a,
  a ∈ valid_actions_from k mask <->
  exists i : nat, mask !! i = Some true /\ a = k + Z.of_nat i.
Proof.
  induction mask as [| b mask IH]; intros k a; cbn [valid_actions_from].
  - split; [intros H; inversion H | intros (i & H & _); destruct i; discriminate].
  - assert (Hrest : a ∈ valid_actions_from (k + 1) mask <->
                    exists i : nat, (b :: mask) !! S i = Some true /\ a = k + Z.of_nat (S i)).
    { rewrite IH. split; intros (i & H & ->); exists i; (split; [exact H | lia]). }
    destruct b.
    + rewrite elem_of_cons, Hrest. split.
      * intros [-> | (i & H & ->)]; [exists 0%nat | exists (S i)]; (split; [easy | lia]).
      * intros (i & H & ->). destruct i as [| i]; [left; lia | right; eauto].
    + rewrite Hrest. split.
      * intros (i & H & ->). eauto.
      * intros (i & H & ->). destruct i as [| i]; [discriminate | eauto].
Qed.

Lemma filter_all_out {A} (P : A -> Prop) `{forall x, Decision (P x)} (l : list A) :
  (forall x, x ∈ l -> ~ P x) -> filter P l = [].
Proof.
  induction l as [| x l IH]; intros Hl; [reflexivity|].
  rewrite filter_cons_False by (apply Hl, elem_of_cons; now left).
  apply IH. intros y Hy. apply Hl, elem_of_cons. now right.
Qed.

(** C4 (as amended). For a non-empty mask whose only [True] entries, if
    any, are at its last index (HOLD), [_predict] returns that last index,
    the HOLD action (20 for the masks of the environment); for the empty
    mask, or when [info] has no mask, it returns action 0. *)
Theorem _predict_no_legal_action env obs info :
  (default [] (info_action_mask info) = [] -> _predict env obs info = Ok 0) /\
  (forall mask,
     info_action_mask info = Some mask -> mask <> [] ->
     (forall i, mask !! i = Some true -> Z.of_nat i = Z.of_nat (length mask) - 1) ->
     _predict env obs info = Ok (Z.of_nat (length mask) - 1)).
Proof.
  unfold _predict. split.
  - intros ->. reflexivity.
  - intros mask -> Hne Hmask. change (default [] (Some mask)) with mask.
    destruct mask as [| b mask]; [congruence|].
    rewrite filter_all_out; [reflexivity|].
    intros a Ha. apply elem_valid_actions_from in Ha as (i & Hi & ->).
    specialize (Hmask i Hi). intros Hneq. apply Hneq. rewrite Z.add_0_l. exact Hmask.
Qed.

Lemma score_formula appts t customer_id customer idf :
  float_of_int (Customer.id customer) = Ok idf ->
  score appts t customer_id customer
  = Ok (score_spec t (Customer.arrival_time customer)
          (Appointment.time <$> appts !! customer_id) idf).
Proof.
  intros Hid. unfold score, score_spec. rewrite Hid, bind_Ok.
  destruct (appts !! customer_id) as [ap|]; cbn [fmap option_fmap option_map]; [|reflexivity].
  rewrite (float_mul_comm 2). reflexivity.
Qed.

Lemma scored_functional env obs t a s1 s2 :
  scored env obs t a s1 -> scored env obs t a s2 -> s1 = s2.
Proof.
  intros (cid1 & c1 & Ho1 & _ & Hd1 & Hs1) (cid2 & c2 & Ho2 & _ & Hd2 & Hs2).
  rewrite Ho1 in Ho2. injection Ho2 as <-. rewrite Hd1 in Hd2. injection Hd2 as <-.
  rewrite Hs1 in Hs2. now injection Hs2.
Qed.

Lemma predict_loop_spec env obs t actions : forall best_action best_score,
  PrimFloat.is_nan best_score = false ->
  Forall (scorable env obs t) actions ->
  exists best sb,
    predict_loop env obs t actions best_action best_score = Ok best /\
    PrimFloat.leb best_score sb = true /\
    (forall a s, a ∈ actions -> scored env obs t a s -> PrimFloat.leb s sb = true) /\
    ((best = best_action /\ sb = best_score) \/ (best ∈ actions /\ scored env obs t best sb)).
Proof.
  induction actions as [| a rest IH]; intros ba bs Nbs Hall.
  - exists ba, bs. cbn [predict_loop]. split; [reflexivity|]. split; [now apply leb_refl|].
    split; [intros a s Ha; inversion Ha | now left].
  - apply Forall_cons in Hall as [[[cid Hcid] Hsc] Hall].
    cbn [predict_loop]. rewrite Hcid.
    (* a skipped slot leaves the best unchanged *)
    assert (Skip : (forall s, ~ scored env obs t a s) ->
      exists best sb,
        predict_loop env obs t rest ba bs = Ok best /\
        PrimFloat.leb bs sb = true /\
        (forall a' s, a' ∈ a :: rest -> scored env obs t a' s -> PrimFloat.leb s sb = true) /\
        ((best = ba /\ sb = bs) \/ (best ∈ a :: rest /\ scored env obs t best sb))).
    { intros Hno. destruct (IH ba bs Nbs Hall) as (best & sb & Hr & Hle & Hmax & Hbest).
      exists best, sb. split; [exact Hr|]. split; [exact Hle|]. split.
      - intros a' s Ha' Hs. apply elem_of_cons in Ha' as [-> | Ha']; [now destruct (Hno s) | eauto].
      - destruct Hbest as [? | [Hin Hs]]; [now left | right].
        split; [apply elem_of_cons; now right | exact Hs]. }
    destruct (Z.ltb_spec cid 0) as [Hneg | Hpos].
    { apply Skip. intros s (cid' & c & Ho & Hge & _). rewrite Hcid in Ho. injection Ho as <-. lia. }
    destruct (dict_get (customer_waiting env) cid) as [c|] eqn:Hget.
    2:{ apply Skip. intros s (cid' & c & Ho & _ & Hd & _). rewrite Hcid in Ho.
        injection Ho as <-. congruence. }
    destruct (Hsc cid c Hcid Hpos Hget) as (s & Hs & Hinf). rewrite Hs, bind_Ok.
    destruct (ltb_true_not_nan _ _ Hinf) as [_ Ns].
    assert (Ha : scored env obs t a s) by (exists cid, c; auto).
    destruct (PrimFloat.ltb bs s) eqn:Hlt.
    + destruct (IH a s Ns Hall) as (best & sb & Hr & Hle & Hmax & Hbest).
      exists best, sb. split; [exact Hr|].
      split; [eapply leb_trans; [apply ltb_leb; exact Hlt | exact Hle]|]. split.
      * intros a' s' Ha' Hs'. apply elem_of_cons in Ha' as [-> | Ha']; [|eauto].
        now rewrite (scored_functional _ _ _ _ _ _ Hs' Ha).
      * right. destruct Hbest as [[-> ->] | [Hin Hsb]].
        -- split; [apply elem_of_cons; now left | exact Ha].
        -- split; [apply elem_of_cons; now right | exact Hsb].
    + destruct (IH ba bs Nbs Hall) as (best & sb & Hr & Hle & Hmax & Hbest).
      exists best, sb. split; [exact Hr|]. split; [exact Hle|]. split.
      * intros a' s' Ha' Hs'. apply elem_of_cons in Ha' as [-> | Ha']; [|eauto].
        rewrite (scored_functional _ _ _ _ _ _ Hs' Ha).
        eapply leb_trans; [|exact Hle]. now apply ltb_false_leb.
      * destruct Hbest as [? | [Hin Hsb]]; [now left | right].
        split; [apply elem_of_cons; now right | exact Hsb].
Qed.

(** C8. The score of a resolvable customer is [(t - arrival)], plus, with an
    appointment, [max(0.0, 120.0 - 4.0 * |t - appointment.time|)] minus
    [2.0 * (appointment.time - t - 30.0)] when [t < appointment.time - 30.0],
    minus [id * 1e-6]. Among the legal non-HOLD actions (whose slots the
    observation covers and whose scores are numbers), slots with a negative
    id or an id absent from the waiting set are skipped; [_predict] returns
    an action of maximum score, or HOLD when every slot was skipped. On the
    example of the specification it picks B. *)
Theorem heuristic_policy_choice :
  (forall appts t customer_id customer idf,
     float_of_int (Customer.id customer) = Ok idf ->
     score appts t customer_id customer
     = Ok (score_spec t (Customer.arrival_time customer)
             (Appointment.time <$> appts !! customer_id) idf)) /\
  (forall env obs info mask,
     info_action_mask info = Some mask -> mask <> [] ->
     Forall (scorable env obs (default 0%float (info_system_time info)))
            (legal_service_actions mask) ->
     exists best,
       _predict env obs info = Ok best /\
       ((forall a s, a ∈ legal_service_actions mask ->
                     ~ scored env obs (default 0%float (info_system_time info)) a s) ->
        best = Z.of_nat (length mask) - 1) /\
       (forall a s, a ∈ legal_service_actions mask ->
                    scored env obs (default 0%float (info_system_time info)) a s ->
                    exists sb, best ∈ legal_service_actions mask /\
                               scored env obs (default 0%float (info_system_time info)) best sb /\
                               PrimFloat.leb s sb = true)) /\
  (_get_obs example_env = Ok (example_obs, example_observed_env) /\
   (exists sA sB,
      scored example_observed_env example_obs 50 0 sA /\
      scored example_observed_env example_obs 50 1 sB /\
      PrimFloat.ltb sA sB = true) /\
   _predict example_observed_env example_obs
     {| info_action_mask := Some (action_masks example_observed_env);
        info_system_time := Some 50%float |} = Ok 1 /\
   _get_customer_from_action example_observed_env (PyInt 1) = Ok (Some example_B)).
Proof.
  split; [exact score_formula|]. split.
  - intros env obs info mask Hmask Hne Hall.
    set (t := default 0%float (info_system_time info)) in *.
    unfold _predict. rewrite Hmask. change (default [] (Some mask)) with mask. fold t.
    destruct mask as [| b mask']; [congruence|].
    set (mask := b :: mask') in *. fold (legal_service_actions mask).
    destruct (legal_service_actions mask) as [| a0 rest] eqn:Hlegal.
    + exists (Z.of_nat (length mask) - 1). split; [reflexivity|]. split; [reflexivity|].
      intros a s Ha. inversion Ha.
    + destruct (predict_loop_spec env obs t (a0 :: rest) (Z.of_nat (length mask) - 1)
                  neg_infinity eq_refl Hall) as (best & sb & Hr & _ & Hmax & Hbest).
      exists best. split; [exact Hr|]. split.
      * intros Hnone. destruct Hbest as [[-> _] | [Hin Hs]]; [reflexivity|].
        now destruct (Hnone best sb).
      * intros a s Ha Hs. exists sb.
        destruct Hbest as [[_ ->] | [Hin Hsb]];
          [| split; [exact Hin | split; [exact Hsb | exact (Hmax a s Ha Hs)]]].
        exfalso. pose proof (Hmax a s Ha Hs) as Hle.
        rewrite Forall_forall in Hall. destruct (Hall a Ha) as [_ Hnum].
        destruct Hs as (cid & c & Ho & Hge & Hd & Hsc).
        destruct (Hnum cid c Ho Hge Hd) as (s' & Hs' & Hinf).
        rewrite Hsc in Hs'. injection Hs' as <-.
        destruct (ltb_true_not_nan _ _ Hinf) as [_ Ns].
        rewrite ltb_val in Hinf by (reflexivity || assumption).
        rewrite leb_val in Hle by (reflexivity || assumption).
        apply Z.ltb_lt in Hinf. apply Z.leb_le in Hle. lia.
  - split; [vm_compute; reflexivity|]. split; [|split; vm_compute; reflexivity].
    eexists _, _.
    split; [exists 1, example_A;
            split; [reflexivity | split; [lia | split; [reflexivity | vm_compute; reflexivity]]]|].
    split; [exists 2, example_B;
            split; [reflexivity | split; [lia | split; [reflexivity | vm_compute; reflexivity]]]|].
    vm_compute. reflexivity.
Qed.

(** ** Candidate selector and action decoder: results *)

Lemma selector_result self :
  tasks_known self ->
  _get_candidate_customers self
  = Ok (sort_by_key (List.filter (serves (current_working_server self))
                                 (dict_values (customer_waiting self)))).
Proof.
  intros H. unfold _get_candidate_customers.
  rewrite compatible_customers_ok by exact H. reflexivity.
Qed.

Lemma compatible_customers_raises server cs :
  ~ Forall (fun c => is_Some (Server.avg_service_time server !! Customer.task c)) cs ->
  exists c, c ∈ cs /\ Server.avg_service_time server !! Customer.task c = None /\
            compatible_customers server cs = Raise (KeyError (Customer.task c)).
Proof.
  induction cs as [| c cs IH]; intros Hn; [destruct Hn; constructor|].
  cbn [compatible_customers]. unfold dict_getitem.
  destruct (Server.avg_service_time server !! Customer.task c) as [t|] eqn:Ht.
  - destruct IH as (d & Hd & Hnone & Hr).
    { intros Hall. apply Hn. constructor; [rewrite Ht; eauto | exact Hall]. }
    exists d. split; [apply elem_of_cons; now right|]. split; [exact Hnone|].
    rewrite bind_Ok, Hr. reflexivity.
  - exists c. split; [apply elem_of_cons; now left|]. split; [exact Ht | reflexivity].
Qed.

Lemma selector_raises self :
  ~ tasks_known self ->
  exists c, c ∈ dict_values (customer_waiting self) /\
            Server.avg_service_time (current_working_server self) !! Customer.task c = None /\
            _get_candidate_customers self = Raise (KeyError (Customer.task c)).
Proof.
  intros Hn. destruct (compatible_customers_raises _ _ Hn) as (c & Hc & Hnone & Hr).
  exists c. split; [exact Hc|]. split; [exact Hnone|].
  unfold _get_candidate_customers. rewrite Hr. reflexivity.
Qed.

Lemma elem_of_List_filter {A} (f : A -> bool) l x :
  x ∈ List.filter f l <-> x ∈ l /\ f x = true.
Proof. rewrite !list_elem_of_In. apply filter_In. Qed.

(** C1 (as amended). When every waiting customer's task is a key of the
    selected server's [avg_service_time], candidate selection returns without
    raising, and returns exactly the waiting customers whose average service
    time is strictly positive (a value [<= 0] excludes the customer); decoding
    returns without raising for every action value, and a customer it returns
    is waiting and has an average service time that is not [<= 0]. A task that
    is not a key is not read as "not capable": the selector raises [KeyError]
    as soon as one waiting customer has such a task, and so does the decoder
    when the customer it decodes has one. *)
Theorem selection_and_decoding_total self :
  (tasks_known self ->
   (exists candidates,
      _get_candidate_customers self = Ok candidates /\
      forall c, c ∈ candidates <->
                c ∈ dict_values (customer_waiting self) /\
                exists t, Server.avg_service_time (current_working_server self)
                          !! Customer.task c = Some t /\ PrimFloat.ltb 0 t = true) /\
   (forall action,
      exists r, _get_customer_from_action self action = Ok r /\
      forall c, r = Some c ->
                c ∈ dict_values (customer_waiting self) /\
                exists t, Server.avg_service_time (current_working_server self)
                          !! Customer.task c = Some t /\ PrimFloat.leb t 0 = false)) /\
  (~ tasks_known self ->
   exists c, c ∈ dict_values (customer_waiting self) /\
             Server.avg_service_time (current_working_server self) !! Customer.task c = None /\
             _get_candidate_customers self = Raise (KeyError (Customer.task c))) /\
  (forall action a customer_id customer,
     as_integral action = Some a -> 0 <= a < MAX_VISIBLE_CUSTOMERS ->
     _visible_customer_ids self !! Z.to_nat a = Some customer_id ->
     dict_get (customer_waiting self) customer_id = Some customer ->
     Server.avg_service_time (current_working_server self) !! Customer.task customer = None ->
     _get_customer_from_action self action = Raise (KeyError (Customer.task customer))).
Proof.
  split; [|split; [exact (selector_raises self)|]].
  2:{ intros action a cid c Ha Hr Hv Hget Hnone.
      pose proof (proj2 (proj2 (decode_cases self action)) a cid Ha Hr Hv) as H.
      rewrite Hget, Hnone in H. exact H. }
  intros Hk. split.
  - eexists. split; [now apply selector_result|].
    intros c. rewrite sort_by_key_perm, elem_of_List_filter. unfold serves.
    split.
    + intros [Hin Hs]. split; [assumption|].
      destruct (Server.avg_service_time (current_working_server self) !! Customer.task c)
        as [t|]; [eauto | discriminate].
    + intros [Hin (t & -> & Ht)]. auto.
  - intros action.
    destruct (decode_cases self action) as (Hnone & Hrej & Hin).
    destruct (as_integral action) as [a|] eqn:Ha; [|exists None; split; [auto | discriminate]].
    destruct (Z.lt_ge_cases a 0); [exists None; split; [eauto | discriminate]|].
    destruct (Z.le_gt_cases MAX_VISIBLE_CUSTOMERS a); [exists None; split; [eauto | discriminate]|].
    destruct (Z.le_gt_cases (Z.of_nat (length (_visible_customer_ids self))) a);
      [exists None; split; [eauto 6 | discriminate]|].
    destruct (lookup_lt_is_Some_2 (_visible_customer_ids self) (Z.to_nat a) ltac:(lia))
      as [cid Hcid].
    specialize (Hin a cid eq_refl ltac:(lia) Hcid).
    destruct (dict_get (customer_waiting self) cid) as [c|] eqn:Hget;
      [|exists None; split; [auto | discriminate]].
    pose proof (dict_get_values _ _ _ Hget) as Hc.
    unfold tasks_known in Hk. rewrite Forall_forall in Hk. destruct (Hk c Hc) as [t Ht].
    rewrite Ht in Hin. rewrite Hin.
    destruct (PrimFloat.leb t 0) eqn:Hle; [exists None; split; [auto | discriminate]|].
    exists (Some c). split; [reflexivity|]. intros c' [= <-]. eauto.
Qed.

(** C1, counterexample: customer 4 is waiting, its task 9 is not a key of the
    server's [avg_service_time], and both the selector and the decoder raise
    [KeyError]. *)
Lemma missing_task_key_raises :
  (4, unknown_task_customer) ∈ customer_waiting env_missing_key /\
  Server.avg_service_time (current_working_server env_missing_key)
    !! Customer.task unknown_task_customer = None /\
  _get_candidate_customers env_missing_key = Raise (KeyError 9) /\
  _get_customer_from_action env_missing_key (PyInt 0) = Raise (KeyError 9).
Proof.
  split; [apply elem_of_cons; right; apply elem_of_cons; now left|].
  split; [reflexivity|]. split; reflexivity.
Qed.

(** C3 (as amended). An action that is not of an integral type, is negative,
    is [>= 20] or is [>=] the number of populated slots decodes to "no
    customer". An in-range action decodes to "no customer" when the customer
    of its slot is no longer waiting; when that customer is waiting and its
    task is a key of the server's [avg_service_time] (with a value that is a
    number), it decodes to the customer if the value is strictly positive and
    to "no customer" otherwise; when the task is not a key, decoding raises
    [KeyError]. *)
Theorem decode_action_cases self action :
  (as_integral action = None -> _get_customer_from_action self action = Ok None) /\
  (forall a, as_integral action = Some a ->
     a < 0 \/ MAX_VISIBLE_CUSTOMERS <= a \/ Z.of_nat (length (_visible_customer_ids self)) <= a ->
     _get_customer_from_action self action = Ok None) /\
  (forall a, as_integral action = Some a ->
     0 <= a < MAX_VISIBLE_CUSTOMERS -> a < Z.of_nat (length (_visible_customer_ids self)) ->
     exists customer_id,
       _visible_customer_ids self !! Z.to_nat a = Some customer_id /\
       match dict_get (customer_waiting self) customer_id with
       | None => _get_customer_from_action self action = Ok None
       | Some customer =>
           match Server.avg_service_time (current_working_server self)
                 !! Customer.task customer with
           | None => _get_customer_from_action self action
                     = Raise (KeyError (Customer.task customer))
           | Some t =>
               PrimFloat.is_nan t = false ->
               _get_customer_from_action self action
               = Ok (if PrimFloat.ltb 0 t then Some customer else None)
           end
       end).
Proof.
  destruct (decode_cases self action) as (Hnone & Hrej & Hin).
  split; [exact Hnone|]. split; [exact Hrej|].
  intros a Ha Hrange Hlen.
  destruct (lookup_lt_is_Some_2 (_visible_customer_ids self) (Z.to_nat a) ltac:(lia))
    as [cid Hcid].
  exists cid. split; [exact Hcid|]. specialize (Hin a cid Ha Hrange Hcid).
  destruct (dict_get (customer_waiting self) cid) as [c|]; [|exact Hin].
  destruct (Server.avg_service_time (current_working_server self) !! Customer.task c) as [t|];
    [|exact Hin].
  intros Nt. rewrite Hin, (not_nan_leb_ltb t Nt).
  destruct (PrimFloat.ltb 0 t); reflexivity.
Qed.

(** C3, counterexample: action 0 is in range, its slot holds customer 4, who
    is waiting, and the server has no positive average service time for the
    customer's task 9; decoding returns neither "no customer" nor a customer. *)
Lemma decode_missing_task_key :
  as_integral (PyInt 0) = Some 0 /\
  0 < Z.of_nat (length (_visible_customer_ids env_missing_key)) /\
  _visible_customer_ids env_missing_key !! 0%nat = Some 4 /\
  dict_get (customer_waiting env_missing_key) 4 = Some unknown_task_customer /\
  _get_customer_from_action env_missing_key (PyInt 0) <> Ok None /\
  forall c, _get_customer_from_action env_missing_key (PyInt 0) <> Ok (Some c).
Proof.
  split; [reflexivity|]. split; [cbn; lia|]. split; [reflexivity|]. split; [reflexivity|].
  assert (H : _get_customer_from_action env_missing_key (PyInt 0) = Raise (KeyError 9))
    by reflexivity.
  rewrite H. split; [discriminate | intros c; discriminate].
Qed.

Lemma key_le_antisym_id c d :
  arrival_is_number c -> arrival_is_number d ->
  key_le c d -> key_le d c -> Customer.id c = Customer.id d.
Proof.
  intros Nc Nd. rewrite !key_le_val by assumption. lia.
Qed.

Lemma List_filter_perm {A} (f : A -> bool) l1 l2 :
  Permutation l1 l2 -> Permutation (List.filter f l1) (List.filter f l2).
Proof.
  induction 1 as [| x l1 l2 _ IH | x y l | l1 l2 l3 _ IH1 _ IH2]; cbn [List.filter].
  - reflexivity.
  - destruct (f x); [now constructor | assumption].
  - destruct (f x), (f y); try reflexivity. apply perm_swap.
  - now transitivity (List.filter f l2).
Qed.

Lemma sorted_perm_eq l1 : forall l2,
  Forall arrival_is_number l1 -> ids_identify l1 ->
  StronglySorted key_le l1 -> StronglySorted key_le l2 ->
  Permutation l1 l2 -> l1 = l2.
Proof.
  induction l1 as [| c l1 IH]; intros l2 Hn Hid S1 S2 Hp.
  - apply Permutation_nil in Hp. now subst.
  - destruct l2 as [| d l2]; [apply Permutation_sym, Permutation_nil in Hp; discriminate|].
    apply StronglySorted_inv in S1 as [S1 Hc]. apply StronglySorted_inv in S2 as [S2 Hd].
    rewrite Forall_forall in Hc, Hd.
    assert (Hcd : c = d).
    { assert (Hdin : d ∈ c :: l1) by (rewrite Hp; apply elem_of_cons; now left).
      assert (Hcin : c ∈ d :: l2) by (rewrite <- Hp; apply elem_of_cons; now left).
      apply elem_of_cons in Hdin as [-> | Hdin]; [reflexivity|].
      apply elem_of_cons in Hcin as [-> | Hcin]; [reflexivity|].
      apply Hid; [apply elem_of_cons; now left | apply elem_of_cons; now right |].
      rewrite Forall_forall in Hn.
      apply key_le_antisym_id; [apply Hn, elem_of_cons; now left
                               | apply Hn, elem_of_cons; now right
                               | now apply Hc | now apply Hd]. }
    subst d. f_equal. apply Permutation_cons_inv in Hp.
    apply Forall_cons in Hn as [_ Hn].
    apply IH; try assumption.
    intros x y Hx Hy. apply Hid; apply elem_of_cons; now right.
Qed.

Lemma selector_order_independent self self' :
  tasks_known self ->
  Forall arrival_is_number (dict_values (customer_waiting self)) ->
  ids_identify (dict_values (customer_waiting self)) ->
  current_working_server self' = current_working_server self ->
  Permutation (dict_values (customer_waiting self')) (dict_values (customer_waiting self)) ->
  _get_candidate_customers self' = _get_candidate_customers self.
Proof.
  intros Hk Hn Hid Hs Hp.
  assert (Hk' : tasks_known self').
  { unfold tasks_known. rewrite Hs, Hp. exact Hk. }
  rewrite (selector_result self Hk), (selector_result self' Hk'), Hs. f_equal.
  set (f := serves (current_working_server self)).
  assert (Hn1 : Forall arrival_is_number (List.filter f (dict_values (customer_waiting self)))).
  { rewrite Forall_forall in *. intros c Hc. apply Hn. apply elem_of_List_filter in Hc. tauto. }
  assert (Hn2 : Forall arrival_is_number (List.filter f (dict_values (customer_waiting self')))).
  { rewrite (List_filter_perm f _ _ Hp). exact Hn1. }
  apply sorted_perm_eq.
  - rewrite sort_by_key_perm. exact Hn2.
  - intros c d Hc Hd. rewrite sort_by_key_perm in Hc, Hd.
    rewrite (List_filter_perm f _ _ Hp) in Hc, Hd.
    apply elem_of_List_filter in Hc as [Hc _]. apply elem_of_List_filter in Hd as [Hd _].
    now apply Hid.
  - now apply sort_by_key_sorted.
  - now apply sort_by_key_sorted.
  - rewrite !sort_by_key_perm. now apply List_filter_perm.
Qed.

(** C7 (as amended). When every waiting customer's task is a key of the
    selected server's [avg_service_time] (and arrival times are numbers), the
    selector returns exactly the waiting customers that the server serves with
    a strictly positive average service time, sorted by ascending arrival
    time, ties broken by ascending id; when ids tell the waiting customers
    apart, that list does not depend on the insertion order of the waiting
    dict. When some waiting customer's task is not a key, the selector raises
    [KeyError]. Its result depends on the waiting dict and the server only, so
    running it again yields the same order; an empty waiting set yields the
    empty list. *)
Theorem candidate_selection_sorted self :
  (tasks_known self ->
   Forall arrival_is_number (dict_values (customer_waiting self)) ->
   exists candidates,
     _get_candidate_customers self = Ok candidates /\
     Permutation candidates
       (List.filter (serves (current_working_server self))
                    (dict_values (customer_waiting self))) /\
     StronglySorted key_le candidates /\
     (ids_identify (dict_values (customer_waiting self)) ->
      forall self',
        current_working_server self' = current_working_server self ->
        Permutation (dict_values (customer_waiting self'))
                    (dict_values (customer_waiting self)) ->
        _get_candidate_customers self' = Ok candidates)) /\
  (~ tasks_known self ->
   exists c, c ∈ dict_values (customer_waiting self) /\
             Server.avg_service_time (current_working_server self) !! Customer.task c = None /\
             _get_candidate_customers self = Raise (KeyError (Customer.task c))) /\
  (forall self',
     customer_waiting self' = customer_waiting self ->
     current_working_server self' = current_working_server self ->
     _get_candidate_customers self' = _get_candidate_customers self) /\
  (customer_waiting self = [] -> _get_candidate_customers self = Ok []).
Proof.
  split; [|split; [exact (selector_raises self) | split]].
  - intros Hk Hn. eexists. split; [now apply selector_result|].
    split; [apply sort_by_key_perm|]. split.
    + apply sort_by_key_sorted.
      rewrite Forall_forall in *. intros c Hc. apply Hn.
      apply elem_of_List_filter in Hc. tauto.
    + intros Hid self' Hs Hp.
      rewrite (selector_order_independent self self' Hk Hn Hid Hs Hp).
      now apply selector_result.
  - intros self' Hw Hs. unfold _get_candidate_customers. rewrite Hw, Hs. reflexivity.
  - unfold _get_candidate_customers. intros ->. reflexivity.
Qed.

(** C7, counterexample: the server serves customer 3 and not customer 4,
    whose task is not a key; the selector returns no list. *)
Lemma selector_missing_task_key :
  serves (current_working_server env_missing_key) known_task_customer = true /\
  serves (current_working_server env_missing_key) unknown_task_customer = false /\
  ~ exists candidates, _get_candidate_customers env_missing_key = Ok candidates.
Proof.
  split; [reflexivity|]. split; [reflexivity|].
  intros [cs H]. assert (R : _get_candidate_customers env_missing_key = Raise (KeyError 9))
    by reflexivity.
  rewrite R in H. discriminate.
Qed.

(** C4, counterexample: for the empty mask, and when [info] has no mask,
    [_predict] returns 0, which is neither the HOLD action of the environment
    nor the last index of the mask. *)
Lemma _predict_empty_mask :
  _predict env_missing_key [] {| info_action_mask := Some []; info_system_time := None |} = Ok 0 /\
  _predict env_missing_key [] {| info_action_mask := None; info_system_time := None |} = Ok 0 /\
  0 <> _get_hold_action_number /\ 0 <> Z.of_nat (length (@nil bool)) - 1.
Proof. repeat split; (reflexivity || discriminate). Qed.

(** * Instances: the hypotheses of the theorems hold on concrete states *)

Lemma tasks_known_example : tasks_known example_env.
Proof. repeat constructor; exists 5%float; reflexivity. Defined.

Lemma selection_and_decoding_total_witness :
  tasks_known example_env /\
  (exists candidates, _get_candidate_customers example_env = Ok candidates) /\
  (exists r, _get_customer_from_action example_env (PyInt 0) = Ok r).
Proof.
  split; [exact tasks_known_example|].
  destruct (proj1 (selection_and_decoding_total example_env) tasks_known_example)
    as [(cs & Hcs & _) Hdec].
  split; [exists cs; exact Hcs|].
  destruct (Hdec (PyInt 0)) as (r & Hr & _). exists r. exact Hr.
Defined.

Lemma valid_reward_formula_witness :
  system_time env_missing_key = 30%float /\
  Customer.arrival_time unknown_task_customer = 0%float /\
  appointments env_missing_key !! Customer.id unknown_task_customer = None /\
  _get_valid_reward env_missing_key unknown_task_customer = 4%float.
Proof.
  split; [reflexivity|]. split; [reflexivity|]. split; [reflexivity|].
  apply (proj1 (proj2 valid_reward_formula)); reflexivity.
Defined.

Lemma decode_action_cases_witness :
  as_integral (PyInt 1) = Some 1 /\
  0 <= 1 < MAX_VISIBLE_CUSTOMERS /\
  1 < Z.of_nat (length (_visible_customer_ids example_observed_env)) /\
  _get_customer_from_action example_observed_env (PyInt 1) = Ok (Some example_B).
Proof.
  split; [reflexivity|]. split; [unfold MAX_VISIBLE_CUSTOMERS; lia|]. split; [cbn; lia|].
  destruct (proj2 (proj2 (decode_action_cases example_observed_env (PyInt 1)))
              1 eq_refl) as (cid & Hcid & H).
  - unfold MAX_VISIBLE_CUSTOMERS. lia.
  - cbn. lia.
  - vm_compute in Hcid. injection Hcid as <-. vm_compute in H. exact (H eq_refl).
Defined.

Lemma _predict_no_legal_action_witness :
  info_action_mask {| info_action_mask := Some (replicate 20 false ++ [true]);
                      info_system_time := None |}
  = Some (replicate 20 false ++ [true]) /\
  replicate 20 false ++ [true] <> [] /\
  _predict example_env [] {| info_action_mask := Some (replicate 20 false ++ [true]);
                             info_system_time := None |}
  = Ok _get_hold_action_number.
Proof.
  split; [reflexivity|]. split; [discriminate|].
  refine (proj2 (_predict_no_legal_action example_env []
                   {| info_action_mask := Some (replicate 20 false ++ [true]);
                      info_system_time := None |})
                (replicate 20 false ++ [true]) eq_refl _ _); [discriminate|].
  intros i Hi. do 21 (destruct i as [| i]; [first [discriminate Hi | reflexivity] |]).
  discriminate Hi.
Defined.

Lemma action_masks_invariant_witness :
  (length (_visible_customer_ids example_observed_env)
   <= Z.to_nat MAX_VISIBLE_CUSTOMERS)%nat /\
  py_sum (action_masks example_observed_env) - 1
  = Z.of_nat (length (_visible_customer_ids example_observed_env)).
Proof.
  assert (H : (length (_visible_customer_ids example_observed_env)
               <= Z.to_nat MAX_VISIBLE_CUSTOMERS)%nat) by (vm_compute; lia).
  split; [exact H|].
  destruct (action_masks_invariant example_observed_env) as (_ & _ & _ & _ & Hsum & Hn).
  rewrite Hsum, (Hn H). reflexivity.
Defined.

Lemma _get_obs_encoding_witness :
  _get_candidate_customers example_env = Ok [example_A; example_B] /\
  Forall (fun c => int32_ok (Customer.id c) = true)
         (take (Z.to_nat MAX_VISIBLE_CUSTOMERS) [example_A; example_B]) /\
  exists obs self', _get_obs example_env = Ok (obs, self') /\
                    length obs = Z.to_nat MAX_VISIBLE_CUSTOMERS.
Proof.
  assert (H1 : _get_candidate_customers example_env = Ok [example_A; example_B])
    by reflexivity.
  assert (H2 : Forall (fun c => int32_ok (Customer.id c) = true)
                      (take (Z.to_nat MAX_VISIBLE_CUSTOMERS) [example_A; example_B]))
    by (repeat constructor).
  split; [exact H1|]. split; [exact H2|].
  destruct (_get_obs_encoding example_env _ H1 H2) as (obs & self' & Hobs & Hlen & _).
  exists obs, self'. split; assumption.
Defined.

Lemma arrivals_example :
  Forall arrival_is_number (dict_values (customer_waiting example_env)).
Proof. repeat constructor. Defined.

Lemma candidate_selection_sorted_witness :
  tasks_known example_env /\
  Forall arrival_is_number (dict_values (customer_waiting example_env)) /\
  exists candidates,
    _get_candidate_customers example_env = Ok candidates /\
    StronglySorted key_le candidates.
Proof.
  split; [exact tasks_known_example|]. split; [exact arrivals_example|].
  destruct (proj1 (candidate_selection_sorted example_env)
              tasks_known_example arrivals_example) as (cs & Hcs & _ & Hs & _).
  exists cs. split; assumption.
Defined.

Lemma heuristic_policy_choice_witness :
  Forall (scorable example_observed_env example_obs 50)
         (legal_service_actions (action_masks example_observed_env)) /\
  exists best,
    _predict example_observed_env example_obs
      {| info_action_mask := Some (action_masks example_observed_env);
         info_system_time := Some 50%float |} = Ok best.
Proof.
  assert (H : Forall (scorable example_observed_env example_obs 50)
                (legal_service_actions (action_masks example_observed_env))).
  { change (legal_service_actions (action_masks example_observed_env))
      with [0; 1].
    repeat constructor.
    - exists 1. reflexivity.
    - intros cid c H1 _ H2. vm_compute in H1. injection H1 as <-.
      vm_compute in H2. injection H2 as <-. eexists. split; vm_compute; reflexivity.
    - exists 2. reflexivity.
    - intros cid c H1 _ H2. vm_compute in H1. injection H1 as <-.
      vm_compute in H2. injection H2 as <-. eexists. split; vm_compute; reflexivity. }
  split; [exact H|].
  destruct (proj1 (proj2 heuristic_policy_choice) example_observed_env
              example_obs
              {| info_action_mask := Some (action_masks example_observed_env);
                 info_system_time := Some 50%float |}
              (action_masks example_observed_env) eq_refl)
    as (best & Hbest & _).
  - discriminate.
  - exact H.
  - exists best. exact Hbest.
Defined.

Lemma valid_reward_monotone_witness :
  PrimFloat.leb 10 30 = true /\
  PrimFloat.leb (30 / 15.0) 6.0 = true /\
  PrimFloat.leb (reward_at_wait example_env 2 10) (reward_at_wait example_env 2 30) = true.
Proof.
  split; [reflexivity|]. split; [reflexivity|].
  apply (proj2 valid_reward_monotone example_env 2 10%float 30%float); reflexivity.
Defined.

Lemma valid_reward_range_witness :
  PrimFloat.is_finite (Customer.arrival_time unknown_task_customer) = true /\
  PrimFloat.leb (Customer.arrival_time unknown_task_customer) (system_time env_missing_key) = true /\
  PrimFloat.leb 2.0 (_get_valid_reward env_missing_key unknown_task_customer) = true /\
  PrimFloat.leb (_get_valid_reward env_missing_key unknown_task_customer) 12.0 = true.
Proof.
  split; [reflexivity|]. split; [reflexivity|].
  apply (proj1 valid_reward_range); reflexivity.
Defined.

(** * Further properties: how the operations compose *)

(** ** More on binary64 comparisons and sums *)

Lemma not_ltb_of_nan x y : PrimFloat.is_nan y = true -> PrimFloat.ltb x y = false.
Proof.
  intros N. destruct (PrimFloat.ltb x y) eqn:E; [|reflexivity].
  destruct (ltb_true_not_nan _ _ E). congruence.
Qed.

Lemma leb_not_ltb x y : PrimFloat.leb x y = true -> PrimFloat.ltb y x = false.
Proof.
  intros H. destruct (leb_true_not_nan _ _ H) as [Nx Ny].
  rewrite leb_val in H by assumption. rewrite ltb_val by assumption.
  apply Z.leb_le in H. apply Z.ltb_ge. lia.
Qed.

Lemma float_ltb_trans x y z :
  PrimFloat.ltb x y = true -> PrimFloat.ltb y z = true -> PrimFloat.ltb x z = true.
Proof.
  intros H1 H2. destruct (ltb_true_not_nan _ _ H1) as [Nx Ny].
  destruct (ltb_true_not_nan _ _ H2) as [_ Nz].
  rewrite ltb_val in * by assumption. apply Z.ltb_lt in H1, H2. apply Z.ltb_lt. lia.
Qed.

Lemma leb_ltb_trans x y z :
  PrimFloat.leb x y = true -> PrimFloat.ltb y z = true -> PrimFloat.ltb x z = true.
Proof.
  intros H1 H2. destruct (leb_true_not_nan _ _ H1) as [Nx Ny].
  destruct (ltb_true_not_nan _ _ H2) as [_ Nz].
  rewrite leb_val in H1 by assumption. rewrite ltb_val in * by assumption.
  apply Z.leb_le in H1. apply Z.ltb_lt in H2. apply Z.ltb_lt. lia.
Qed.

Lemma float_eqb_refl x : PrimFloat.is_nan x = false -> PrimFloat.eqb x x = true.
Proof. intros N. rewrite eqb_val by assumption. apply Z.eqb_refl. Qed.

Lemma leb_antisym_eqb x y :
  PrimFloat.leb x y = true -> PrimFloat.leb y x = true -> PrimFloat.eqb x y = true.
Proof.
  intros H1 H2. destruct (leb_true_not_nan _ _ H1) as [Nx Ny].
  rewrite leb_val in H1, H2 by assumption. rewrite eqb_val by assumption.
  apply Z.leb_le in H1, H2. apply Z.eqb_eq. lia.
Qed.

Lemma py_min_le_cap a c :
  PrimFloat.is_nan (py_min a c) = false -> PrimFloat.is_nan c = false ->
  PrimFloat.leb (py_min a c) c = true.
Proof.
  unfold py_min. destruct (PrimFloat.ltb c a) eqn:E; intros Nm Nc.
  - now apply leb_refl.
  - now apply ltb_false_leb.
Qed.

Lemma py_max_nonneg z : PrimFloat.leb 0 (py_max 0 z) = true.
Proof.
  unfold py_max. destruct (PrimFloat.ltb 0 z) eqn:E; [now apply ltb_leb | reflexivity].
Qed.

(** Rounding the number that a finite float holds gives the number back. *)
Lemma round_Z_val x :
  PrimFloat.is_nan x = false -> is_fin x = true -> round_Z (val x) = val x.
Proof.
  rewrite is_nan_SF. unfold is_fin, val. intros N F.
  apply round_Z_SFval; [apply Prim2SF_valid | exact N |].
  intros s Hs. rewrite Hs in F. discriminate.
Qed.

Lemma add_sem_0_r x : PrimFloat.is_nan x = false -> add_sem (val x) 0 = val x.
Proof.
  intros N. unfold add_sem. pose proof BIG_pos.
  destruct (Z.eqb_spec (Z.abs (val x)) BIG) as [Hinf | Hfin]; [reflexivity|].
  change (Z.abs 0 =? BIG) with false. rewrite Z.add_0_r. apply round_Z_val; [exact N|].
  rewrite fin_abs_val by exact N. apply negb_true_iff, Z.eqb_neq. exact Hfin.
Qed.

Lemma add_eqb_compat x1 x2 y1 y2 :
  PrimFloat.eqb x1 x2 = true -> PrimFloat.eqb y1 y2 = true ->
  PrimFloat.is_nan (x1 + y1) = false -> PrimFloat.is_nan (x2 + y2) = false ->
  PrimFloat.eqb (x1 + y1) (x2 + y2) = true.
Proof.
  intros Hx Hy N1 N2.
  destruct (eqb_true_not_nan _ _ Hx) as [Nx1 Nx2].
  destruct (eqb_true_not_nan _ _ Hy) as [Ny1 Ny2].
  rewrite eqb_val in Hx, Hy by assumption. apply Z.eqb_eq in Hx, Hy.
  rewrite eqb_val by assumption. apply Z.eqb_eq.
  destruct (add_val_sem _ _ N1) as (_ & _ & ->).
  destruct (add_val_sem _ _ N2) as (_ & _ & ->).
  now rewrite Hx, Hy.
Qed.

Lemma sub_not_nan_inv a c :
  PrimFloat.is_nan (a - c) = false ->
  PrimFloat.is_nan a = false /\ PrimFloat.is_nan c = false.
Proof.
  rewrite sub_add_opp. intros N. destruct (add_val_sem _ _ N) as (Na & Nc & _).
  rewrite is_nan_opp in Nc. now split.
Qed.

Lemma add_mono_l a b c :
  PrimFloat.leb a b = true ->
  PrimFloat.is_nan (a + c) = false -> PrimFloat.is_nan (b + c) = false ->
  PrimFloat.leb (a + c) (b + c) = true.
Proof.
  intros H N1 N2. destruct (add_val_sem _ _ N1) as (_ & Nc & _).
  apply add_mono; [exact H | now apply leb_refl | exact N1 | exact N2].
Qed.

Lemma sub_mono_l a b c :
  PrimFloat.leb a b = true ->
  PrimFloat.is_nan (a - c) = false -> PrimFloat.is_nan (b - c) = false ->
  PrimFloat.leb (a - c) (b - c) = true.
Proof. rewrite !sub_add_opp. apply add_mono_l. Qed.

Lemma sub_mono_r t a b :
  PrimFloat.leb a b = true ->
  PrimFloat.is_nan (t - a) = false -> PrimFloat.is_nan (t - b) = false ->
  PrimFloat.leb (t - b) (t - a) = true.
Proof.
  rewrite !sub_add_opp. intros H N1 N2. destruct (add_val_sem _ _ N1) as (Nt & _ & _).
  apply add_mono; [now apply leb_refl | now apply opp_antimono | exact N2 | exact N1].
Qed.

Lemma leb_add_nonneg w b :
  PrimFloat.leb 0 b = true -> PrimFloat.is_nan (w + b) = false ->
  PrimFloat.leb w (w + b) = true.
Proof.
  intros Hb N. destruct (add_val_sem _ _ N) as (Nw & Nb & _).
  assert (N0 : PrimFloat.is_nan (w + 0) = false)
    by (apply add_not_nan; [exact Nw | reflexivity | now right]).
  pose proof (add_mono w w 0 b (leb_refl _ Nw) Hb N0 N) as H.
  rewrite leb_val in H by assumption. rewrite leb_val by assumption.
  destruct (add_val_sem _ _ N0) as (_ & _ & E). rewrite E, add_sem_0_r in H by exact Nw.
  exact H.
Qed.

(** A NaN sum of two numbers is [inf - inf]; a number obtained by adding to
    the left operand is then the same infinity. *)
Lemma add_nan_absorbs w b k :
  PrimFloat.is_nan w = false -> PrimFloat.is_nan k = false ->
  PrimFloat.is_nan (w + b) = false -> PrimFloat.is_nan (w + k) = true ->
  PrimFloat.is_nan (w + b + k) = true.
Proof.
  intros Nw Nk Nb N.
  assert (Fw : is_fin w = false).
  { destruct (is_fin w) eqn:F; [|reflexivity].
    pose proof (add_not_nan w k Nw Nk (or_introl F)). congruence. }
  assert (Fk : is_fin k = false).
  { destruct (is_fin k) eqn:F; [|reflexivity].
    pose proof (add_not_nan w k Nw Nk (or_intror F)). congruence. }
  revert Nw Nk Nb N Fw Fk. unfold is_fin. rewrite !is_nan_SF, !add_spec. unfold SF64add.
  destruct (Prim2SF w) as [sw | sw | | sw mw ew]; try discriminate.
  destruct (Prim2SF k) as [sk | sk | | sk mk ek]; try discriminate.
  destruct (Prim2SF b) as [sb | sb | | sb mb eb]; cbn [SFadd SFis_nan];
    destruct sw, sk; try destruct sb; cbn; intros; congruence.
Qed.

(** An int of the int32 range converts to a float: [float(n)] does not
    overflow. *)
Lemma float_of_int_int32 n : int32_ok n = true -> exists f, float_of_int n = Ok f.
Proof.
  unfold int32_ok. intros H. apply andb_true_iff in H as [Hlo Hhi].
  apply Z.leb_le in Hlo, Hhi.
  unfold float_of_int.
  destruct (binary_normalize_val n 0 ltac:(unfold E0; lia)) as [_ Hv].
  assert (Hb : bounded prec emax 4503599627370496 (-21) = true) by (vm_compute; reflexivity).
  pose proof (mag_lt_BIG _ _ Hb) as [Hpos Hlt].
  pose proof (round_int_mag _ _ Hb) as Hfix.
  remember (mag 4503599627370496 (-21)) as M eqn:EM.
  assert (HM : M = 2147483648 * 2 ^ (0 - E0)).
  { rewrite EM. unfold mag, E0. change (-21 - -1074) with 1053.
    change (0 - -1074) with (21 + 1053).
    rewrite Z.pow_add_r by lia. change (2 ^ 21) with 2097152. lia. }
  assert (P : 0 < 2 ^ (0 - E0)) by (apply Z.pow_pos_nonneg; unfold E0; lia).
  remember (n * 2 ^ (0 - E0)) as J eqn:EJ.
  assert (HJ : - M <= J <= M) by (rewrite EJ, HM; nia).
  assert (Hneg : round_Z (- M) = - M).
  { rewrite round_Z_neg by lia. rewrite Z.opp_involutive. now rewrite Hfix. }
  assert (Hposr : round_Z M = M) by (rewrite round_Z_nonneg by lia; exact Hfix).
  pose proof (round_Z_mono (- M) J ltac:(lia)) as Hr1.
  pose proof (round_Z_mono J M ltac:(lia)) as Hr2.
  rewrite Hneg in Hr1. rewrite Hposr in Hr2.
  destruct (binary_normalize prec emax n 0 false) as [s | s | | s m e] eqn:E; eauto.
  exfalso. pose proof (SFval_inf_abs s) as Hinf. rewrite Hv in Hinf. lia.
Qed.

Lemma float_of_int_raises n e : float_of_int n = Raise e -> e = OverflowError.
Proof.
  unfold float_of_int. destruct (binary_normalize prec emax n 0 false);
    first [discriminate | now intros [= <-]].
Qed.

(** ** What a successful observation is made of *)

Lemma np_array_int32_inv l : forall a,
  np_array_int32 l = Ok a -> a = l /\ Forall (fun n => int32_ok n = true) l.
Proof.
  induction l as [| n l IH]; intros a; cbn [np_array_int32].
  - intros [= <-]. split; [reflexivity | constructor].
  - destruct (int32_ok n) eqn:Hn; [|discriminate].
    destruct (np_array_int32 l) as [a' |]; [|discriminate].
    rewrite bind_Ok. intros [= <-]. destruct (IH a' eq_refl) as [-> Hl].
    split; [reflexivity | now constructor].
Qed.

Lemma np_array_int32_raises l e : np_array_int32 l = Raise e -> e = OverflowError.
Proof.
  induction l as [| n l IH]; cbn [np_array_int32]; [discriminate|].
  destruct (int32_ok n); [|now intros [= <-]].
  destruct (np_array_int32 l) as [a |]; [discriminate|].
  intros [= <-]. now apply IH.
Qed.

Lemma selector_inv self candidates :
  _get_candidate_customers self = Ok candidates ->
  tasks_known self /\
  candidates = sort_by_key (List.filter (serves (current_working_server self))
                                        (dict_values (customer_waiting self))).
Proof.
  intros H.
  destruct (decide (Forall (fun c => is_Some (Server.avg_service_time (current_working_server self)
                                                !! Customer.task c))
                           (dict_values (customer_waiting self)))) as [Hk | Hk].
  - split; [exact Hk|]. rewrite (selector_result self Hk) in H. now injection H.
  - destruct (selector_raises self Hk) as (c & _ & _ & Hr). congruence.
Qed.

Lemma _get_obs_inv self obs self' :
  _get_obs self = Ok (obs, self') ->
  exists candidates,
    _get_candidate_customers self = Ok candidates /\
    self' = set_visible self (Customer.id <$> take 20 candidates) /\
    obs = pad_visible (Customer.id <$> take 20 candidates) /\
    Forall (fun n => int32_ok n = true) obs.
Proof.
  unfold _get_obs. destruct (_get_candidate_customers self) as [candidates |]; [|discriminate].
  rewrite bind_Ok. change (Z.to_nat MAX_VISIBLE_CUSTOMERS) with 20%nat.
  destruct (np_array_int32 _) as [a |] eqn:Ha; [|discriminate].
  rewrite bind_Ok. intros [= <- <-].
  destruct (np_array_int32_inv _ _ Ha) as [-> Hall].
  exists candidates. repeat split; assumption.
Qed.

Lemma candidate_elem self candidates c :
  _get_candidate_customers self = Ok candidates ->
  c ∈ candidates <->
  c ∈ dict_values (customer_waiting self) /\ serves (current_working_server self) c = true.
Proof.
  intros H. destruct (selector_inv _ _ H) as [_ ->].
  rewrite sort_by_key_perm. apply elem_of_List_filter.
Qed.

(** In a dict keyed by [key], a stored value is found under its key. *)
Lemma dict_get_by_id {V} (key : V -> Z) (d : list (Z * V)) v :
  NoDup (fst <$> d) -> Forall (fun kv => fst kv = key (snd kv)) d ->
  v ∈ dict_values d -> dict_get d (key v) = Some v.
Proof.
  induction d as [| [k v'] d IH]; intros Hnd Hk Hv.
  - inversion Hv.
  - cbn [fmap list_fmap fst] in Hnd. apply NoDup_cons in Hnd as [Hk' Hnd].
    apply Forall_cons in Hk as [Hkv Hk]. cbn [fst snd] in Hkv.
    unfold dict_values in Hv. cbn [fmap list_fmap snd] in Hv.
    cbn [dict_get]. destruct (Z.eqb_spec k (key v)) as [Heq | Hne].
    + apply elem_of_cons in Hv as [-> | Hv]; [reflexivity|].
      exfalso. apply Hk'. apply list_elem_of_fmap in Hv as ([k2 v2] & -> & Hin).
      apply list_elem_of_fmap. exists (k2, v2). split; [|exact Hin].
      rewrite Forall_forall in Hk. specialize (Hk _ Hin). cbn [fst snd] in *. congruence.
    + apply elem_of_cons in Hv as [-> | Hv]; [congruence|]. now apply IH.
Qed.

Lemma dict_get_key {V} (key : V -> Z) (d : list (Z * V)) k v :
  Forall (fun kv => fst kv = key (snd kv)) d -> dict_get d k = Some v -> key v = k.
Proof.
  induction d as [| [k' v'] d IH]; intros Hk; cbn [dict_get]; [discriminate|].
  apply Forall_cons in Hk as [Hkv Hk]. cbn [fst snd] in Hkv.
  destruct (Z.eqb_spec k' k); [intros [= <-]; congruence | now apply IH].
Qed.

Lemma keys_are_ids {V} (key : V -> Z) (d : list (Z * V)) :
  Forall (fun kv => fst kv = key (snd kv)) d -> key <$> dict_values d = fst <$> d.
Proof.
  unfold dict_values. induction 1 as [| [k v] d Hk _ IH]; [reflexivity|].
  cbn [fmap list_fmap fst snd] in *. now rewrite Hk, <- IH.
Qed.

Lemma serves_inv server c :
  serves server c = true ->
  exists t, Server.avg_service_time server !! Customer.task c = Some t /\
            PrimFloat.ltb 0 t = true /\ PrimFloat.leb t 0 = false.
Proof.
  unfold serves. destruct (Server.avg_service_time server !! Customer.task c) as [t|];
    [|discriminate].
  intros H. exists t. split; [reflexivity|]. split; [exact H|].
  destruct (ltb_true_not_nan _ _ H) as [_ Nt]. rewrite not_nan_leb_ltb by exact Nt.
  now rewrite H.
Qed.

(** After an observation, slot [i] of the table decodes to the [i]-th
    candidate. *)
Lemma decode_visible_slot self candidates (i : nat) c action :
  waiting_by_id self ->
  _get_candidate_customers self = Ok candidates ->
  (i < 20)%nat -> candidates !! i = Some c ->
  as_integral action = Some (Z.of_nat i) ->
  _get_customer_from_action (set_visible self (Customer.id <$> take 20 candidates)) action
  = Ok (Some c).
Proof.
  intros [Hnd Hk] Hc Hi Hci Hact.
  assert (Hin : c ∈ candidates) by (eapply list_elem_of_lookup_2; exact Hci).
  apply (candidate_elem _ _ _ Hc) in Hin as [Hw Hs].
  apply serves_inv in Hs as (t & Ht & _ & Hle).
  pose proof (proj2 (proj2 (decode_cases
    (set_visible self (Customer.id <$> take 20 candidates)) action))
    (Z.of_nat i) (Customer.id c) Hact) as D.
  cbn [set_visible _visible_customer_ids customer_waiting current_working_server] in D.
  rewrite Nat2Z.id in D. unfold MAX_VISIBLE_CUSTOMERS in D.
  specialize (D ltac:(lia)).
  rewrite list_lookup_fmap, lookup_take_lt, Hci in D by lia.
  specialize (D eq_refl).
  rewrite (dict_get_by_id Customer.id _ c Hnd Hk Hw), Ht, Hle in D. exact D.
Qed.

(** The service-slot entries of the mask: [True] exactly below the length
    of the visible-slot table. *)
Lemma mask_lookup_service self (a : nat) :
  (a < 20)%nat ->
  action_masks self !! a = Some (bool_decide (a < length (_visible_customer_ids self))%nat).
Proof.
  intros Ha. rewrite (action_masks_shape self).
  set (n := Nat.min (length (_visible_customer_ids self)) 20).
  destruct (decide (a < n)%nat) as [Hlt | Hge].
  - rewrite lookup_app_l by (rewrite length_replicate; lia).
    rewrite bool_decide_eq_true_2 by (unfold n in Hlt; lia).
    apply lookup_replicate_2. lia.
  - rewrite lookup_app_r by (rewrite length_replicate; lia).
    rewrite length_replicate.
    rewrite lookup_app_l by (rewrite length_replicate; lia).
    rewrite bool_decide_eq_false_2 by (unfold n in Hge; lia).
    apply lookup_replicate_2. lia.
Qed.

(** X1. Encoding then decoding is a round trip: after [_get_obs] has
    returned on a state whose waiting dict is keyed by customer id, for
    every slot [i] below the capacity that holds the [i]-th candidate [c],
    the observation has [c]'s id at index [i] and [_get_customer_from_action]
    returns [c] itself for every integral action equal to [i]. *)
Theorem observe_then_decode self obs self' :
  waiting_by_id self ->
  _get_obs self = Ok (obs, self') ->
  exists candidates,
    _get_candidate_customers self = Ok candidates /\
    forall (i : nat) c action,
      (i < Z.to_nat MAX_VISIBLE_CUSTOMERS)%nat -> candidates !! i = Some c ->
      as_integral action = Some (Z.of_nat i) ->
      obs !! i = Some (Customer.id c) /\
      _get_customer_from_action self' action = Ok (Some c).
Proof.
  change (Z.to_nat MAX_VISIBLE_CUSTOMERS) with 20%nat.
  intros Hw Hobs. destruct (_get_obs_inv _ _ _ Hobs) as (candidates & Hc & -> & -> & _).
  exists candidates. split; [exact Hc|]. intros i c action Hi Hci Hact. split.
  - unfold pad_visible. apply lookup_app_l_Some.
    rewrite list_lookup_fmap, lookup_take_lt, Hci by lia. reflexivity.
  - now apply decode_visible_slot with (i := i).
Qed.

(** X2. Right after an observation the mask and the decoder agree: for
    every integral action [a], the mask is [True] at a service slot [a]
    (0 <= a < 20) if and only if [_get_customer_from_action] returns a
    customer for [a]. *)
Theorem mask_agrees_with_decoder self obs self' :
  waiting_by_id self ->
  _get_obs self = Ok (obs, self') ->
  forall action a,
    as_integral action = Some a ->
    (0 <= a < _get_hold_action_number /\ action_masks self' !! Z.to_nat a = Some true)
    <-> exists c, _get_customer_from_action self' action = Ok (Some c).
Proof.
  unfold _get_hold_action_number, MAX_VISIBLE_CUSTOMERS.
  intros Hw Hobs action a Hact.
  destruct (_get_obs_inv _ _ _ Hobs) as (candidates & Hc & -> & _ & _).
  set (self' := set_visible self (Customer.id <$> take 20 candidates)).
  assert (Hlen : length (_visible_customer_ids self') = Nat.min 20 (length candidates)).
  { unfold self'. cbn [set_visible _visible_customer_ids].
    now rewrite length_fmap, length_take. }
  split.
  - intros [Ha Hm]. rewrite mask_lookup_service in Hm by lia.
    injection Hm as Hm. apply bool_decide_eq_true in Hm.
    rewrite length_fmap, length_take in Hm.
    destruct (lookup_lt_is_Some_2 candidates (Z.to_nat a) ltac:(lia)) as [c Hci].
    exists c. apply decode_visible_slot with (i := Z.to_nat a);
      [assumption | assumption | lia | exact Hci | rewrite Z2Nat.id by lia; exact Hact].
  - intros [c Hd].
    destruct (decide (a < 0 \/ 20 <= a \/ Z.of_nat (length (_visible_customer_ids self')) <= a))
      as [Hout | Hin].
    + rewrite (proj1 (proj2 (decode_cases self' action)) a Hact Hout) in Hd.
      discriminate.
    + split; [lia|]. rewrite mask_lookup_service by lia.
      rewrite bool_decide_eq_true_2 by lia. reflexivity.
Qed.

(** ** The visible slots *)

Lemma List_filter_sublist {A} (f : A -> bool) l : List.filter f l `sublist_of` l.
Proof.
  induction l as [| x l IH]; cbn [List.filter]; [constructor|].
  destruct (f x); [now apply sublist_skip | now apply sublist_cons].
Qed.

Lemma Forall_List_filter {A} (P : A -> Prop) (f : A -> bool) l :
  Forall P l -> Forall P (List.filter f l).
Proof.
  induction 1 as [| x l Hx _ IH]; cbn [List.filter]; [constructor|].
  destruct (f x); [now constructor | exact IH].
Qed.

Lemma List_filter_none {A} (f : A -> bool) l :
  (forall x, x ∈ l -> f x = false) -> List.filter f l = [].
Proof.
  induction l as [| x l IH]; intros H; [reflexivity|]. cbn [List.filter].
  rewrite (H x) by (apply elem_of_cons; now left).
  apply IH. intros y Hy. apply H, elem_of_cons. now right.
Qed.

Lemma candidate_ids_NoDup self candidates :
  waiting_by_id self ->
  _get_candidate_customers self = Ok candidates ->
  NoDup (Customer.id <$> candidates).
Proof.
  intros [Hnd Hk] Hc. destruct (selector_inv _ _ Hc) as [_ ->].
  rewrite sort_by_key_perm.
  apply (sublist_NoDup _ (Customer.id <$> dict_values (customer_waiting self))).
  - rewrite (keys_are_ids _ _ Hk). exact Hnd.
  - apply fmap_sublist, List_filter_sublist.
Qed.

Lemma StronglySorted_app_le {A} (R : A -> A -> Prop) l1 l2 x y :
  StronglySorted R (l1 ++ l2) -> x ∈ l1 -> y ∈ l2 -> R x y.
Proof.
  induction l1 as [| z l1 IH]; intros Hs Hx Hy; [inversion Hx|].
  cbn [app] in Hs. apply StronglySorted_inv in Hs as [Hs Hz].
  apply elem_of_cons in Hx as [-> | Hx]; [|now apply IH].
  rewrite Forall_forall in Hz. apply Hz, elem_of_app. now right.
Qed.

Lemma candidates_sorted self candidates :
  Forall arrival_is_number (dict_values (customer_waiting self)) ->
  _get_candidate_customers self = Ok candidates ->
  StronglySorted key_le candidates.
Proof.
  intros Hn Hc. destruct (selector_inv _ _ Hc) as [_ ->].
  now apply sort_by_key_sorted, Forall_List_filter.
Qed.

(** X3. No customer is shown twice: after [_get_obs] has returned on a
    state whose waiting dict is keyed by customer id, the visible-slot table
    has no repeated id, and two indices of the observation that hold the
    same id other than the padding value -1 are the same index. *)
Theorem visible_slots_distinct self obs self' :
  waiting_by_id self ->
  _get_obs self = Ok (obs, self') ->
  NoDup (_visible_customer_ids self') /\
  forall (i j : nat) id,
    obs !! i = Some id -> obs !! j = Some id -> id <> INVALID_CUSTOMER_ID -> i = j.
Proof.
  intros Hw Hobs. destruct (_get_obs_inv _ _ _ Hobs) as (candidates & Hc & -> & -> & _).
  cbn [set_visible _visible_customer_ids].
  assert (Hnd : NoDup (Customer.id <$> take 20 candidates)).
  { apply (sublist_NoDup _ (Customer.id <$> candidates));
      [now apply (candidate_ids_NoDup self) | apply fmap_sublist, sublist_take]. }
  split; [exact Hnd|].
  intros i j id Hi Hj Hid.
  assert (Hslot : forall k, pad_visible (Customer.id <$> take 20 candidates) !! k = Some id ->
                            (Customer.id <$> take 20 candidates) !! k = Some id).
  { intros k Hk. unfold pad_visible in Hk. apply lookup_app_Some in Hk as [Hk | [_ Hk]];
      [exact Hk|]. apply lookup_replicate in Hk as [Hk _]. congruence. }
  apply (NoDup_lookup _ i j id Hnd); now apply Hslot.
Qed.

(** X4. When more customers are compatible than the observation can show,
    the ones left out are the last in the order: after [_get_obs] has
    returned (waiting dict keyed by id, arrival times numbers), every
    compatible waiting customer whose id is in the visible-slot table comes
    before, in (arrival time, id) order, every compatible waiting customer
    whose id is not. *)
Theorem visible_are_earliest self obs self' :
  waiting_by_id self ->
  Forall arrival_is_number (dict_values (customer_waiting self)) ->
  _get_obs self = Ok (obs, self') ->
  forall c d,
    c ∈ dict_values (customer_waiting self) -> d ∈ dict_values (customer_waiting self) ->
    serves (current_working_server self) c = true ->
    serves (current_working_server self) d = true ->
    Customer.id c ∈ _visible_customer_ids self' ->
    ~ Customer.id d ∈ _visible_customer_ids self' ->
    key_le c d.
Proof.
  intros Hw Hn Hobs c d Hcw Hdw Hcs Hds Hcv Hdv.
  destruct (_get_obs_inv _ _ _ Hobs) as (candidates & Hc & -> & _ & _).
  cbn [set_visible _visible_customer_ids] in Hcv, Hdv.
  pose proof (candidates_sorted _ _ Hn Hc) as Hsorted.
  rewrite <- (take_drop 20 candidates) in Hsorted.
  apply (StronglySorted_app_le _ _ _ _ _ Hsorted).
  - apply list_elem_of_fmap in Hcv as (c' & Hid & Hc').
    assert (Hc'w : c' ∈ dict_values (customer_waiting self)).
    { apply (candidate_elem _ _ c' Hc).
      apply elem_of_take in Hc' as (i & Hi & _). eapply list_elem_of_lookup_2; exact Hi. }
    destruct Hw as [Hnd Hk].
    pose proof (dict_get_by_id Customer.id _ c Hnd Hk Hcw) as G1.
    pose proof (dict_get_by_id Customer.id _ c' Hnd Hk Hc'w) as G2.
    rewrite Hid, G2 in G1. injection G1 as ->. exact Hc'.
  - assert (Hd : d ∈ candidates) by (apply (candidate_elem _ _ d Hc); auto).
    rewrite <- (take_drop 20 candidates) in Hd. apply elem_of_app in Hd as [Hd | Hd];
      [|exact Hd].
    exfalso. apply Hdv. now apply list_elem_of_fmap_2.
Qed.

(** ** What the decoder can return *)

(** X5. The decoder returns only waiting customers, and can fail in one way
    only: whenever [_get_customer_from_action] returns a customer, the action
    is an integral value in 0..19, the visible-slot table holds at that index
    an id under which the waiting set stores that very customer, and the
    server's average service time for the customer's task exists and is not
    [<= 0]; whenever it raises, the exception is the [KeyError] of a waiting
    customer's task that the server's mapping lacks. *)
Theorem decoder_sound self action :
  (forall c, _get_customer_from_action self action = Ok (Some c) ->
     exists a customer_id t,
       as_integral action = Some a /\ 0 <= a < MAX_VISIBLE_CUSTOMERS /\
       _visible_customer_ids self !! Z.to_nat a = Some customer_id /\
       dict_get (customer_waiting self) customer_id = Some c /\
       c ∈ dict_values (customer_waiting self) /\
       Server.avg_service_time (current_working_server self) !! Customer.task c = Some t /\
       PrimFloat.leb t 0 = false) /\
  (forall e, _get_customer_from_action self action = Raise e ->
     exists c, c ∈ dict_values (customer_waiting self) /\
               Server.avg_service_time (current_working_server self) !! Customer.task c = None /\
               e = KeyError (Customer.task c)).
Proof.
  destruct (decode_cases self action) as (Hnone & Hout & Hin).
  destruct (as_integral action) as [a |] eqn:Ea.
  2:{ rewrite (Hnone eq_refl). split; [intros c | intros e]; discriminate. }
  destruct (decide (a < 0 \/ MAX_VISIBLE_CUSTOMERS <= a \/
                    Z.of_nat (length (_visible_customer_ids self)) <= a)) as [Hr | Hr].
  { rewrite (Hout a eq_refl Hr). split; [intros c | intros e]; discriminate. }
  destruct (lookup_lt_is_Some_2 (_visible_customer_ids self) (Z.to_nat a) ltac:(lia))
    as [cid Hcid].
  specialize (Hin a cid eq_refl ltac:(lia) Hcid).
  destruct (dict_get (customer_waiting self) cid) as [c' |] eqn:Hget.
  2:{ rewrite Hin. split; [intros c | intros e]; discriminate. }
  pose proof (dict_get_values _ _ _ Hget) as Hw.
  destruct (Server.avg_service_time (current_working_server self) !! Customer.task c')
    as [t |] eqn:Ht; rewrite Hin.
  - split; [|intros e; destruct (PrimFloat.leb t 0); discriminate].
    intros c. destruct (PrimFloat.leb t 0) eqn:Hle; [discriminate|]. intros [= <-].
    exists a, cid, t. repeat split; auto; lia.
  - split; [intros c; discriminate|]. intros e [= <-]. exists c'. auto.
Qed.

(** X6. The decoder's compatibility check is the selector's filter, on any
    visible-slot table (fresh or stale): in a state where the selector
    returns, for an in-range integral action whose slot holds the id of a
    waiting customer [c], the server has an average service time [t] for
    [c]'s task; when [t] is a number the decoder returns [c] if and only if
    [c] is among the selector's candidates; when [t] is NaN the decoder
    returns [c] although the selector leaves [c] out ([NaN > 0] and
    [NaN <= 0] are both false). *)
Theorem decoder_accepts_candidates self candidates action a customer_id c :
  _get_candidate_customers self = Ok candidates ->
  as_integral action = Some a ->
  0 <= a < MAX_VISIBLE_CUSTOMERS ->
  _visible_customer_ids self !! Z.to_nat a = Some customer_id ->
  dict_get (customer_waiting self) customer_id = Some c ->
  exists t,
    Server.avg_service_time (current_working_server self) !! Customer.task c = Some t /\
    (PrimFloat.is_nan t = false ->
     (_get_customer_from_action self action = Ok (Some c) <-> c ∈ candidates)) /\
    (PrimFloat.is_nan t = true ->
     _get_customer_from_action self action = Ok (Some c) /\ ~ c ∈ candidates).
Proof.
  intros Hc Hact Ha Hv Hget.
  pose proof (proj2 (proj2 (decode_cases self action)) a customer_id Hact Ha Hv) as D.
  rewrite Hget in D.
  pose proof (dict_get_values _ _ _ Hget) as Hw.
  pose proof (candidate_elem self candidates c Hc) as Hel.
  destruct (selector_inv _ _ Hc) as [Hk _].
  unfold tasks_known in Hk. rewrite Forall_forall in Hk. destruct (Hk c Hw) as [t Ht].
  rewrite Ht in D. exists t. split; [exact Ht|].
  assert (Hs : serves (current_working_server self) c = PrimFloat.ltb 0 t)
    by (unfold serves; now rewrite Ht).
  split.
  - intros Nt. rewrite not_nan_leb_ltb in D by exact Nt. rewrite D, Hel, Hs.
    destruct (PrimFloat.ltb 0 t); cbn [negb]; split.
    + now split.
    + reflexivity.
    + discriminate.
    + intros [_ ?]. discriminate.
  - intros Nt.
    assert (E1 : PrimFloat.ltb 0 t = false) by now apply not_ltb_of_nan.
    assert (E2 : PrimFloat.leb t 0 = false).
    { destruct (PrimFloat.leb t 0) eqn:E; [|reflexivity].
      destruct (leb_true_not_nan _ _ E). congruence. }
    rewrite E2 in D. split; [exact D|].
    intros Hin. apply Hel in Hin as [_ Hs']. congruence.
Qed.

(** ** Failures of the encoder, and the declared observation space *)

(** X7. The [KeyError] of the selector passes through the encoder:
    [_get_obs] raises a [KeyError] exactly when some waiting customer's task
    is not a key of the selected server's [avg_service_time], and the key it
    reports is the task of such a customer; when every task is a key, the
    only exception [_get_obs] can raise is the [OverflowError] of the
    conversion to an int32 array. *)
Theorem _get_obs_failures self :
  (~ tasks_known self <-> exists key, _get_obs self = Raise (KeyError key)) /\
  (tasks_known self -> forall e, _get_obs self = Raise e -> e = OverflowError) /\
  (forall key, _get_obs self = Raise (KeyError key) ->
     exists c, c ∈ dict_values (customer_waiting self) /\ Customer.task c = key /\
               Server.avg_service_time (current_working_server self) !! key = None).
Proof.
  assert (Known : tasks_known self -> forall e, _get_obs self = Raise e -> e = OverflowError).
  { intros Hk e. unfold _get_obs. rewrite (selector_result self Hk), bind_Ok.
    destruct (np_array_int32 _) as [a |] eqn:Ha; [discriminate|].
    intros [= <-]. exact (np_array_int32_raises _ _ Ha). }
  assert (Unknown : ~ tasks_known self ->
            exists c, c ∈ dict_values (customer_waiting self) /\
                      Server.avg_service_time (current_working_server self)
                        !! Customer.task c = None /\
                      _get_obs self = Raise (KeyError (Customer.task c))).
  { intros Hk. destruct (selector_raises self Hk) as (c & Hin & Hnone & Hr).
    exists c. split; [exact Hin|]. split; [exact Hnone|]. unfold _get_obs. now rewrite Hr. }
  split; [|split].
  - split.
    + intros Hk. destruct (Unknown Hk) as (c & _ & _ & Hr). eauto.
    + intros [key Hr] Hk. specialize (Known Hk _ Hr). discriminate.
  - exact Known.
  - intros key Hr.
    destruct (decide (Forall (fun c => is_Some (Server.avg_service_time
                                                  (current_working_server self)
                                                  !! Customer.task c))
                             (dict_values (customer_waiting self)))) as [Hk | Hk].
    + specialize (Known Hk _ Hr). discriminate.
    + destruct (Unknown Hk) as (c & Hin & Hnone & Hr'). rewrite Hr in Hr'.
      injection Hr' as ->. eauto.
Qed.

(** X8. The encoder does not enforce the bounds of the declared observation
    space: an observation that [_get_obs] returns lies in the [Box] of
    [_get_observation_space] (length 20, entries between -1 and 10000) if
    and only if every id of the visible-slot table lies between -1 and
    10000; a visible customer with a larger id gives an observation outside
    the space. *)
Theorem observation_within_declared_space self obs self' :
  _get_obs self = Ok (obs, self') ->
  Box_contains _get_observation_space obs = true <->
  Forall (fun id => INVALID_CUSTOMER_ID <= id <= 10000) (_visible_customer_ids self').
Proof.
  intros Hobs. destruct (_get_obs_inv _ _ _ Hobs) as (candidates & _ & -> & -> & _).
  cbn [set_visible _visible_customer_ids].
  set (visible := Customer.id <$> take 20 candidates).
  assert (Hlen : (length visible <= 20)%nat).
  { unfold visible. rewrite length_fmap, length_take. lia. }
  unfold Box_contains, _get_observation_space. cbn [Box_low Box_high Box_shape].
  rewrite (length_pad_visible _ Hlen).
  change (Z.of_nat 20 =? MAX_VISIBLE_CUSTOMERS) with true. cbn [andb].
  unfold pad_visible. rewrite forallb_app.
  assert (Hpad : forall n, forallb (fun v => (INVALID_CUSTOMER_ID <=? v) && (v <=? 10000))
                                   (replicate n INVALID_CUSTOMER_ID) = true).
  { intros n. induction n as [| n IHn]; [reflexivity | exact IHn]. }
  rewrite Hpad, andb_true_r. rewrite forallb_forall, Forall_forall.
  split; intros H id Hid.
  - apply list_elem_of_In, H, andb_true_iff in Hid as [H1 H2].
    apply Z.leb_le in H1, H2. lia.
  - apply list_elem_of_In, H in Hid. apply andb_true_iff. split; apply Z.leb_le; lia.
Qed.

(** ** Reward shaper: cap, saturation, effect of an appointment *)

(** The punctuality bonus is a finite number. *)
Lemma punctuality_finite t ap :
  is_fin (py_max 0 (4 - abs (t - ap) / 5)) = true.
Proof.
  destruct (punctuality_bounds t ap) as [H0 H4].
  apply (fin_between 0 _ 4); auto.
Qed.

(** X9. Whatever the times are (arrival after the current time, infinite
    or NaN times included), [_get_valid_reward] never returns a value
    greater than 12.0, and never one greater than 8.0 for a customer without
    appointment. *)
Theorem valid_reward_never_above_cap self customer :
  PrimFloat.ltb 12.0 (_get_valid_reward self customer) = false /\
  (appointments self !! Customer.id customer = None ->
   PrimFloat.ltb 8.0 (_get_valid_reward self customer) = false).
Proof.
  destruct (PrimFloat.is_nan (_get_valid_reward self customer)) eqn:N.
  { split; [|intros _]; now apply not_ltb_of_nan. }
  revert N. unfold _get_valid_reward.
  set (m := py_min ((system_time self - Customer.arrival_time customer) / 15) 6).
  assert (Hbase : PrimFloat.is_nan (2 + m) = false -> PrimFloat.leb (2 + m) 8 = true).
  { intros Nb. destruct (add_val_sem _ _ Nb) as (_ & Nm & _).
    change (PrimFloat.leb (2 + m) (2 + 6) = true).
    apply add_mono; [reflexivity | | exact Nb | reflexivity].
    now apply py_min_le_cap. }
  destruct (appointments self !! Customer.id customer) as [ap|]; intros N.
  - split; [|discriminate].
    destruct (add_val_sem _ _ N) as (Nb & NA & _).
    destruct (punctuality_bounds (system_time self) (Appointment.time ap)) as [_ HA4].
    apply leb_not_ltb. change 12%float with (8 + 4)%float.
    apply add_mono; [now apply Hbase | exact HA4 | exact N | reflexivity].
  - split; [|intros _]; apply leb_not_ltb.
    + eapply leb_trans; [now apply Hbase | reflexivity].
    + now apply Hbase.
Qed.

(** X10. The wait bonus saturates at 90 time units: for a customer whose
    waiting time [system_time - arrival_time] is at least 90, the reward no
    longer depends on the waiting time; it equals ([==]) 8.0 without
    appointment and 8.0 plus the punctuality bonus
    [max(0.0, 4.0 - |system_time - appointment.time| / 5.0)] with one. *)
Theorem wait_bonus_saturates self customer :
  PrimFloat.leb 90 (system_time self - Customer.arrival_time customer) = true ->
  PrimFloat.eqb
    (_get_valid_reward self customer)
    match appointments self !! Customer.id customer with
    | Some appointment =>
        8.0 + py_max 0.0 (4.0 - abs (system_time self - Appointment.time appointment) / 5.0)
    | None => 8.0
    end = true.
Proof.
  intros Hw. unfold _get_valid_reward.
  set (w := (system_time self - Customer.arrival_time customer)%float) in *.
  pose proof (div_mono 90 w 15 _ _ (proj1 divisor_constants) ltac:(lia) Hw) as Hq.
  change (90 / 15)%float with 6%float in Hq.
  destruct (leb_true_not_nan _ _ Hq) as [_ Nq].
  assert (Hm : PrimFloat.eqb (py_min (w / 15) 6) 6 = true).
  { unfold py_min. destruct (PrimFloat.ltb 6 (w / 15)) eqn:E; [reflexivity|].
    apply leb_antisym_eqb; [|exact Hq]. apply ltb_false_leb; [reflexivity | exact Nq | exact E]. }
  destruct (eqb_true_not_nan _ _ Hm) as [Nm _].
  assert (Hb : PrimFloat.eqb (2 + py_min (w / 15) 6) 8 = true).
  { change 8%float with (2 + 6)%float.
    apply add_eqb_compat; [reflexivity | exact Hm | | reflexivity].
    apply add_not_nan; [reflexivity | exact Nm | now left]. }
  destruct (appointments self !! Customer.id customer) as [ap|]; [|exact Hb].
  pose proof (punctuality_finite (system_time self) (Appointment.time ap)) as FA.
  pose proof (fin_not_nan _ FA) as NA.
  destruct (eqb_true_not_nan _ _ Hb) as [Nb _].
  apply add_eqb_compat; [exact Hb | now apply float_eqb_refl | |];
    apply add_not_nan; auto.
Qed.

(** X11. An appointment can only add to the reward, and adds nothing when
    it is far: for a customer with an appointment whose base-plus-wait
    amount [2.0 + min((system_time - arrival_time) / 15.0, 6.0)] is a number,
    the reward is at least that amount, and equals ([==]) it when the
    appointment time is 20 or more time units away from the current time. *)
Theorem appointment_bonus_effect self customer appointment :
  appointments self !! Customer.id customer = Some appointment ->
  let base :=
    (2.0 + py_min ((system_time self - Customer.arrival_time customer) / 15.0) 6.0)%float in
  PrimFloat.is_nan base = false ->
  PrimFloat.leb base (_get_valid_reward self customer) = true /\
  (PrimFloat.leb 20 (abs (system_time self - Appointment.time appointment)) = true ->
   PrimFloat.eqb (_get_valid_reward self customer) base = true).
Proof.
  intros Hap base Nb. unfold _get_valid_reward. rewrite Hap. fold base.
  set (d := abs (system_time self - Appointment.time appointment)).
  pose proof (punctuality_finite (system_time self) (Appointment.time appointment)) as FA.
  destruct (punctuality_bounds (system_time self) (Appointment.time appointment)) as [HA0 _].
  fold d in FA, HA0. set (A := py_max 0 (4 - d / 5)) in *.
  pose proof (fin_not_nan _ FA) as NA.
  assert (Ns : PrimFloat.is_nan (base + A) = false) by (apply add_not_nan; auto).
  split.
  - apply leb_add_nonneg; assumption.
  - intros Hd.
    assert (HA : A = 0%float).
    { unfold A, py_max.
      pose proof (div_mono 20 d 5 _ _ (proj2 divisor_constants) ltac:(lia) Hd) as Hq.
      apply opp_antimono in Hq.
      destruct (leb_true_not_nan _ _ Hq) as [Nq _].
      assert (Hle : PrimFloat.leb (4 - d / 5) 0 = true).
      { rewrite sub_add_opp. change 0%float with (4 + - (20 / 5))%float.
        apply add_mono; [reflexivity | exact Hq | | reflexivity].
        apply add_not_nan; [reflexivity | exact Nq | now left]. }
      now rewrite (leb_not_ltb _ _ Hle). }
    rewrite HA.
    assert (N0 : PrimFloat.is_nan (base + 0) = false)
      by (apply add_not_nan; [exact Nb | reflexivity | now right]).
    rewrite eqb_val by assumption. apply Z.eqb_eq.
    destruct (add_val_sem _ _ N0) as (_ & _ & ->). now apply add_sem_0_r.
Qed.

(** ** Heuristic policy: what it returns, and when *)

(** Whatever the loop returns is the incoming best action or one of the
    actions it ran over, whose slot then holds the non-negative id of a
    waiting customer. *)
Lemma predict_loop_result env obs t actions : forall best_action best_score best,
  predict_loop env obs t actions best_action best_score = Ok best ->
  best = best_action \/
  (best ∈ actions /\
   exists customer_id customer,
     obs !! Z.to_nat best = Some customer_id /\ 0 <= customer_id /\
     dict_get (customer_waiting env) customer_id = Some customer).
Proof.
  induction actions as [| a rest IH]; intros ba bs best; cbn [predict_loop].
  - intros [= <-]. now left.
  - assert (Keep : predict_loop env obs t rest ba bs = Ok best ->
              best = ba \/
              (best ∈ a :: rest /\
               exists cid c, obs !! Z.to_nat best = Some cid /\ 0 <= cid /\
                             dict_get (customer_waiting env) cid = Some c)).
    { intros Hr. destruct (IH _ _ _ Hr) as [-> | [Hin Hq]]; [now left | right].
      split; [apply elem_of_cons; now right | exact Hq]. }
    destruct (obs !! Z.to_nat a) as [cid |] eqn:Hcid; [|discriminate].
    destruct (Z.ltb_spec cid 0) as [Hneg | Hpos]; [exact Keep|].
    destruct (dict_get (customer_waiting env) cid) as [c |] eqn:Hget; [|exact Keep].
    destruct (score (appointments env) t cid c) as [s |]; [|discriminate].
    rewrite bind_Ok. destruct (PrimFloat.ltb bs s); [|exact Keep].
    intros Hr. right. destruct (IH _ _ _ Hr) as [-> | [Hin Hq]].
    + split; [apply elem_of_cons; now left | eauto].
    + split; [apply elem_of_cons; now right | exact Hq].
Qed.

(** The loop returns when every slot it reads exists in the observation and
    every customer it scores has an id that converts to a float. *)
Lemma predict_loop_returns env obs t actions : forall best_action best_score,
  Forall (fun a => exists cid, obs !! Z.to_nat a = Some cid /\
            forall c, dict_get (customer_waiting env) cid = Some c ->
                      exists f, float_of_int (Customer.id c) = Ok f) actions ->
  exists best, predict_loop env obs t actions best_action best_score = Ok best.
Proof.
  induction actions as [| a rest IH]; intros ba bs Hall; cbn [predict_loop]; [eauto|].
  apply Forall_cons in Hall as [(cid & Hcid & Hf) Hall]. rewrite Hcid.
  destruct (cid <? 0); [now apply IH|].
  destruct (dict_get (customer_waiting env) cid) as [c |]; [|now apply IH].
  destruct (Hf c eq_refl) as [f Hfl]. unfold score. rewrite Hfl, !bind_Ok.
  match goal with |- context [PrimFloat.ltb bs ?s] => destruct (PrimFloat.ltb bs s) end;
    now apply IH.
Qed.

(** The loop raises when a slot it has to read is past the end of the
    observation. *)
Lemma predict_loop_raises env obs t actions : forall best_action best_score,
  (exists a, a ∈ actions /\ obs !! Z.to_nat a = None) ->
  exists e, predict_loop env obs t actions best_action best_score = Raise e /\
            (e = IndexError \/ e = OverflowError).
Proof.
  induction actions as [| a rest IH]; intros ba bs (a' & Hin & Hnone).
  - inversion Hin.
  - cbn [predict_loop]. destruct (obs !! Z.to_nat a) as [cid |] eqn:Hcid; [|eauto].
    assert (Hrest : exists a, a ∈ rest /\ obs !! Z.to_nat a = None).
    { apply elem_of_cons in Hin as [-> | Hin]; [congruence | eauto]. }
    destruct (cid <? 0); [now apply IH|].
    destruct (dict_get (customer_waiting env) cid) as [c |]; [|now apply IH].
    unfold score. destruct (float_of_int (Customer.id c)) as [f |] eqn:Hf.
    + rewrite !bind_Ok.
      match goal with |- context [PrimFloat.ltb bs ?s] => destruct (PrimFloat.ltb bs s) end;
        now apply IH.
    + exists e. split; [reflexivity|]. right. exact (float_of_int_raises _ _ Hf).
Qed.

Lemma elem_legal_service_actions mask a :
  a ∈ legal_service_actions mask <->
  a <> Z.of_nat (length mask) - 1 /\ exists i : nat, mask !! i = Some true /\ a = Z.of_nat i.
Proof.
  unfold legal_service_actions. rewrite list_elem_of_filter, elem_valid_actions_from.
  split; intros [Hne (i & Hi & ->)]; (split; [exact Hne | exists i; split; [exact Hi | lia]]).
Qed.

Lemma valid_actions_from_sorted mask : forall k,
  StronglySorted Z.lt (valid_actions_from k mask) /\
  Forall (fun a => k <= a) (valid_actions_from k mask).
Proof.
  induction mask as [| b mask IH]; intros k; cbn [valid_actions_from].
  - split; constructor.
  - destruct (IH (k + 1)) as [Hs Hk].
    assert (Hk' : Forall (fun a => k <= a) (valid_actions_from (k + 1) mask)).
    { eapply Forall_impl; [exact Hk|]. cbn. intros; lia. }
    destruct b; [|now split]. split.
    + apply SSorted_cons; [exact Hs|]. eapply Forall_impl; [exact Hk|]. cbn. intros; lia.
    + apply Forall_cons. split; [lia | exact Hk'].
Qed.

Lemma filter_sorted {A} (R : A -> A -> Prop) (P : A -> Prop) `{forall x, Decision (P x)} l :
  StronglySorted R l -> StronglySorted R (filter P l).
Proof.
  induction 1 as [| x l Hs IH Hx]; [constructor|].
  destruct (decide (P x)) as [Hp | Hp].
  - rewrite filter_cons_True by exact Hp. apply SSorted_cons; [exact IH|].
    apply Forall_forall. intros y Hy. apply list_elem_of_filter in Hy as [_ Hy].
    rewrite Forall_forall in Hx. now apply Hx.
  - now rewrite filter_cons_False by exact Hp.
Qed.

(** The loop of [_predict] runs over the legal service actions in ascending
    order. *)
Lemma legal_service_actions_sorted mask : StronglySorted Z.lt (legal_service_actions mask).
Proof. apply filter_sorted, valid_actions_from_sorted. Qed.

(** [_predict] on a non-empty mask, as a function of the legal service
    actions. *)
Lemma _predict_unfold env obs info mask :
  info_action_mask info = Some mask -> mask <> [] ->
  _predict env obs info
  = match legal_service_actions mask with
    | [] => Ok (Z.of_nat (length mask) - 1)
    | _ => predict_loop env obs (default 0%float (info_system_time info))
             (legal_service_actions mask) (Z.of_nat (length mask) - 1) neg_infinity
    end.
Proof.
  intros Hm Hne. unfold _predict. rewrite Hm. change (default [] (Some mask)) with mask.
  destruct mask as [| b mask']; [congruence | reflexivity].
Qed.

(** X12. The policy never leaves the action space and never picks a masked
    or empty slot: for any environment state and observation, with a mask
    of the size of the action space (21), whenever [_predict] returns an
    action it is one of the 21 actions of [_get_action_space], and it is
    either HOLD (20) or a slot that the mask allows and whose observed id is
    non-negative and is the key of a waiting customer. *)
Theorem policy_action_in_space env obs info mask a :
  info_action_mask info = Some mask ->
  Z.of_nat (length mask) = Discrete_n _get_action_space ->
  _predict env obs info = Ok a ->
  Discrete_contains _get_action_space a = true /\
  (a = _get_hold_action_number \/
   (mask !! Z.to_nat a = Some true /\
    exists customer_id customer,
      obs !! Z.to_nat a = Some customer_id /\ 0 <= customer_id /\
      dict_get (customer_waiting env) customer_id = Some customer)).
Proof.
  unfold Discrete_contains, _get_action_space, _get_hold_action_number, MAX_VISIBLE_CUSTOMERS.
  cbn [Discrete_n]. intros Hm Hlen Hp.
  assert (Hne : mask <> []) by (intros ->; cbn in Hlen; lia).
  rewrite (_predict_unfold _ _ _ _ Hm Hne), Hlen in Hp.
  change (20 + 1 - 1) with 20 in Hp.
  assert (Hbest : a = 20 \/
            (a ∈ legal_service_actions mask /\
             exists cid c, obs !! Z.to_nat a = Some cid /\ 0 <= cid /\
                           dict_get (customer_waiting env) cid = Some c)).
  { destruct (legal_service_actions mask) as [| a0 rest] eqn:El.
    - left. now injection Hp as <-.
    - exact (predict_loop_result _ _ _ _ _ _ _ Hp). }
  destruct Hbest as [-> | [Hin Hq]]; [split; [reflexivity | now left]|].
  apply elem_legal_service_actions in Hin as (_ & i & Hi & ->).
  pose proof (lookup_lt_Some _ _ _ Hi) as Hlt.
  split; [|right; split; [now rewrite Nat2Z.id | exact Hq]].
  apply andb_true_iff. split; [apply Z.leb_le | apply Z.ltb_lt]; lia.
Qed.

(** X13. Fed the environment's own observation and mask, the policy returns
    and its choice is valid: after [_get_obs] has returned (waiting dict
    keyed by id), [_predict] on that observation and on the mask of
    [action_masks] raises nothing and returns an action that the mask allows
    and that is HOLD or decodes, by [_get_customer_from_action], to the
    waiting customer whose id the observation shows in that slot. *)
Theorem policy_on_own_observation self obs self' info :
  waiting_by_id self ->
  _get_obs self = Ok (obs, self') ->
  info_action_mask info = Some (action_masks self') ->
  exists a,
    _predict self' obs info = Ok a /\
    action_masks self' !! Z.to_nat a = Some true /\
    (a = _get_hold_action_number \/
     exists c, _get_customer_from_action self' (PyInt a) = Ok (Some c) /\
               obs !! Z.to_nat a = Some (Customer.id c)).
Proof.
  unfold _get_hold_action_number, MAX_VISIBLE_CUSTOMERS.
  intros Hw Hobs Hm.
  destruct (_get_obs_inv _ _ _ Hobs) as (candidates & Hc & Hself & Hobs' & H32).
  set (mask := action_masks self') in *.
  assert (Hlen : length mask = 21%nat).
  { unfold mask. rewrite action_masks_shape, !length_app, !length_replicate. cbn. lia. }
  assert (Hne : mask <> []) by (intros E; rewrite E in Hlen; discriminate).
  assert (Hvis : length (_visible_customer_ids self') = Nat.min 20 (length candidates)).
  { rewrite Hself. cbn [set_visible _visible_customer_ids].
    now rewrite length_fmap, length_take. }
  (* a legal service action is a populated slot *)
  assert (Hslot : forall a, a ∈ legal_service_actions mask ->
            exists (i : nat) c, a = Z.of_nat i /\ (i < 20)%nat /\ candidates !! i = Some c /\
                                mask !! i = Some true /\ obs !! i = Some (Customer.id c)).
  { intros a Ha. apply elem_legal_service_actions in Ha as (Hne' & i & Hi & ->).
    pose proof (lookup_lt_Some _ _ _ Hi) as Hlt. rewrite Hlen in Hne', Hlt.
    assert (Hi20 : (i < 20)%nat) by lia.
    unfold mask in Hi. rewrite mask_lookup_service in Hi by exact Hi20.
    injection Hi as Hi. apply bool_decide_eq_true in Hi.
    destruct (lookup_lt_is_Some_2 candidates i ltac:(lia)) as [c Hci].
    exists i, c. split; [reflexivity|]. split; [exact Hi20|]. split; [exact Hci|]. split.
    - unfold mask. rewrite mask_lookup_service by exact Hi20.
      now rewrite bool_decide_eq_true_2 by exact Hi.
    - rewrite Hobs'. unfold pad_visible. apply lookup_app_l_Some.
      rewrite list_lookup_fmap, lookup_take_lt, Hci by lia. reflexivity. }
  (* the policy returns *)
  assert (Hret : exists a, _predict self' obs info = Ok a /\
                           (a = 20 \/ a ∈ legal_service_actions mask)).
  { rewrite (_predict_unfold _ _ _ _ Hm Hne), Hlen.
    change (Z.of_nat 21 - 1) with 20.
    destruct (legal_service_actions mask) as [| a0 rest] eqn:El; [eauto|].
    rewrite <- El in *.
    destruct (predict_loop_returns self' obs (default 0%float (info_system_time info))
                (legal_service_actions mask) 20 neg_infinity) as [best Hbest].
    - apply Forall_forall. intros a Ha.
      destruct (Hslot a Ha) as (i & c & -> & Hi & Hci & _ & Hoi).
      exists (Customer.id c). rewrite Nat2Z.id. split; [exact Hoi|].
      intros c' Hc'. apply float_of_int_int32.
      rewrite Hself in Hc'. cbn [set_visible customer_waiting] in Hc'.
      rewrite (dict_get_key Customer.id _ _ _ (proj2 Hw) Hc').
      rewrite Forall_forall in H32. apply H32. eapply list_elem_of_lookup_2. exact Hoi.
    - exists best. split; [exact Hbest|].
      destruct (predict_loop_result _ _ _ _ _ _ _ Hbest) as [-> | [Hin _]]; auto. }
  destruct Hret as (a & Hp & Ha). exists a. split; [exact Hp|].
  destruct Ha as [-> | Ha].
  - split; [|now left]. unfold mask. rewrite action_masks_shape.
    rewrite lookup_app_r by (rewrite length_replicate; lia).
    rewrite lookup_app_r by (rewrite !length_replicate; lia).
    rewrite !length_replicate.
    match goal with |- [true] !! ?k = _ => replace k with 0%nat by lia end. reflexivity.
  - destruct (Hslot a Ha) as (i & c & -> & Hi & Hci & Hmi & Hoi). rewrite Nat2Z.id.
    split; [exact Hmi|]. right. exists c. split; [|exact Hoi].
    rewrite Hself. now apply decode_visible_slot with (i := i).
Qed.

(** The loop over ascending actions: the result is the incoming best when no
    slot scored above it, and otherwise the first slot of maximum score. *)
Lemma predict_loop_first env obs t actions :
  StronglySorted Z.lt actions ->
  forall best_action best_score,
    PrimFloat.is_nan best_score = false ->
    Forall (scorable env obs t) actions ->
    exists best sb,
      predict_loop env obs t actions best_action best_score = Ok best /\
      ((best = best_action /\ sb = best_score /\
        forall a s, a ∈ actions -> scored env obs t a s ->
                    PrimFloat.leb s best_score = true) \/
       (best ∈ actions /\ scored env obs t best sb /\
        PrimFloat.ltb best_score sb = true /\
        (forall a s, a ∈ actions -> scored env obs t a s -> PrimFloat.leb s sb = true) /\
        (forall a s, a ∈ actions -> a < best -> scored env obs t a s ->
                     PrimFloat.ltb s sb = true))).
Proof.
  induction 1 as [| a rest Hsorted IH Hlt]; intros ba bs Nbs Hall.
  - exists ba, bs. cbn [predict_loop]. split; [reflexivity|]. left.
    split; [reflexivity|]. split; [reflexivity|]. intros a s Ha. inversion Ha.
  - apply Forall_cons in Hall as [[[cid Hcid] Hsc] Hall].
    rewrite Forall_forall in Hlt.
    cbn [predict_loop]. rewrite Hcid.
    (* a skipped slot leaves the best unchanged *)
    assert (Skip : (forall s, ~ scored env obs t a s) ->
      exists best sb,
        predict_loop env obs t rest ba bs = Ok best /\
        ((best = ba /\ sb = bs /\
          forall a' s, a' ∈ a :: rest -> scored env obs t a' s -> PrimFloat.leb s bs = true) \/
         (best ∈ a :: rest /\ scored env obs t best sb /\ PrimFloat.ltb bs sb = true /\
          (forall a' s, a' ∈ a :: rest -> scored env obs t a' s -> PrimFloat.leb s sb = true) /\
          (forall a' s, a' ∈ a :: rest -> a' < best -> scored env obs t a' s ->
                        PrimFloat.ltb s sb = true)))).
    { intros Hno. destruct (IH ba bs Nbs Hall) as (best & sb & Hr & Hcase).
      exists best, sb. split; [exact Hr|].
      destruct Hcase as [(-> & -> & Hmax) | (Hin & Hs & Hgt & Hmax & Hfirst)].
      - left. split; [reflexivity|]. split; [reflexivity|].
        intros a' s Ha' Hs. apply elem_of_cons in Ha' as [-> | Ha'];
          [now destruct (Hno s) | eauto].
      - right. split; [apply elem_of_cons; now right|]. split; [exact Hs|].
        split; [exact Hgt|]. split.
        + intros a' s Ha' Hs'. apply elem_of_cons in Ha' as [-> | Ha'];
            [now destruct (Hno s) | eauto].
        + intros a' s Ha' Hlt' Hs'. apply elem_of_cons in Ha' as [-> | Ha'];
            [now destruct (Hno s) | eauto]. }
    destruct (Z.ltb_spec cid 0) as [Hneg | Hpos].
    { apply Skip. intros s (cid' & c & Ho & Hge & _). rewrite Hcid in Ho.
      injection Ho as <-. lia. }
    destruct (dict_get (customer_waiting env) cid) as [c|] eqn:Hget.
    2:{ apply Skip. intros s (cid' & c & Ho & _ & Hd & _). rewrite Hcid in Ho.
        injection Ho as <-. congruence. }
    destruct (Hsc cid c Hcid Hpos Hget) as (s & Hs & Hinf). rewrite Hs, bind_Ok.
    destruct (ltb_true_not_nan _ _ Hinf) as [_ Ns].
    assert (Ha : scored env obs t a s) by (exists cid, c; auto).
    destruct (PrimFloat.ltb bs s) eqn:Hbs.
    + (* the slot becomes the best *)
      destruct (IH a s Ns Hall) as (best & sb & Hr & Hcase).
      exists best, sb. split; [exact Hr|]. right.
      destruct Hcase as [(-> & -> & Hmax) | (Hin & Hsb & Hgt & Hmax & Hfirst)].
      * split; [apply elem_of_cons; now left|]. split; [exact Ha|]. split; [exact Hbs|]. split.
        -- intros a' s' Ha' Hs'. apply elem_of_cons in Ha' as [-> | Ha']; [|eauto].
           rewrite (scored_functional _ _ _ _ _ _ Hs' Ha). now apply leb_refl.
        -- intros a' s' Ha' Hlt' _. apply elem_of_cons in Ha' as [-> | Ha']; [lia|].
           specialize (Hlt a' Ha'). lia.
      * split; [apply elem_of_cons; now right|]. split; [exact Hsb|].
        split; [exact (float_ltb_trans _ _ _ Hbs Hgt)|]. split.
        -- intros a' s' Ha' Hs'. apply elem_of_cons in Ha' as [-> | Ha']; [|eauto].
           rewrite (scored_functional _ _ _ _ _ _ Hs' Ha). now apply ltb_leb.
        -- intros a' s' Ha' Hlt' Hs'. apply elem_of_cons in Ha' as [-> | Ha']; [|eauto].
           now rewrite (scored_functional _ _ _ _ _ _ Hs' Ha).
    + (* the slot does not beat the best *)
      assert (Hle : PrimFloat.leb s bs = true) by now apply ltb_false_leb.
      destruct (IH ba bs Nbs Hall) as (best & sb & Hr & Hcase).
      exists best, sb. split; [exact Hr|].
      destruct Hcase as [(-> & -> & Hmax) | (Hin & Hsb & Hgt & Hmax & Hfirst)].
      * left. split; [reflexivity|]. split; [reflexivity|].
        intros a' s' Ha' Hs'. apply elem_of_cons in Ha' as [-> | Ha']; [|eauto].
        now rewrite (scored_functional _ _ _ _ _ _ Hs' Ha).
      * right. split; [apply elem_of_cons; now right|]. split; [exact Hsb|].
        split; [exact Hgt|]. split.
        -- intros a' s' Ha' Hs'. apply elem_of_cons in Ha' as [-> | Ha']; [|eauto].
           rewrite (scored_functional _ _ _ _ _ _ Hs' Ha).
           apply ltb_leb. exact (leb_ltb_trans _ _ _ Hle Hgt).
        -- intros a' s' Ha' Hlt' Hs'. apply elem_of_cons in Ha' as [-> | Ha']; [|eauto].
           rewrite (scored_functional _ _ _ _ _ _ Hs' Ha).
           exact (leb_ltb_trans _ _ _ Hle Hgt).
Qed.

(** X14. Among equal scores the lowest slot wins: on a non-empty mask whose
    legal service slots the observation covers and whose scores are numbers
    above -inf, the action [_predict] returns has a score at least that of
    every legal service slot, and strictly greater than that of every legal
    service slot of lower index (the comparison [score > best_score] is
    strict and the slots are visited in ascending order). *)
Theorem policy_keeps_first_maximum env obs info mask :
  info_action_mask info = Some mask -> mask <> [] ->
  Forall (scorable env obs (default 0%float (info_system_time info)))
         (legal_service_actions mask) ->
  exists best,
    _predict env obs info = Ok best /\
    forall a s sb,
      a ∈ legal_service_actions mask ->
      scored env obs (default 0%float (info_system_time info)) a s ->
      scored env obs (default 0%float (info_system_time info)) best sb ->
      PrimFloat.leb s sb = true /\ (a < best -> PrimFloat.ltb s sb = true).
Proof.
  intros Hm Hne Hall. set (t := default 0%float (info_system_time info)) in *.
  rewrite (_predict_unfold _ _ _ _ Hm Hne). fold t.
  destruct (predict_loop_first env obs t (legal_service_actions mask)
              (legal_service_actions_sorted mask) (Z.of_nat (length mask) - 1)
              neg_infinity eq_refl Hall) as (best & sb' & Hr & Hcase).
  assert (Hnone : (forall a s, a ∈ legal_service_actions mask -> scored env obs t a s ->
                               PrimFloat.leb s neg_infinity = true) ->
                  forall a s, a ∈ legal_service_actions mask -> ~ scored env obs t a s).
  { intros Hmax a s Ha Hs. pose proof (Hmax a s Ha Hs) as Hle.
    rewrite Forall_forall in Hall. destruct (Hall a Ha) as [_ Hnum].
    destruct Hs as (cid & c & Ho & Hge & Hd & Hsc).
    destruct (Hnum cid c Ho Hge Hd) as (s' & Hs' & Hinf).
    rewrite Hsc in Hs'. injection Hs' as <-.
    rewrite (leb_not_ltb _ _ Hle) in Hinf. discriminate. }
  destruct (legal_service_actions mask) as [| a0 rest] eqn:El.
  - exists (Z.of_nat (length mask) - 1). split; [reflexivity|].
    intros a s sb Ha. inversion Ha.
  - exists best. split; [exact Hr|]. intros a s sb Ha Hs Hb.
    destruct Hcase as [(_ & _ & Hmax) | (_ & Hsb & _ & Hmax & Hfirst)].
    + now destruct (Hnone Hmax a s Ha).
    + rewrite (scored_functional _ _ _ _ _ _ Hb Hsb). split; [now apply (Hmax a) | eauto].
Qed.

(** X15. The policy needs every legal service slot in the observation: on
    a non-empty mask, when some legal service action indexes past the end of
    the observation, [_predict] returns no action; it raises [IndexError]
    (or the [OverflowError] of an id too large for a float, met earlier in
    the loop). *)
Theorem policy_needs_observed_slots env obs info mask a :
  info_action_mask info = Some mask -> mask <> [] ->
  a ∈ legal_service_actions mask -> obs !! Z.to_nat a = None ->
  exists e, _predict env obs info = Raise e /\ (e = IndexError \/ e = OverflowError).
Proof.
  intros Hm Hne Ha Hnone. rewrite (_predict_unfold _ _ _ _ Hm Hne).
  destruct (legal_service_actions mask) as [| a0 rest] eqn:El; [inversion Ha|].
  apply predict_loop_raises. eauto.
Qed.

(** X16. With nobody to serve, everything holds: in a state where every
    waiting customer's task is a key of the server's mapping and no waiting
    customer is served (in particular when nobody waits), [_get_obs] returns
    twenty -1 and empties the visible-slot table; then every action decodes
    to no customer, the mask is [False] at every service slot, and
    [_predict] on that mask returns HOLD (20) whatever the observation. *)
Theorem nobody_to_serve self :
  tasks_known self ->
  (forall c, c ∈ dict_values (customer_waiting self) ->
             serves (current_working_server self) c = false) ->
  _get_obs self
  = Ok (replicate (Z.to_nat MAX_VISIBLE_CUSTOMERS) INVALID_CUSTOMER_ID, set_visible self []) /\
  (forall action, _get_customer_from_action (set_visible self []) action = Ok None) /\
  (forall i, (i < Z.to_nat MAX_VISIBLE_CUSTOMERS)%nat ->
             action_masks (set_visible self []) !! i = Some false) /\
  (forall obs info,
     info_action_mask info = Some (action_masks (set_visible self [])) ->
     _predict (set_visible self []) obs info = Ok _get_hold_action_number).
Proof.
  intros Hk Hnone.
  assert (Hc : _get_candidate_customers self = Ok []).
  { rewrite (selector_result self Hk), (List_filter_none _ _ Hnone). reflexivity. }
  split; [|split; [|split]].
  - unfold _get_obs. rewrite Hc. reflexivity.
  - intros action. destruct (as_integral action) as [a |] eqn:Ea.
    + apply (proj1 (proj2 (decode_cases (set_visible self []) action)) a Ea).
      cbn [set_visible _visible_customer_ids length]. lia.
    + exact (proj1 (decode_cases (set_visible self []) action) Ea).
  - change (Z.to_nat MAX_VISIBLE_CUSTOMERS) with 20%nat. intros i Hi.
    rewrite mask_lookup_service by exact Hi. reflexivity.
  - intros obs info Hm.
    rewrite (_predict_unfold _ _ _ _ Hm); [reflexivity | discriminate].
Qed.

(** ** The score: arrival time and appointment *)

(** X17. Earlier arrival never scores lower: for two customers with the
    same id scored in the same slot at the same time with the same
    appointments, whose scores are numbers, the one whose arrival time is
    smaller or equal has a score greater than or equal to the other's. *)
Theorem score_favours_earlier_arrival appointments sim_time customer_id c1 c2 s1 s2 :
  Customer.id c1 = Customer.id c2 ->
  PrimFloat.leb (Customer.arrival_time c1) (Customer.arrival_time c2) = true ->
  score appointments sim_time customer_id c1 = Ok s1 ->
  score appointments sim_time customer_id c2 = Ok s2 ->
  PrimFloat.is_nan s1 = false -> PrimFloat.is_nan s2 = false ->
  PrimFloat.leb s2 s1 = true.
Proof.
  intros Hid Harr. unfold score. rewrite <- Hid.
  destruct (float_of_int (Customer.id c1)) as [idf |]; [|discriminate].
  rewrite !bind_Ok. intros [= <-] [= <-] N1 N2.
  destruct (sub_not_nan_inv _ _ N1) as [NX1 _]. destruct (sub_not_nan_inv _ _ N2) as [NX2 _].
  apply sub_mono_l; [|exact N2 | exact N1].
  destruct (appointments !! customer_id) as [ap |].
  - destruct (PrimFloat.ltb sim_time (Appointment.time ap - 30)).
    + destruct (sub_not_nan_inv _ _ NX1) as [NY1 _].
      destruct (sub_not_nan_inv _ _ NX2) as [NY2 _].
      apply sub_mono_l; [|exact NX2 | exact NX1].
      destruct (add_val_sem _ _ NY1) as (Nw1 & _ & _).
      destruct (add_val_sem _ _ NY2) as (Nw2 & _ & _).
      apply add_mono_l; [|exact NY2 | exact NY1]. now apply sub_mono_r.
    + destruct (add_val_sem _ _ NX1) as (Nw1 & _ & _).
      destruct (add_val_sem _ _ NX2) as (Nw2 & _ & _).
      apply add_mono_l; [|exact NX2 | exact NX1]. now apply sub_mono_r.
  - now apply sub_mono_r.
Qed.

(** X18. An appointment that is not more than 30 time units ahead never
    lowers the score: for the same customer at the same time, when the
    current time is not below [appointment.time - 30.0] and the score with
    the appointment is a number, the score without any appointment is less
    than or equal to the score with it. *)
Theorem appointment_never_lowers_score
    appointments_without appointments_with sim_time customer_id customer appointment s1 s2 :
  appointments_without !! customer_id = None ->
  appointments_with !! customer_id = Some appointment ->
  PrimFloat.ltb sim_time (Appointment.time appointment - 30.0) = false ->
  score appointments_without sim_time customer_id customer = Ok s1 ->
  score appointments_with sim_time customer_id customer = Ok s2 ->
  PrimFloat.is_nan s2 = false ->
  PrimFloat.leb s1 s2 = true.
Proof.
  intros H1 H2 Hearly. unfold score. rewrite H1, H2, Hearly.
  destruct (float_of_int (Customer.id customer)) as [idf |]; [|discriminate].
  rewrite !bind_Ok. intros [= <-] [= <-] N2.
  destruct (sub_not_nan_inv _ _ N2) as [NY NK].
  destruct (add_val_sem _ _ NY) as (Nw & _ & _).
  assert (Hle : PrimFloat.leb (sim_time - Customer.arrival_time customer)
                  (sim_time - Customer.arrival_time customer
                   + py_max 0 (120 - 4 * abs (sim_time - Appointment.time appointment)))
                = true)
    by (apply leb_add_nonneg; [apply py_max_nonneg | exact NY]).
  apply sub_mono_l; [exact Hle | | exact N2].
  (* the score without the appointment is a number as well *)
  rewrite sub_add_opp in N2 |- *.
  destruct (PrimFloat.is_nan (sim_time - Customer.arrival_time customer
                              + - (idf * tie_break_weight))) eqn:N1; [|reflexivity].
  assert (NK' : PrimFloat.is_nan (- (idf * tie_break_weight)) = false)
    by (rewrite is_nan_opp; exact NK).
  rewrite (add_nan_absorbs _ _ _ Nw NK' NY N1) in N2. discriminate.
Qed.

(** ** Valid against invalid reward; candidates after a departure *)

(** X19. A valid action is never rewarded less than an invalid one, unless
    the customer's arrival lies more than 180 time units in the future: when
    the waiting time [system_time - arrival_time] is at least -180,
    [_get_valid_reward] is at least [_get_invalid_action_reward] (-10.0);
    below that threshold it can be smaller (arrival at 200, time 0). *)
Theorem valid_reward_above_invalid :
  (forall self customer,
     PrimFloat.leb (-180) (system_time self - Customer.arrival_time customer) = true ->
     PrimFloat.leb _get_invalid_action_reward (_get_valid_reward self customer) = true) /\
  (exists self customer,
     PrimFloat.ltb (_get_valid_reward self customer) _get_invalid_action_reward = true).
Proof.
  split.
  - intros self customer Hw. unfold _get_valid_reward, _get_invalid_action_reward.
    set (w := (system_time self - Customer.arrival_time customer)%float) in *.
    pose proof (div_mono (-180) w 15 _ _ (proj1 divisor_constants) ltac:(lia) Hw) as Hq.
    change (-180 / 15)%float with (-12)%float in Hq.
    destruct (py_min_bounds (-12) (w / 15) 6 Hq eq_refl) as [Hm _].
    set (m := py_min (w / 15) 6) in *.
    destruct (leb_true_not_nan _ _ Hm) as [_ Nm].
    assert (Nb : PrimFloat.is_nan (2 + m) = false)
      by (apply add_not_nan; [reflexivity | exact Nm | now left]).
    assert (Hb : PrimFloat.leb (-10) (2 + m) = true).
    { change (-10)%float with (2 + -12)%float.
      apply add_mono; [reflexivity | exact Hm | reflexivity | exact Nb]. }
    destruct (appointments self !! Customer.id customer) as [ap |]; [|exact Hb].
    eapply leb_trans; [exact Hb|].
    apply leb_add_nonneg; [apply py_max_nonneg|].
    apply add_not_nan; [exact Nb | | right; apply punctuality_finite].
    apply fin_not_nan, punctuality_finite.
  - exists {| customer_waiting := []; appointments := ∅;
              current_working_server := {| Server.id := 0; Server.avg_service_time := ∅ |};
              system_time := 0; _visible_customer_ids := [] |},
           {| Customer.id := 1; Customer.arrival_time := 200; Customer.task := 0 |}.
    reflexivity.
Qed.

Lemma List_filter_comm {A} (f g : A -> bool) l :
  List.filter f (List.filter g l) = List.filter g (List.filter f l).
Proof.
  induction l as [| x l IH]; [reflexivity|]. cbn [List.filter].
  destruct (f x) eqn:Ef, (g x) eqn:Eg; cbn [List.filter]; rewrite ?Ef, ?Eg, IH; reflexivity.
Qed.

Lemma List_filter_sorted {A} (R : A -> A -> Prop) (f : A -> bool) l :
  StronglySorted R l -> StronglySorted R (List.filter f l).
Proof.
  induction 1 as [| x l Hs IH Hx]; cbn [List.filter]; [constructor|].
  destruct (f x); [|exact IH]. apply SSorted_cons; [exact IH|].
  now apply Forall_List_filter.
Qed.

(** X20. Departures never reorder the remaining candidates: if the waiting
    customers of a second state are those of the first that satisfy some
    test (the others have left), with the same selected server, then the
    selector returns on the second state the candidates of the first that
    satisfy the test, in the same relative order (ids telling the waiting
    customers apart, arrival times being numbers). *)
Theorem candidates_after_departure self self' (stay : Customer.t -> bool) candidates :
  ids_identify (dict_values (customer_waiting self)) ->
  Forall arrival_is_number (dict_values (customer_waiting self)) ->
  current_working_server self' = current_working_server self ->
  dict_values (customer_waiting self')
  = List.filter stay (dict_values (customer_waiting self)) ->
  _get_candidate_customers self = Ok candidates ->
  _get_candidate_customers self' = Ok (List.filter stay candidates).
Proof.
  intros Hid Hn Hs Hw Hc. destruct (selector_inv _ _ Hc) as [Hk ->].
  assert (Hk' : tasks_known self').
  { unfold tasks_known. rewrite Hs, Hw. now apply Forall_List_filter. }
  rewrite (selector_result self' Hk'), Hs, Hw. f_equal.
  set (f := serves (current_working_server self)).
  set (l := dict_values (customer_waiting self)) in *.
  assert (Hin : forall c, c ∈ List.filter f (List.filter stay l) -> c ∈ l).
  { intros c H. apply elem_of_List_filter in H as [H _].
    apply elem_of_List_filter in H as [H _]. exact H. }
  assert (Hn1 : Forall arrival_is_number (List.filter f (List.filter stay l)))
    by now apply Forall_List_filter, Forall_List_filter.
  apply sorted_perm_eq.
  - rewrite sort_by_key_perm. exact Hn1.
  - intros c d Hc' Hd'. rewrite sort_by_key_perm in Hc', Hd'. apply Hid; now apply Hin.
  - now apply sort_by_key_sorted.
  - apply List_filter_sorted, sort_by_key_sorted. now apply Forall_List_filter.
  - rewrite sort_by_key_perm, List_filter_comm.
    apply List_filter_perm. symmetry. apply sort_by_key_perm.
Qed.

(** * Instances of the further properties *)

Lemma waiting_by_id_example : waiting_by_id example_env.
Proof.
  split; [apply (bool_decide_unpack _); vm_compute; reflexivity | repeat constructor].
Defined.

Lemma _get_obs_example : _get_obs example_env = Ok (example_obs, example_observed_env).
Proof. vm_compute. reflexivity. Defined.

Lemma scorable_example :
  Forall (scorable example_observed_env example_obs
            (default 0%float (info_system_time example_info)))
         (legal_service_actions (action_masks example_observed_env)).
Proof.
  change (legal_service_actions (action_masks example_observed_env)) with [0; 1].
  change (default 0%float (info_system_time example_info)) with 50%float.
  repeat constructor.
  - exists 1. reflexivity.
  - intros cid c H1 _ H2. vm_compute in H1. injection H1 as <-.
    vm_compute in H2. injection H2 as <-. eexists. split; vm_compute; reflexivity.
  - exists 2. reflexivity.
  - intros cid c H1 _ H2. vm_compute in H1. injection H1 as <-.
    vm_compute in H2. injection H2 as <-. eexists. split; vm_compute; reflexivity.
Defined.

Lemma observe_then_decode_witness :
  waiting_by_id example_env /\
  _get_obs example_env = Ok (example_obs, example_observed_env) /\
  exists candidates,
    _get_candidate_customers example_env = Ok candidates /\
    forall (i : nat) c action,
      (i < Z.to_nat MAX_VISIBLE_CUSTOMERS)%nat -> candidates !! i = Some c ->
      as_integral action = Some (Z.of_nat i) ->
      example_obs !! i = Some (Customer.id c) /\
      _get_customer_from_action example_observed_env action = Ok (Some c).
Proof.
  split; [exact waiting_by_id_example|]. split; [exact _get_obs_example|].
  exact (observe_then_decode example_env example_obs example_observed_env
           waiting_by_id_example _get_obs_example).
Defined.

Lemma mask_agrees_with_decoder_witness :
  waiting_by_id example_env /\
  _get_obs example_env = Ok (example_obs, example_observed_env) /\
  as_integral (PyNpInteger 1) = Some 1 /\
  exists c, _get_customer_from_action example_observed_env (PyNpInteger 1) = Ok (Some c).
Proof.
  split; [exact waiting_by_id_example|]. split; [exact _get_obs_example|].
  split; [reflexivity|].
  apply (mask_agrees_with_decoder example_env example_obs example_observed_env
           waiting_by_id_example _get_obs_example (PyNpInteger 1) 1 eq_refl).
  split; [unfold _get_hold_action_number, MAX_VISIBLE_CUSTOMERS; lia | reflexivity].
Defined.

Lemma visible_slots_distinct_witness :
  waiting_by_id example_env /\
  _get_obs example_env = Ok (example_obs, example_observed_env) /\
  NoDup (_visible_customer_ids example_observed_env).
Proof.
  split; [exact waiting_by_id_example|]. split; [exact _get_obs_example|].
  exact (proj1 (visible_slots_distinct example_env example_obs example_observed_env
                  waiting_by_id_example _get_obs_example)).
Defined.

Lemma visible_are_earliest_witness :
  waiting_by_id crowded_env /\
  Forall arrival_is_number (dict_values (customer_waiting crowded_env)) /\
  _get_obs crowded_env
  = Ok (Z.of_nat <$> seq 1 20, set_visible crowded_env (Z.of_nat <$> seq 1 20)) /\
  crowd_customer 20 ∈ dict_values (customer_waiting crowded_env) /\
  crowd_customer 21 ∈ dict_values (customer_waiting crowded_env) /\
  serves (current_working_server crowded_env) (crowd_customer 20) = true /\
  serves (current_working_server crowded_env) (crowd_customer 21) = true /\
  Customer.id (crowd_customer 20)
    ∈ _visible_customer_ids (set_visible crowded_env (Z.of_nat <$> seq 1 20)) /\
  ~ Customer.id (crowd_customer 21)
      ∈ _visible_customer_ids (set_visible crowded_env (Z.of_nat <$> seq 1 20)) /\
  key_le (crowd_customer 20) (crowd_customer 21).
Proof.
  assert (H1 : waiting_by_id crowded_env).
  { split; [apply (bool_decide_unpack _); vm_compute; reflexivity | repeat constructor]. }
  assert (H2 : Forall arrival_is_number (dict_values (customer_waiting crowded_env)))
    by (repeat constructor).
  assert (H3 : _get_obs crowded_env
               = Ok (Z.of_nat <$> seq 1 20, set_visible crowded_env (Z.of_nat <$> seq 1 20)))
    by (vm_compute; reflexivity).
  assert (H4 : crowd_customer 20 ∈ dict_values (customer_waiting crowded_env))
    by (apply (list_elem_of_lookup_2 _ 19); reflexivity).
  assert (H5 : crowd_customer 21 ∈ dict_values (customer_waiting crowded_env))
    by (apply (list_elem_of_lookup_2 _ 20); reflexivity).
  assert (H6 : Customer.id (crowd_customer 20)
                 ∈ _visible_customer_ids (set_visible crowded_env (Z.of_nat <$> seq 1 20)))
    by (apply (list_elem_of_lookup_2 _ 19); reflexivity).
  assert (H7 : ~ Customer.id (crowd_customer 21)
                   ∈ _visible_customer_ids (set_visible crowded_env (Z.of_nat <$> seq 1 20)))
    by (apply (bool_decide_unpack _); vm_compute; reflexivity).
  repeat (split; [first [assumption | reflexivity]|]).
  exact (visible_are_earliest crowded_env _ _ H1 H2 H3 _ _ H4 H5 eq_refl eq_refl H6 H7).
Defined.

Lemma decoder_sound_witness :
  _get_customer_from_action example_observed_env (PyInt 1) = Ok (Some example_B) /\
  example_B ∈ dict_values (customer_waiting example_observed_env).
Proof.
  assert (H : _get_customer_from_action example_observed_env (PyInt 1) = Ok (Some example_B))
    by reflexivity.
  split; [exact H|].
  destruct (proj1 (decoder_sound example_observed_env (PyInt 1)) example_B H)
    as (a & cid & t & _ & _ & _ & _ & Hin & _).
  exact Hin.
Defined.

Lemma decoder_accepts_candidates_witness :
  _get_candidate_customers example_observed_env = Ok [example_A; example_B] /\
  as_integral (PyInt 0) = Some 0 /\
  0 <= 0 < MAX_VISIBLE_CUSTOMERS /\
  _visible_customer_ids example_observed_env !! Z.to_nat 0 = Some 1 /\
  dict_get (customer_waiting example_observed_env) 1 = Some example_A /\
  exists t,
    Server.avg_service_time (current_working_server example_observed_env)
      !! Customer.task example_A = Some t.
Proof.
  assert (H1 : _get_candidate_customers example_observed_env = Ok [example_A; example_B])
    by reflexivity.
  assert (H2 : 0 <= 0 < MAX_VISIBLE_CUSTOMERS) by (unfold MAX_VISIBLE_CUSTOMERS; lia).
  split; [exact H1|]. split; [reflexivity|]. split; [exact H2|].
  split; [reflexivity|]. split; [reflexivity|].
  destruct (decoder_accepts_candidates example_observed_env _ (PyInt 0) 0 1 example_A
              H1 eq_refl H2 eq_refl eq_refl) as (t & Ht & _).
  exists t. exact Ht.
Defined.

Lemma _get_obs_failures_witness :
  (exists key, _get_obs env_missing_key = Raise (KeyError key)) /\
  ~ tasks_known env_missing_key.
Proof.
  assert (H : exists key, _get_obs env_missing_key = Raise (KeyError key))
    by (exists 9; vm_compute; reflexivity).
  split; [exact H|].
  exact (proj2 (proj1 (_get_obs_failures env_missing_key)) H).
Defined.

Lemma observation_within_declared_space_witness :
  _get_obs example_env = Ok (example_obs, example_observed_env) /\
  Forall (fun id => INVALID_CUSTOMER_ID <= id <= 10000)
         (_visible_customer_ids example_observed_env) /\
  Box_contains _get_observation_space example_obs = true.
Proof.
  assert (H : Forall (fun id => INVALID_CUSTOMER_ID <= id <= 10000)
                     (_visible_customer_ids example_observed_env))
    by (repeat constructor; unfold INVALID_CUSTOMER_ID; lia).
  split; [exact _get_obs_example|]. split; [exact H|].
  exact (proj2 (observation_within_declared_space example_env example_obs
                  example_observed_env _get_obs_example) H).
Defined.

Lemma valid_reward_never_above_cap_witness :
  appointments example_env !! Customer.id example_A = None /\
  PrimFloat.ltb 8.0 (_get_valid_reward example_env example_A) = false.
Proof.
  split; [reflexivity|].
  exact (proj2 (valid_reward_never_above_cap example_env example_A) eq_refl).
Defined.

Lemma wait_bonus_saturates_witness :
  PrimFloat.leb 90 (system_time example_env
                    - Customer.arrival_time
                        {| Customer.id := 2; Customer.arrival_time := -100;
                           Customer.task := 0 |}) = true /\
  PrimFloat.eqb
    (_get_valid_reward example_env
       {| Customer.id := 2; Customer.arrival_time := -100; Customer.task := 0 |})
    12 = true.
Proof.
  split; [reflexivity|].
  exact (wait_bonus_saturates example_env
           {| Customer.id := 2; Customer.arrival_time := -100; Customer.task := 0 |}
           eq_refl).
Defined.

Lemma appointment_bonus_effect_witness :
  appointments example_env !! Customer.id example_B
  = Some {| Appointment.time := 50; Appointment.customer_id := 2;
            Appointment.task := 0; Appointment.service_time := 5 |} /\
  PrimFloat.is_nan
    (2.0 + py_min ((system_time example_env - Customer.arrival_time example_B) / 15.0) 6.0)
  = false /\
  PrimFloat.leb
    (2.0 + py_min ((system_time example_env - Customer.arrival_time example_B) / 15.0) 6.0)
    (_get_valid_reward example_env example_B) = true.
Proof.
  split; [reflexivity|]. split; [reflexivity|].
  exact (proj1 (appointment_bonus_effect example_env example_B _ eq_refl eq_refl)).
Defined.

Lemma policy_action_in_space_witness :
  info_action_mask example_info = Some (action_masks example_observed_env) /\
  Z.of_nat (length (action_masks example_observed_env)) = Discrete_n _get_action_space /\
  _predict example_observed_env example_obs example_info = Ok 1 /\
  Discrete_contains _get_action_space 1 = true.
Proof.
  assert (H : _predict example_observed_env example_obs example_info = Ok 1)
    by (vm_compute; reflexivity).
  split; [reflexivity|]. split; [reflexivity|]. split; [exact H|].
  exact (proj1 (policy_action_in_space example_observed_env example_obs example_info
                  (action_masks example_observed_env) 1 eq_refl eq_refl H)).
Defined.

Lemma policy_on_own_observation_witness :
  waiting_by_id example_env /\
  _get_obs example_env = Ok (example_obs, example_observed_env) /\
  info_action_mask example_info = Some (action_masks example_observed_env) /\
  exists a, _predict example_observed_env example_obs example_info = Ok a /\
            action_masks example_observed_env !! Z.to_nat a = Some true.
Proof.
  split; [exact waiting_by_id_example|]. split; [exact _get_obs_example|].
  split; [reflexivity|].
  destruct (policy_on_own_observation example_env example_obs example_observed_env
              example_info waiting_by_id_example _get_obs_example eq_refl)
    as (a & Hp & Hm & _).
  exists a. split; assumption.
Defined.

Lemma policy_keeps_first_maximum_witness :
  info_action_mask example_info = Some (action_masks example_observed_env) /\
  action_masks example_observed_env <> [] /\
  Forall (scorable example_observed_env example_obs
            (default 0%float (info_system_time example_info)))
         (legal_service_actions (action_masks example_observed_env)) /\
  exists best, _predict example_observed_env example_obs example_info = Ok best.
Proof.
  assert (Hne : action_masks example_observed_env <> []) by discriminate.
  split; [reflexivity|]. split; [exact Hne|]. split; [exact scorable_example|].
  destruct (policy_keeps_first_maximum example_observed_env example_obs example_info
              (action_masks example_observed_env) eq_refl Hne scorable_example)
    as (best & Hbest & _).
  exists best. exact Hbest.
Defined.

Lemma policy_needs_observed_slots_witness :
  info_action_mask example_info = Some (action_masks example_observed_env) /\
  action_masks example_observed_env <> [] /\
  0 ∈ legal_service_actions (action_masks example_observed_env) /\
  @nil Z !! Z.to_nat 0 = None /\
  exists e, _predict example_observed_env [] example_info = Raise e.
Proof.
  assert (Hne : action_masks example_observed_env <> []) by discriminate.
  assert (Hin : 0 ∈ legal_service_actions (action_masks example_observed_env)).
  { change (legal_service_actions (action_masks example_observed_env)) with [0; 1].
    apply elem_of_cons. now left. }
  split; [reflexivity|]. split; [exact Hne|]. split; [exact Hin|]. split; [reflexivity|].
  destruct (policy_needs_observed_slots example_observed_env [] example_info
              (action_masks example_observed_env) 0 eq_refl Hne Hin eq_refl) as (e & He & _).
  exists e. exact He.
Defined.

Lemma nobody_to_serve_witness :
  tasks_known idle_env /\
  (forall c, c ∈ dict_values (customer_waiting idle_env) ->
             serves (current_working_server idle_env) c = false) /\
  _get_obs idle_env
  = Ok (replicate (Z.to_nat MAX_VISIBLE_CUSTOMERS) INVALID_CUSTOMER_ID,
        set_visible idle_env []).
Proof.
  assert (H1 : tasks_known idle_env) by constructor.
  assert (H2 : forall c, c ∈ dict_values (customer_waiting idle_env) ->
                         serves (current_working_server idle_env) c = false)
    by (intros c Hc; inversion Hc).
  split; [exact H1|]. split; [exact H2|].
  exact (proj1 (nobody_to_serve idle_env H1 H2)).
Defined.

Lemma score_favours_earlier_arrival_witness :
  exists s1 s2,
    Customer.id example_A
    = Customer.id {| Customer.id := 1; Customer.arrival_time := 10; Customer.task := 0 |} /\
    PrimFloat.leb (Customer.arrival_time example_A)
      (Customer.arrival_time
         {| Customer.id := 1; Customer.arrival_time := 10; Customer.task := 0 |}) = true /\
    score (appointments example_env) 50 1 example_A = Ok s1 /\
    score (appointments example_env) 50 1
      {| Customer.id := 1; Customer.arrival_time := 10; Customer.task := 0 |} = Ok s2 /\
    PrimFloat.is_nan s1 = false /\ PrimFloat.is_nan s2 = false /\
    PrimFloat.leb s2 s1 = true.
Proof.
  destruct (score (appointments example_env) 50 1 example_A) as [s1 |] eqn:E1;
    [|vm_compute in E1; discriminate E1].
  destruct (score (appointments example_env) 50 1
              {| Customer.id := 1; Customer.arrival_time := 10; Customer.task := 0 |})
    as [s2 |] eqn:E2; [|vm_compute in E2; discriminate E2].
  assert (N1 : PrimFloat.is_nan s1 = false)
    by (vm_compute in E1; injection E1 as <-; reflexivity).
  assert (N2 : PrimFloat.is_nan s2 = false)
    by (vm_compute in E2; injection E2 as <-; reflexivity).
  exists s1, s2. split; [reflexivity|]. split; [reflexivity|].
  split; [reflexivity|]. split; [reflexivity|]. split; [exact N1|]. split; [exact N2|].
  exact (score_favours_earlier_arrival (appointments example_env) 50 1 example_A
           {| Customer.id := 1; Customer.arrival_time := 10; Customer.task := 0 |}
           s1 s2 eq_refl eq_refl E1 E2 N1 N2).
Defined.

Lemma appointment_never_lowers_score_witness :
  exists s1 s2,
    (∅ : gmap Z Appointment.t) !! 2 = None /\
    appointments example_env !! 2
    = Some {| Appointment.time := 50; Appointment.customer_id := 2;
              Appointment.task := 0; Appointment.service_time := 5 |} /\
    PrimFloat.ltb 50 (50 - 30.0) = false /\
    score ∅ 50 2 example_B = Ok s1 /\
    score (appointments example_env) 50 2 example_B = Ok s2 /\
    PrimFloat.is_nan s2 = false /\
    PrimFloat.leb s1 s2 = true.
Proof.
  destruct (score ∅ 50 2 example_B) as [s1 |] eqn:E1;
    [|vm_compute in E1; discriminate E1].
  destruct (score (appointments example_env) 50 2 example_B) as [s2 |] eqn:E2;
    [|vm_compute in E2; discriminate E2].
  assert (N2 : PrimFloat.is_nan s2 = false)
    by (vm_compute in E2; injection E2 as <-; reflexivity).
  exists s1, s2. split; [reflexivity|]. split; [reflexivity|]. split; [reflexivity|].
  split; [reflexivity|]. split; [reflexivity|]. split; [exact N2|].
  exact (appointment_never_lowers_score ∅ (appointments example_env) 50 2 example_B _
           s1 s2 eq_refl eq_refl eq_refl E1 E2 N2).
Defined.

Lemma valid_reward_above_invalid_witness :
  PrimFloat.leb (-180) (system_time example_env - Customer.arrival_time example_A) = true /\
  PrimFloat.leb _get_invalid_action_reward (_get_valid_reward example_env example_A) = true.
Proof.
  split; [reflexivity|].
  exact (proj1 valid_reward_above_invalid example_env example_A eq_refl).
Defined.

Lemma candidates_after_departure_witness :
  ids_identify (dict_values (customer_waiting example_env)) /\
  Forall arrival_is_number (dict_values (customer_waiting example_env)) /\
  current_working_server
    {| customer_waiting := [(2, example_B)];
       appointments := appointments example_env;
       current_working_server := current_working_server example_env;
       system_time := 50;
       _visible_customer_ids := [] |}
  = current_working_server example_env /\
  [example_B]
  = List.filter (fun c => Customer.id c =? 2) (dict_values (customer_waiting example_env)) /\
  _get_candidate_customers example_env = Ok [example_A; example_B] /\
  _get_candidate_customers
    {| customer_waiting := [(2, example_B)];
       appointments := appointments example_env;
       current_working_server := current_working_server example_env;
       system_time := 50;
       _visible_customer_ids := [] |}
  = Ok [example_B].
Proof.
  assert (H1 : ids_identify (dict_values (customer_waiting example_env))).
  { intros c d Hc Hd Hid.
    change (dict_values (customer_waiting example_env)) with [example_A; example_B] in Hc, Hd.
    apply elem_of_cons in Hc as [-> | Hc];
      [|apply elem_of_cons in Hc as [-> | Hc]; [|inversion Hc]];
      (apply elem_of_cons in Hd as [-> | Hd];
       [|apply elem_of_cons in Hd as [-> | Hd]; [|inversion Hd]]);
      first [reflexivity | discriminate Hid]. }
  assert (H5 : _get_candidate_customers example_env = Ok [example_A; example_B])
    by reflexivity.
  split; [exact H1|]. split; [exact arrivals_example|]. split; [reflexivity|].
  split; [reflexivity|]. split; [exact H5|].
  exact (candidates_after_departure example_env
           {| customer_waiting := [(2, example_B)];
              appointments := appointments example_env;
              current_working_server := current_working_server example_env;
              system_time := 50;
              _visible_customer_ids := [] |}
           (fun c => Customer.id c =? 2) _ H1 arrivals_example eq_refl eq_refl H5).
Defined.
